(** * XrdAdaptor request manager: request splitting and source bookkeeping

    A shallow embedding of [Utilities/XrdAdaptor/src/XrdRequestManager.cc].

    - [Split]   : [consumeChunkFront], [consumeChunkBack], [validateList] and
                  [RequestManager::splitClientRequest] over vectors of
                  [IOPosBuffer], with the 64-bit arithmetic of [IOSize] and
                  [IOOffset] written out.
    - [Manager] : the source tables of [RequestManager] (active, inactive,
                  disabled), the health check, [handleOpen],
                  [requestFailure], the constructor's open loop and
                  [OpenHandler::open].
    - [Dispatch] : [RequestManager::handle] for a scatter list, which splits
                  the request, runs the health check and hands the parts to
                  the active sources; the budgets of the split are computed
                  in [float] from the qualities of the two active sources.
    - [SplitMore], [ManagerMore] : the predicates of the further properties
                  of the two parts (bytes covered, budgets spent, sources
                  conserved). *)

From Stdlib Require Import ZArith Lia.
From Stdlib Require Floats.SpecFloat.
From stdpp Require Import base option list sorting gmap strings.

Local Open Scope Z_scope.

(** ** Machine integers *)

(** [IOSize] is [size_t]: arithmetic is modulo 2^64. *)
Definition wrapU (x : Z) : Z := x mod 2 ^ 64.

(** [IOOffset] is a signed 64-bit integer; storing an unsigned 64-bit result
    into it reinterprets the bits (two's complement). *)
Definition wrapS (x : Z) : Z := (x + 2 ^ 63) mod 2 ^ 64 - 2 ^ 63.

(** ** Vectors *)

(** [std::vector::back()]: the element at index [size()-1].  On an empty
    vector there is no such element (the C++ call is undefined there); the
    embedding returns [None]. *)
Definition back {A : Type} (v : list A) : option A := last v.

(** A write through the reference returned by [back()]. *)
Definition set_back {A : Type} (v : list A) (x : A) : list A :=
  <[pred (length v) := x]> v.

(** [std::vector::pop_back()]. *)
Definition pop_back {A : Type} (v : list A) : list A :=
  take (pred (length v)) v.

Module Split.

(** [#define XRD_CL_MAX_CHUNK 512*1024] *)
Definition XRD_CL_MAX_CHUNK : Z := 512 * 1024.

(** [IOPosBuffer]: a scatter/gather fragment.  [data] is the address of the
    buffer. *)
Record IOPosBuffer := mkIOPosBuffer { offset : Z; data : Z; size : Z }.

Definition set_size (b : IOPosBuffer) (n : Z) : IOPosBuffer :=
  {| offset := offset b; data := data b; size := n |}.

(** The exact number of bytes a list of fragments asks for. *)
Definition total_size (l : list IOPosBuffer) : Z :=
  foldr (fun b acc => size b + acc) 0 l.

(** The first branch of both consume loops ([io.size() > chunksize]), up to
    the update of [io]: either the tail of [output] is extended, or a new
    fragment of [chunksize] bytes is appended.  Returns [consumed] and the new
    output.  [outio] is the reference bound by [output.back()]; the guard
    [output.size() && ...] short-circuits before it is read when the output is
    empty.  The signed sum [outio.offset() + outio.size()] wraps here where
    C++ leaves its overflow undefined. *)
Definition take_partial (io : IOPosBuffer) (outio : option IOPosBuffer)
    (output : list IOPosBuffer) (chunksize : Z) : Z * list IOPosBuffer :=
  let fresh := output ++ [mkIOPosBuffer (offset io) (data io) chunksize] in
  match outio with
  | Some o =>
      if negb (Nat.eqb (length output) 0)
         && (size o <? XRD_CL_MAX_CHUNK)
         && (wrapS (offset o + wrapS (size o)) =? offset io)
      then
        if wrapU (size o + chunksize) >? XRD_CL_MAX_CHUNK
        then (wrapU (XRD_CL_MAX_CHUNK - size o),
              set_back output (set_size o XRD_CL_MAX_CHUNK))
        else (chunksize,
              set_back output (set_size o (wrapU (size o + chunksize))))
      else (chunksize, fresh)
  | None => (chunksize, fresh)
  end.

(** [io] after [consumed] bytes were taken from its front. *)
Definition advance (io : IOPosBuffer) (consumed : Z) : IOPosBuffer :=
  {| offset := wrapS (offset io + consumed);
     data := wrapU (data io + consumed);
     size := wrapU (size io - consumed) |}.

(** The variables of a consume loop. *)
Record cursor := mkCursor {
  front : nat;
  input : list IOPosBuffer;
  output : list IOPosBuffer;
  chunksize : Z
}.

(** [while ((chunksize > 0) && (front < input.size()))] *)
Definition consume_cond (c : cursor) : bool :=
  (0 <? chunksize c) && (front c <? length (input c))%nat.

(** One iteration of [consumeChunkFront], given the two references bound at
    its top. *)
Definition consumeChunkFront_body (io : IOPosBuffer) (outio : option IOPosBuffer)
    (c : cursor) : cursor :=
  if size io >? chunksize c then
    let '(consumed, output') := take_partial io outio (output c) (chunksize c) in
    mkCursor (front c) (<[front c := advance io consumed]> (input c)) output'
             (wrapU (chunksize c - consumed))
  else if size io =? 0 then
    mkCursor (S (front c)) (input c) (output c) (chunksize c)
  else
    mkCursor (S (front c)) (input c) (output c ++ [io])
             (wrapU (chunksize c - size io)).

(** One trip through the loop of [consumeChunkFront]: [None] when the loop
    condition fails; otherwise the reference [outio] bound in this iteration
    and the variables after it. *)
Definition consumeChunkFront_iter (c : cursor)
    : option (option IOPosBuffer * cursor) :=
  if consume_cond c then
    match input c !! front c with
    | Some io =>
        let outio := back (output c) in
        Some (outio, consumeChunkFront_body io outio c)
    | None => None
    end
  else None.

(** The [while] loop of both consume functions, over its iteration. *)
Fixpoint consume_loop (iter : cursor -> option (option IOPosBuffer * cursor))
    (fuel : nat) (c : cursor) : cursor :=
  match fuel with
  | O => c
  | S n =>
      match iter c with
      | Some (_, c') => consume_loop iter n c'
      | None => c
      end
  end.

(** Every iteration lowers [chunksize + (input.size() - front)], which
    therefore bounds the number of iterations. *)
Definition consume_fuel (c : cursor) : nat :=
  (Z.to_nat (chunksize c) + (length (input c) - front c))%nat.

Definition consumeChunkFront (c : cursor) : cursor :=
  consume_loop consumeChunkFront_iter (consume_fuel c) c.

(** One iteration of [consumeChunkBack]: [io] is [input.back()]. *)
Definition consumeChunkBack_body (io : IOPosBuffer) (outio : option IOPosBuffer)
    (c : cursor) : cursor :=
  if size io >? chunksize c then
    let '(consumed, output') := take_partial io outio (output c) (chunksize c) in
    mkCursor (front c) (set_back (input c) (advance io consumed)) output'
             (wrapU (chunksize c - consumed))
  else if size io =? 0 then
    mkCursor (front c) (pop_back (input c)) (output c) (chunksize c)
  else
    mkCursor (front c) (pop_back (input c)) (output c ++ [io])
             (wrapU (chunksize c - size io)).

Definition consumeChunkBack_iter (c : cursor)
    : option (option IOPosBuffer * cursor) :=
  if consume_cond c then
    match back (input c) with
    | Some io =>
        let outio := back (output c) in
        Some (outio, consumeChunkBack_body io outio c)
    | None => None
    end
  else None.

Definition consumeChunkBack (c : cursor) : cursor :=
  consume_loop consumeChunkBack_iter (consume_fuel c) c.

(** The variables of the loop of [splitClientRequest]. *)
Record split_state := mkSplit {
  s_front : nat;
  tmp_iolist : list IOPosBuffer;
  req1 : list IOPosBuffer;
  req2 : list IOPosBuffer
}.

(** [while (tmp_iolist.size()-front > 0)], in [size_t]. *)
Definition split_cond (s : split_state) : bool :=
  0 <? wrapU (Z.of_nat (length (tmp_iolist s)) - Z.of_nat (s_front s)).

(** One round: [consumeChunkFront(front, tmp_iolist, req1, chunk1)] (which
    takes [front] by reference) and then
    [consumeChunkBack(front, tmp_iolist, req2, chunk2)]. *)
Definition split_round (chunk1 chunk2 : Z) (s : split_state) : split_state :=
  let c1 := consumeChunkFront
              (mkCursor (s_front s) (tmp_iolist s) (req1 s) chunk1) in
  let c2 := consumeChunkBack
              (mkCursor (front c1) (input c1) (req2 s) chunk2) in
  mkSplit (front c1) (input c2) (output c1) (output c2).

(** [None] when the fuel runs out before the loop condition fails. *)
Fixpoint split_loop (chunk1 chunk2 : Z) (fuel : nat) (s : split_state)
    : option split_state :=
  if split_cond s then
    match fuel with
    | O => None
    | S n => split_loop chunk1 chunk2 n (split_round chunk1 chunk2 s)
    end
  else Some s.

(** [std::sort] with the comparator [left.offset() < right.offset()].  The
    order it gives to fragments of equal offset is not specified; such lists
    fail [validateList] in any order. *)
Definition offset_le (a b : IOPosBuffer) : Prop := offset a <= offset b.

#[global] Instance offset_le_dec : RelDecision offset_le.
Proof. intros a b. unfold offset_le. apply Z_le_dec. Defined.

Definition sort_by_offset (l : list IOPosBuffer) : list IOPosBuffer :=
  merge_sort offset_le l.

(** A round with a positive budget takes at least one byte or drops at least
    one fragment. *)
Definition split_fuel (iolist : list IOPosBuffer) : nat :=
  (Z.to_nat (total_size iolist) + length iolist)%nat.

(** [splitClientRequest] up to and including the two sorts.  [chunk1] and
    [chunk2] are the per-round budgets, which the source computes in [float]
    from the qualities of the two active sources as
    [XRD_CL_MAX_CHUNK * (q2/(q1+q2))] and [XRD_CL_MAX_CHUNK * (q1/(q1+q2))];
    they are arguments here.  [None]: the loop does not terminate. *)
Definition split_lists (chunk1 chunk2 : Z) (iolist r1 r2 : list IOPosBuffer)
    : option (list IOPosBuffer * list IOPosBuffer) :=
  if Nat.eqb (length iolist) 0 then Some (r1, r2)
  else
    match split_loop chunk1 chunk2 (split_fuel iolist)
            (mkSplit 0 iolist r1 r2) with
    | Some s => Some (sort_by_offset (req1 s), sort_by_offset (req2 s))
    | None => None
    end.

(** [validateList], with its assertions compiled in: [None] when one of them
    fails, otherwise the total it returns.  [last_offset] is an [off_t]. *)
Fixpoint validateList_from (last_offset total : Z) (req : list IOPosBuffer)
    : option Z :=
  match req with
  | [] => Some total
  | it :: rest =>
      if (offset it >? last_offset)
         && (size it <=? XRD_CL_MAX_CHUNK)
         && (offset it <? 0x1ffffffffff)
      then validateList_from (offset it) (wrapU (total + size it)) rest
      else None
  end.

Definition validateList (req : list IOPosBuffer) : option Z :=
  validateList_from (-1) 0 req.

(** [for (const auto & it : iolist) size_orig += it.size();] *)
Definition size_orig (iolist : list IOPosBuffer) : Z :=
  foldl (fun acc it => wrapU (acc + size it)) 0 iolist.

Inductive outcome (A : Type) : Type :=
  | Returned (a : A)
  | AssertionFailed
  | Diverged.
Arguments Returned {A} a.
Arguments AssertionFailed {A}.
Arguments Diverged {A}.

(** [RequestManager::splitClientRequest(iolist, req1, req2)]; the result is
    the contents of [req1] and [req2] when it returns. *)
Definition splitClientRequest (chunk1 chunk2 : Z)
    (iolist r1 r2 : list IOPosBuffer)
    : outcome (list IOPosBuffer * list IOPosBuffer) :=
  if Nat.eqb (length iolist) 0 then Returned (r1, r2)
  else
    match split_lists chunk1 chunk2 iolist r1 r2 with
    | None => Diverged
    | Some (r1', r2') =>
        match validateList r1', validateList r2' with
        | Some size1, Some size2 =>
            if size_orig iolist =? wrapU (size1 + size2)
            then Returned (r1', r2')
            else AssertionFailed
        | _, _ => AssertionFailed
        end
    end.

(** The call made by [RequestManager::handle]: [req1] and [req2] are fresh,
    empty vectors. *)
Definition handle_split (chunk1 chunk2 : Z) (iolist : list IOPosBuffer) :=
  splitClientRequest chunk1 chunk2 iolist [] [].

(** ** Invariants and measures of the loops *)

(** Every [size] is a value of [IOSize]. *)
Definition sizes_ok (l : list IOPosBuffer) : Prop :=
  Forall (fun b => 0 <= size b < 2 ^ 64) l.

(** The part of the working copy that is still to be consumed. *)
Definition live (c : cursor) : Z := total_size (drop (front c) (input c)).

(** The loop variables hold values of their types. *)
Record cursor_ok (c : cursor) : Prop := {
  input_ok : sizes_ok (input c);
  output_ok : sizes_ok (output c);
  chunk_ok : 0 <= chunksize c <= XRD_CL_MAX_CHUNK;
  front_ok : (front c <= length (input c))%nat
}.

(** What one iteration achieves: the bytes are conserved, and both the
    loop's own measure and the measure of the enclosing loop go down. *)
Record iter_ok (c c' : cursor) : Prop := {
  it_ok : cursor_ok c';
  it_bytes : live c' + total_size (output c') = live c + total_size (output c);
  it_fuel : (consume_fuel c' < consume_fuel c)%nat;
  it_live : (Z.to_nat (live c') + (length (input c') - front c')
             < Z.to_nat (live c) + (length (input c) - front c))%nat;
  it_front : (front c <= front c')%nat;
  it_len : (length (input c') <= length (input c))%nat
}.

(** The measure of the loop of [splitClientRequest]. *)
Definition remaining (front : nat) (input : list IOPosBuffer) : nat :=
  (Z.to_nat (total_size (drop front input)) + (length input - front))%nat.

(** The variables of the outer loop hold values of their types. *)
Record split_ok (s : split_state) : Prop := {
  tmp_ok : sizes_ok (tmp_iolist s);
  req1_ok : sizes_ok (req1 s);
  req2_ok : sizes_ok (req2 s);
  s_front_ok : (s_front s <= length (tmp_iolist s))%nat;
  tmp_len_ok : Z.of_nat (length (tmp_iolist s)) < 2 ^ 64
}.

(** The bytes still in the working copy and the bytes already handed out. *)
Definition pending (s : split_state) : Z :=
  total_size (drop (s_front s) (tmp_iolist s)).

Definition handed_out (s : split_state) : Z :=
  total_size (req1 s) + total_size (req2 s).

Definition offset_lt (a b : IOPosBuffer) : Prop := offset a < offset b.

(** Offsets strictly increasing along the list. *)
Definition strictly_increasing (l : list IOPosBuffer) : Prop :=
  Sorted offset_lt l.

(** The bounds of the specification on one output fragment. *)
Definition fragment_ok (b : IOPosBuffer) : Prop :=
  size b <= 512 * 1024 /\ offset b < 2 ^ 41.

(** ** Requests whose fragments do not overlap *)

(** The bound that [validateList] asserts on offsets. *)
Definition OFFSET_LIMIT : Z := 0x1ffffffffff.

(** One past the last byte of a fragment. *)
Definition ends (b : IOPosBuffer) : Z := offset b + size b.

(** Two fragments share no byte. *)
Definition apart (a b : IOPosBuffer) : Prop :=
  size a = 0 \/ size b = 0 \/ ends a <= offset b \/ ends b <= offset a.

Fixpoint pairwise_apart (l : list IOPosBuffer) : Prop :=
  match l with
  | [] => True
  | x :: rest => Forall (apart x) rest /\ pairwise_apart rest
  end.

(** A fragment of the request lies below the offset bound. *)
Definition in_range (b : IOPosBuffer) : Prop :=
  0 <= size b < 2 ^ 64 /\ 0 <= offset b /\ ends b <= OFFSET_LIMIT.

(** A fragment of an output list: not empty, at most [XRD_CL_MAX_CHUNK]
    bytes, below the offset bound. *)
Definition piece_ok (b : IOPosBuffer) : Prop :=
  0 < size b <= XRD_CL_MAX_CHUNK /\ 0 <= offset b /\ ends b <= OFFSET_LIMIT.

(** A scatter list as the callers build it: fragments within the offset
    bound that do not overlap one another. *)
Record request_ok (iolist : list IOPosBuffer) : Prop := {
  req_range : Forall in_range iolist;
  req_len : Z.of_nat (length iolist) < 2 ^ 64;
  req_apart : pairwise_apart iolist
}.

(** The invariant of a consume loop for non-overlapping requests; [others]
    is the output list of the other loop. *)
Record cursor_apart (others : list IOPosBuffer) (c : cursor) : Prop := {
  ca_ok : cursor_ok c;
  ca_live : Forall in_range (drop (front c) (input c));
  ca_out : Forall piece_ok (output c);
  ca_others : Forall piece_ok others;
  ca_apart : pairwise_apart (drop (front c) (input c) ++ output c ++ others)
}.

Record split_apart (s : split_state) : Prop := {
  sa_ok : split_ok s;
  sa_live : Forall in_range (drop (s_front s) (tmp_iolist s));
  sa_req1 : Forall piece_ok (req1 s);
  sa_req2 : Forall piece_ok (req2 s);
  sa_apart : pairwise_apart
               (drop (s_front s) (tmp_iolist s) ++ req1 s ++ req2 s)
}.

Definition KiB : Z := 1024.

(** Scenario S5 of the specification: three fragments of 200 KiB, budgets of
    384 KiB and 128 KiB. *)
Definition s5_input : list IOPosBuffer :=
  [ mkIOPosBuffer 0 4096 (200 * KiB);
    mkIOPosBuffer (200 * KiB) 1004096 (200 * KiB);
    mkIOPosBuffer (400 * KiB) 2004096 (200 * KiB) ].

(** ** The accesses to [output], in the order of the statements *)

(** What a consume loop does with the vector [output].  [n] is
    [output.size()] at the time of the access. *)
Inductive access :=
  | BindBack (n : nat)  (* [IOPosBuffer &outio = output.back();] *)
  | TestSize (n : nat)  (* [output.size()] in the condition *)
  | UseBack             (* a member of [outio] is read or written *)
  | Append.             (* [emplace_back], [push_back] *)

Definition is_bind (e : access) : bool :=
  match e with
  | BindBack _ => true
  | _ => false
  end.

(** A computation that logs its accesses. *)
Definition logged (A : Type) : Type := list access * A.

Definition done_with {A : Type} (a : A) : logged A := ([], a).

Definition and_then {A B : Type} (x : logged A) (k : A -> logged B)
    : logged B :=
  (fst x ++ fst (k (snd x)), snd (k (snd x))).

(** [output.back()]: the reference refers to the last element, to nothing
    on an empty vector. *)
Definition vec_back (v : list IOPosBuffer) : logged (option IOPosBuffer) :=
  ([BindBack (length v)], back v).

Definition vec_size (v : list IOPosBuffer) : logged nat :=
  ([TestSize (length v)], length v).

Definition vec_append (v : list IOPosBuffer) (x : IOPosBuffer)
    : logged (list IOPosBuffer) :=
  ([Append], v ++ [x]).

(** An expression that goes through the reference [outio]; [otherwise]
    stands for what it yields when the reference refers to nothing. *)
Definition through {A : Type} (outio : option IOPosBuffer)
    (f : IOPosBuffer -> A) (otherwise : A) : logged A :=
  ([UseBack], match outio with Some o => f o | None => otherwise end).

(** The first branch of an iteration: the condition
    [output.size() && (outio.size() < XRD_CL_MAX_CHUNK) && (outio.offset() +
    static_cast<IOOffset>(outio.size()) == io.offset())] is evaluated from
    left to right and stops at the first operand that is false. *)
Definition take_partial_logged (io : IOPosBuffer) (outio : option IOPosBuffer)
    (output : list IOPosBuffer) (chunksize : Z)
    : logged (Z * list IOPosBuffer) :=
  let fresh :=
    and_then
      (vec_append output (mkIOPosBuffer (offset io) (data io) chunksize))
      (fun out => done_with (chunksize, out)) in
  and_then (vec_size output) (fun n =>
  if Nat.eqb n 0 then fresh
  else
    and_then (through outio (fun o => size o <? XRD_CL_MAX_CHUNK) false)
      (fun small =>
    if small then
      and_then
        (through outio
           (fun o => wrapS (offset o + wrapS (size o)) =? offset io) false)
        (fun adjacent =>
      if adjacent then
        through outio
          (fun o =>
             if wrapU (size o + chunksize) >? XRD_CL_MAX_CHUNK
             then (wrapU (XRD_CL_MAX_CHUNK - size o),
                   set_back output (set_size o XRD_CL_MAX_CHUNK))
             else (chunksize,
                   set_back output
                     (set_size o (wrapU (size o + chunksize)))))
          (chunksize, output)
      else fresh)
    else fresh)).

(** One iteration of [consumeChunkFront], statement by statement. *)
Definition consumeChunkFront_logged (c : cursor) : option (logged cursor) :=
  if consume_cond c then
    match input c !! front c with
    | Some io =>
        Some (and_then (vec_back (output c)) (fun outio =>
              if size io >? chunksize c then
                and_then
                  (take_partial_logged io outio (output c) (chunksize c))
                  (fun r =>
                     done_with
                       (mkCursor (front c)
                          (<[front c := advance io (fst r)]> (input c))
                          (snd r) (wrapU (chunksize c - fst r))))
              else if size io =? 0 then
                done_with
                  (mkCursor (S (front c)) (input c) (output c) (chunksize c))
              else
                and_then (vec_append (output c) io) (fun out =>
                  done_with
                    (mkCursor (S (front c)) (input c) out
                       (wrapU (chunksize c - size io))))))
    | None => None
    end
  else None.

(** One iteration of [consumeChunkBack], statement by statement. *)
Definition consumeChunkBack_logged (c : cursor) : option (logged cursor) :=
  if consume_cond c then
    match back (input c) with
    | Some io =>
        Some (and_then (vec_back (output c)) (fun outio =>
              if size io >? chunksize c then
                and_then
                  (take_partial_logged io outio (output c) (chunksize c))
                  (fun r =>
                     done_with
                       (mkCursor (front c)
                          (set_back (input c) (advance io (fst r)))
                          (snd r) (wrapU (chunksize c - fst r))))
              else if size io =? 0 then
                done_with
                  (mkCursor (front c) (pop_back (input c)) (output c)
                     (chunksize c))
              else
                and_then (vec_append (output c) io) (fun out =>
                  done_with
                    (mkCursor (front c) (pop_back (input c)) out
                       (wrapU (chunksize c - size io))))))
    | None => None
    end
  else None.

(** The [while] loop with its accesses. *)
Fixpoint consume_loop_logged (iter : cursor -> option (logged cursor))
    (fuel : nat) (c : cursor) : logged cursor :=
  match fuel with
  | O => done_with c
  | S n =>
      match iter c with
      | Some x => and_then x (consume_loop_logged iter n)
      | None => done_with c
      end
  end.

Definition consumeChunkFront_run (c : cursor) : logged cursor :=
  consume_loop_logged consumeChunkFront_logged (consume_fuel c) c.

Definition consumeChunkBack_run (c : cursor) : logged cursor :=
  consume_loop_logged consumeChunkBack_logged (consume_fuel c) c.

End Split.

Module Manager.

(** ** Constants (non-debug build) *)

Definition XRD_ADAPTOR_SHORT_OPEN_DELAY : Z := 5.
Definition XRD_ADAPTOR_OPEN_PROBE_PERCENT : Z := 10.
Definition XRD_ADAPTOR_LONG_OPEN_DELAY : Z := 2 * 60.
Definition XRD_ADAPTOR_SOURCE_QUALITY_FUDGE : Z := 100.

(** [XrdCl::errInvalidResponse], a constant of the transport library; the
    manager only compares status codes with it. *)
Definition errInvalidResponse : Z := 303.

(** ** Time *)

Record timespec := mkTimespec { tv_sec : Z; tv_nsec : Z }.

(** [timeDiffMS(a, b)]: whole milliseconds from [b] to [a].  The source adds
    [(a.tv_nsec - b.tv_nsec) / 1e6] in [double] to the integer
    [(a.tv_sec - b.tv_sec) * 1000] and converts back, truncating toward zero;
    the quotient is taken exactly here. *)
Definition timeDiffMS (a b : timespec) : Z :=
  Z.quot ((tv_sec a - tv_sec b) * 1000 * 1000000 + (tv_nsec a - tv_nsec b))
         1000000.

Definition add_seconds (t : timespec) (s : Z) : timespec :=
  {| tv_sec := tv_sec t + s; tv_nsec := tv_nsec t |}.

(** ** Sources *)

(** Modelled from the spec: the [Source] collaborator, whose class is not
    part of the sources at hand: an immutable id (the server identity), an
    integer quality (lower is better) and the time of its last downgrade,
    zero when it was never downgraded. *)
Record Source := mkSource {
  ID : string;
  quality : Z;
  lastDowngrade : timespec
}.

(** A [std::shared_ptr<Source>], by the address of the object it shares. *)
Definition ptr := nat.

Definition null_source : Source := mkSource EmptyString 0 (mkTimespec 0 0).

(** ** The open handler *)

(** [OpenHandler].  Shared states of promises and files are named by numbers
    drawn from [next_state]; [file_opens] records the URLs handed to the
    asynchronous [XrdCl::File::Open], and [settled] the promises that were
    given a value ([Some source]) or an exception ([None]). *)
Record OpenHandler := mkOpenHandler {
  m_file : option nat;
  m_promise : nat;
  m_shared_future : option nat;
  m_ignore_response : bool;
  next_state : nat;
  file_opens : list string;
  settled : gmap nat (option ptr)
}.

(** ** The manager *)

(** [RequestManager].  [sources] holds the [Source] objects the shared
    pointers of the three collections point to. *)
Record RequestManager := mkManager {
  m_activeSources : list ptr;
  m_inactiveSources : list ptr;
  m_disabledSources : gset ptr;
  m_disabledSourceStrings : gset string;
  m_lastSourceCheck : timespec;
  m_nextActiveSourceCheck : timespec;
  m_nextInitialSourceToggle : bool;
  m_timeout : Z;
  m_name : string;
  m_flags : Z;
  m_perms : Z;
  m_open_handler : OpenHandler;
  sources : gmap ptr Source
}.

Definition set_active (m : RequestManager) (v : list ptr) : RequestManager :=
  mkManager v (m_inactiveSources m) (m_disabledSources m)
    (m_disabledSourceStrings m) (m_lastSourceCheck m)
    (m_nextActiveSourceCheck m) (m_nextInitialSourceToggle m) (m_timeout m)
    (m_name m) (m_flags m) (m_perms m) (m_open_handler m) (sources m).

Definition set_inactive (m : RequestManager) (v : list ptr) : RequestManager :=
  mkManager (m_activeSources m) v (m_disabledSources m)
    (m_disabledSourceStrings m) (m_lastSourceCheck m)
    (m_nextActiveSourceCheck m) (m_nextInitialSourceToggle m) (m_timeout m)
    (m_name m) (m_flags m) (m_perms m) (m_open_handler m) (sources m).

Definition set_disabled (m : RequestManager) (ps : gset ptr)
    (ids : gset string) : RequestManager :=
  mkManager (m_activeSources m) (m_inactiveSources m) ps ids
    (m_lastSourceCheck m) (m_nextActiveSourceCheck m)
    (m_nextInitialSourceToggle m) (m_timeout m) (m_name m) (m_flags m)
    (m_perms m) (m_open_handler m) (sources m).

Definition set_lastSourceCheck (m : RequestManager) (t : timespec)
    : RequestManager :=
  mkManager (m_activeSources m) (m_inactiveSources m) (m_disabledSources m)
    (m_disabledSourceStrings m) t (m_nextActiveSourceCheck m)
    (m_nextInitialSourceToggle m) (m_timeout m) (m_name m) (m_flags m)
    (m_perms m) (m_open_handler m) (sources m).

Definition set_nextActiveSourceCheck (m : RequestManager) (t : timespec)
    : RequestManager :=
  mkManager (m_activeSources m) (m_inactiveSources m) (m_disabledSources m)
    (m_disabledSourceStrings m) (m_lastSourceCheck m) t
    (m_nextInitialSourceToggle m) (m_timeout m) (m_name m) (m_flags m)
    (m_perms m) (m_open_handler m) (sources m).

Definition set_toggle (m : RequestManager) (b : bool) : RequestManager :=
  mkManager (m_activeSources m) (m_inactiveSources m) (m_disabledSources m)
    (m_disabledSourceStrings m) (m_lastSourceCheck m)
    (m_nextActiveSourceCheck m) b (m_timeout m) (m_name m) (m_flags m)
    (m_perms m) (m_open_handler m) (sources m).

Definition set_handler (m : RequestManager) (h : OpenHandler)
    : RequestManager :=
  mkManager (m_activeSources m) (m_inactiveSources m) (m_disabledSources m)
    (m_disabledSourceStrings m) (m_lastSourceCheck m)
    (m_nextActiveSourceCheck m) (m_nextInitialSourceToggle m) (m_timeout m)
    (m_name m) (m_flags m) (m_perms m) h (sources m).

Definition set_sources (m : RequestManager) (s : gmap ptr Source)
    : RequestManager :=
  mkManager (m_activeSources m) (m_inactiveSources m) (m_disabledSources m)
    (m_disabledSourceStrings m) (m_lastSourceCheck m)
    (m_nextActiveSourceCheck m) (m_nextInitialSourceToggle m) (m_timeout m)
    (m_name m) (m_flags m) (m_perms m) (m_open_handler m) s.

(** [*p] for a shared pointer [p]. *)
Definition source_at (m : RequestManager) (p : ptr) : Source :=
  default null_source (sources m !! p).

Definition getQuality (m : RequestManager) (p : ptr) : Z :=
  quality (source_at m p).

Definition getLastDowngrade (m : RequestManager) (p : ptr) : timespec :=
  lastDowngrade (source_at m p).

(** [p->setLastDowngrade(now)]: a write to the shared object. *)
Definition setLastDowngrade (m : RequestManager) (p : ptr) (now : timespec)
    : RequestManager :=
  set_sources m
    (alter (fun s => mkSource (ID s) (quality s) now) p (sources m)).

(** Outcome of a member function: it returns a value, or an [edm::Exception]
    of the given category leaves it; either way with the manager as the call
    left it. *)
Inductive edm_error := FileOpenError | FileReadError.

Inductive res (A : Type) : Type :=
  | Done (a : A) (m : RequestManager)
  | Raise (e : edm_error) (m : RequestManager).
Arguments Done {A} a m.
Arguments Raise {A} e m.

(** ** The opaque exclusion string *)

(** [id.substr(0, id.find(":"))]: the id up to its first colon, the whole id
    when it has none. *)
Definition host_of (id : string) : string :=
  match String.index 0 ":"%string id with
  | Some n => String.substring 0 n id
  | None => id
  end.

(** [prepareOpaqueString].  The disabled ids are visited in the iteration
    order of their container. *)
Definition prepareOpaqueString (m : RequestManager) : string :=
  let ids := (ID ∘ source_at m <$> m_activeSources m)
             ++ (ID ∘ source_at m <$> m_inactiveSources m)
             ++ elements (m_disabledSourceStrings m) in
  let ss := "tried="%string +:+ String.concat EmptyString ((fun id => host_of id +:+ ","%string) <$> ids) in
  if Nat.eqb (length ids) 0 then EmptyString
  else String.substring 0 (String.length ss - 1) ss.

(** [m_name.find("?") == m_name.npos ? "?" : "&"] *)
Definition separator (name : string) : string :=
  match String.index 0 "?"%string name with
  | None => "?"%string
  | Some _ => "&"%string
  end.

(** ** [OpenHandler::open] *)

(** [sync_ok]: whether the transport's [File::Open(new_name, flags, perms,
    this)] accepts the request.  The value returned is the shared state of
    the future handed back. *)
Definition OpenHandler_open (sync_ok : bool) (m : RequestManager)
    : res (option nat) :=
  let h := m_open_handler m in
  match m_file h with
  | Some _ => Done (m_shared_future h) m
  | None =>
      let p := next_state h in
      let new_name := m_name m +:+ separator (m_name m)
                      +:+ prepareOpaqueString m in
      let h' := mkOpenHandler (Some (S p)) p (Some p) (m_ignore_response h)
                  (S (S p)) (file_opens h ++ [new_name]) (settled h) in
      if sync_ok then Done (Some p) (set_handler m h')
      else Raise FileOpenError (set_handler m h')
  end.

(** ** [handleOpen] *)

Definition has_id (m : RequestManager) (id : string) (l : list ptr) : bool :=
  existsb (fun s => String.eqb id (ID (source_at m s))) l.

Definition defer_next_check (m : RequestManager) : RequestManager :=
  set_nextActiveSourceCheck m
    (add_seconds (m_nextActiveSourceCheck m)
       (XRD_ADAPTOR_LONG_OPEN_DELAY - XRD_ADAPTOR_SHORT_OPEN_DELAY)).

(** [handleOpen(status, source)], with [status_ok] for [status.IsOK()]. *)
Definition handleOpen (status_ok : bool) (source : ptr) (m : RequestManager)
    : RequestManager :=
  if status_ok then
    let id := ID (source_at m source) in
    if has_id m id (m_activeSources m) then defer_next_check m
    else if has_id m id (m_inactiveSources m) then defer_next_check m
    else if (length (m_activeSources m) <? 2)%nat
         then set_active m (m_activeSources m ++ [source])
         else set_inactive m (m_inactiveSources m ++ [source])
  else defer_next_check m.

(** The first half of [OpenHandler::HandleResponseWithHosts], under the
    handler's lock: the transport's answer settles the promise of the open in
    flight.  [source] and [obj] are the address and the contents of the
    [Source] built around the opened file when the status is OK. *)
Definition settle_open (status_ok : bool) (source : ptr) (obj : Source)
    (m : RequestManager) : RequestManager :=
  let h := m_open_handler m in
  if status_ok then
    let h' := mkOpenHandler None (m_promise h) (m_shared_future h) false
                (next_state h) (file_opens h)
                (<[m_promise h := Some source]> (settled h)) in
    set_handler (set_sources m (<[source := obj]> (sources m))) h'
  else
    let h' := mkOpenHandler None (m_promise h) (m_shared_future h) false
                (next_state h) (file_opens h)
                (<[m_promise h := None]> (settled h)) in
    set_handler m h'.

(** [OpenHandler::HandleResponseWithHosts]: nothing when the handler is being
    destroyed; otherwise the promise is settled and the result is merged into
    the manager's tables by [handleOpen]. *)
Definition HandleResponseWithHosts (status_ok : bool) (source : ptr)
    (obj : Source) (m : RequestManager) : RequestManager :=
  if m_ignore_response (m_open_handler m) then m
  else handleOpen status_ok source (settle_open status_ok source obj m).

(** ** The health check *)

(** [compareSources(now, a, b)]: demotes [m_activeSources[a]] when its
    quality is poor in absolute terms or against [m_activeSources[b]].
    Returns [findNewSource]. *)
Definition compareSources (now : timespec) (a b : nat) (m : RequestManager)
    : bool * RequestManager :=
  if (length (m_activeSources m) <? Nat.max a b + 1)%nat then (false, m)
  else
    match m_activeSources m !! a, m_activeSources m !! b with
    | Some pa, Some pb =>
        if (getQuality m pa >? 5130)
           || ((getQuality m pa >? 260)
               && (getQuality m pb * 4 <? getQuality m pa))
        then
          let findNewSource := negb (tv_sec (getLastDowngrade m pa) =? 0) in
          let m1 := setLastDowngrade m pa now in
          let m2 := set_inactive m1 (m_inactiveSources m1 ++ [pa]) in
          (findNewSource, set_active m2 (delete a (m_activeSources m2)))
        else (false, m)
    | _, _ => (false, m)
    end.

(** The inactive sources whose last downgrade is more than [ms]
    milliseconds old. *)
Definition eligibleInactiveSources (now : timespec) (ms : Z)
    (m : RequestManager) : list ptr :=
  filter (fun p => ms < timeDiffMS now (getLastDowngrade m p))
         (m_inactiveSources m).

(** [std::min_element] by quality: the first source of least quality. *)
Definition min_element (m : RequestManager) (l : list ptr) : option ptr :=
  match l with
  | [] => None
  | p :: rest =>
      Some (foldl (fun best q =>
                     if getQuality m q <? getQuality m best then q else best)
                  p rest)
  end.

(** [std::max_element] by quality: the position and the value of the first
    source of greatest quality. *)
Definition max_element (m : RequestManager) (l : list ptr)
    : option (nat * ptr) :=
  match l with
  | [] => None
  | p :: rest =>
      Some (fst (foldl (fun '(best, i) q =>
                          if getQuality m (snd best) <? getQuality m q
                          then ((i, q), S i) else (best, S i))
                       ((0%nat, p), 1%nat) rest))
  end.

(** The removal loop
    [for (it = begin; it != end; it++) if (it->get() == p) {erase(it); break;}]. *)
Fixpoint erase_first (p : ptr) (l : list ptr) : list ptr :=
  match l with
  | [] => []
  | q :: rest => if decide (q = p) then rest else q :: erase_first p rest
  end.

(** The body of the swap loop: the worst active source is downgraded and
    changes place with the best eligible inactive one. *)
Definition swap_sources (now : timespec) (best : ptr) (worst : nat * ptr)
    (m : RequestManager) : RequestManager :=
  let m1 := setLastDowngrade m (snd worst) now in
  let m2 := set_inactive m1 (erase_first best (m_inactiveSources m1)) in
  let m3 := set_inactive m2 (m_inactiveSources m2 ++ [snd worst]) in
  let m4 := set_active m3 (delete (fst worst) (m_activeSources m3)) in
  set_active m4 (m_activeSources m4 ++ [best]).

(** The [while] loop that swaps sources; [None] when the fuel runs out. *)
Fixpoint swap_loop (fuel : nat) (now : timespec) (best : option ptr)
    (worst : option (nat * ptr)) (m : RequestManager)
    : option RequestManager :=
  match best, worst with
  | Some b, Some w =>
      if getQuality m (snd w)
         >? getQuality m b + XRD_ADAPTOR_SOURCE_QUALITY_FUDGE
      then
        match fuel with
        | O => None
        | S n =>
            let m' := swap_sources now b w m in
            let eligible :=
              eligibleInactiveSources now
                ((XRD_ADAPTOR_LONG_OPEN_DELAY - 1) * 1000) m' in
            swap_loop n now (min_element m' eligible)
                      (max_element m' (m_activeSources m')) m'
        end
      else Some m
  | _, _ => Some m
  end.

(** The [else if (m_activeSources.size() > 1)] branch of
    [checkSourcesImpl].  [probe] is the outcome of
    [r < XRD_ADAPTOR_OPEN_PROBE_PERCENT] for the random draw [r].  Returns
    [findNewSource]. *)
Definition check_two_sources (now : timespec) (probe : bool)
    (m : RequestManager) : option (bool * RequestManager) :=
  let '(f1, m1) := compareSources now 0 1 m in
  let '(f2, m2) := compareSources now 1 0 m1 in
  let findNewSource := f1 || f2 in
  let eligible :=
    eligibleInactiveSources now ((XRD_ADAPTOR_SHORT_OPEN_DELAY - 1) * 1000) m2 in
  let bestInactiveSource := min_element m2 eligible in
  let worstActiveSource := max_element m2 (m_activeSources m2) in
  let swapped :=
    match bestInactiveSource with
    | Some b =>
        if Nat.eqb (length (m_activeSources m2)) 1 then
          let m3 := set_active m2 (m_activeSources m2 ++ [b]) in
          Some (set_inactive m3 (erase_first b (m_inactiveSources m3)))
        else
          swap_loop (S (length (m_inactiveSources m2))) now
                    bestInactiveSource worstActiveSource m2
    | None => Some m2
    end in
  match swapped with
  | None => None
  | Some m3 =>
      if negb findNewSource
         && (timeDiffMS now (m_lastSourceCheck m)
             >? 1000 * XRD_ADAPTOR_LONG_OPEN_DELAY)
      then Some (if probe then true else findNewSource, m3)
      else Some (findNewSource, m3)
  end.

(** The end of [checkSourcesImpl]: the open handler is asked for a new
    source when [findNewSource] is set, and the next check is scheduled.
    [now] is taken by reference: the value returned is [now] as the call
    leaves it. *)
Definition open_and_schedule (now : timespec) (sync_ok findNewSource : bool)
    (m : RequestManager) : res timespec :=
  let opened :=
    if findNewSource then
      match OpenHandler_open sync_ok m with
      | Done _ m1 => Done tt (set_lastSourceCheck m1 now)
      | Raise e m1 => Raise e m1
      end
    else Done tt m in
  match opened with
  | Raise e m1 => Raise e m1
  | Done _ m1 =>
      let now' :=
        if Nat.eqb (length (m_activeSources m1)) 2
        then add_seconds now (XRD_ADAPTOR_LONG_OPEN_DELAY
                              - XRD_ADAPTOR_SHORT_OPEN_DELAY)
        else add_seconds now XRD_ADAPTOR_SHORT_OPEN_DELAY in
      Done now' (set_nextActiveSourceCheck m1 now')
  end.

(** [checkSourcesImpl(now, requestSize)].  [None]: the swap loop does not
    end. *)
Definition checkSourcesImpl (now : timespec) (probe sync_ok : bool)
    (m : RequestManager) : option (res timespec) :=
  let checked :=
    if (length (m_activeSources m) <=? 1)%nat then Some (true, m)
    else check_two_sources now probe m in
  match checked with
  | None => None
  | Some (findNewSource, m1) =>
      Some (open_and_schedule now sync_ok findNewSource m1)
  end.

(** [checkSources(now, requestSize)]: the two time gates. *)
Definition checkSources (now : timespec) (probe sync_ok : bool)
    (m : RequestManager) : option (res timespec) :=
  if (timeDiffMS now (m_lastSourceCheck m) >? 1000)
     && (timeDiffMS now (m_nextActiveSourceCheck m) >? 0)
  then checkSourcesImpl now probe sync_ok m
  else Some (Done now m).

(** [pickSingleSource]; no source when there is no active one. *)
Definition pickSingleSource (m : RequestManager)
    : option ptr * RequestManager :=
  if Nat.eqb (length (m_activeSources m)) 2 then
    if m_nextInitialSourceToggle m
    then (m_activeSources m !! 0%nat, set_toggle m false)
    else (m_activeSources m !! 1%nat, set_toggle m true)
  else (m_activeSources m !! 0%nat, m).

(** [handle(c_ptr)] for a single request: the health check, then the
    request goes to the source picked.  The value is the source that the
    request was handed to. *)
Definition handle (now : timespec) (probe sync_ok : bool)
    (m : RequestManager) : option (res (option ptr)) :=
  match checkSources now probe sync_ok m with
  | None => None
  | Some (Raise e m1) => Some (Raise e m1)
  | Some (Done _ m1) =>
      let '(source, m2) := pickSingleSource m1 in
      Some (Done source m2)
  end.

(** ** Failure recovery *)

(** [m_activeSources.erase] of the failed source, looked for at positions 0
    and 1. *)
Definition erase_failed (source_ptr : ptr) (m : RequestManager)
    : RequestManager :=
  match m_activeSources m with
  | p0 :: rest =>
      if decide (p0 = source_ptr) then set_active m rest
      else
        match rest with
        | p1 :: rest' =>
            if decide (p1 = source_ptr) then set_active m (p0 :: rest')
            else m
        | [] => m
        end
  | [] => m
  end.

(** The failed source is recorded in [m_disabledSourceStrings] and
    [m_disabledSources]. *)
Definition disable_source (source_ptr : ptr) (m : RequestManager)
    : RequestManager :=
  set_disabled m ({[source_ptr]} ∪ m_disabledSources m)
    ({[ID (source_at m source_ptr)]} ∪ m_disabledSourceStrings m).

(** Where [requestFailure] stands when it gives up the manager's lock, or
    how it ended before that. *)
Inductive failure_step :=
  | Redispatched (new_source : ptr) (m : RequestManager)
  | Thrown (e : edm_error) (m : RequestManager)
  | AwaitOpen (future : option nat) (m : RequestManager).

(** [requestFailure(c_ptr, c_status)] up to [sentry.unlock()].
    [source_ptr] is [c_ptr->getCurrentSource()], [code] is [c_status.code],
    [now] the clock when it is read. *)
Definition requestFailure_begin (now : timespec) (sync_ok : bool)
    (source_ptr : ptr) (code : Z) (m : RequestManager) : failure_step :=
  if code =? errInvalidResponse then Thrown FileReadError m
  else
    let m1 := erase_failed source_ptr (disable_source source_ptr m) in
    match m_activeSources m1 with
    | [] =>
        match OpenHandler_open sync_ok m1 with
        | Raise e m2 => Thrown e m2
        | Done future m2 => AwaitOpen future (set_lastSourceCheck m2 now)
        end
    | new_source :: _ => Redispatched new_source m1
    end.

(** What the wait on the future of the open yields. *)
Inductive wait_result :=
  | WaitTimeout
  | WaitException
  | WaitValue (new_source : ptr).

(** [requestFailure] from the wait on; the manager is the one found when the
    lock is taken again.  The value is the source the request is handed
    to. *)
Definition requestFailure_resume (w : wait_result) (m : RequestManager)
    : res ptr :=
  match w with
  | WaitTimeout => Raise FileOpenError m
  | WaitException => Raise FileOpenError m
  | WaitValue new_source =>
      if decide (ID (source_at m new_source) ∈ m_disabledSourceStrings m)
      then Raise FileOpenError m
      else Done new_source
             (set_active m (m_activeSources m ++ [new_source]))
  end.

(** The answer of the transport to the open requested during recovery, and
    the order of the two threads that follow it.  The callback settles the
    promise under the handler's lock and then calls [handleOpen], which
    takes the manager's lock; the failing thread, woken by the promise,
    takes the manager's lock back ([sentry.lock()]) or leaves with the
    exception.  [callback_first] tells whether the callback's [handleOpen]
    gets the manager's lock before the failing thread does. *)
Inductive open_reply :=
  | ReplyNone
  | ReplyError (callback_first : bool)
  | ReplyOK (source : ptr) (obj : Source) (callback_first : bool).

(** [requestFailure] as a whole.  During the wait the manager is unlocked;
    the only other thread taken into account is the callback of the open.
    When the failing thread is first, the callback's [handleOpen] is a step
    of its own, taken after the call. *)
Definition requestFailure (now : timespec) (sync_ok : bool)
    (reply : open_reply) (source_ptr : ptr) (code : Z) (m : RequestManager)
    : res ptr :=
  match requestFailure_begin now sync_ok source_ptr code m with
  | Redispatched new_source m1 => Done new_source m1
  | Thrown e m1 => Raise e m1
  | AwaitOpen _ m1 =>
      match reply with
      | ReplyNone => requestFailure_resume WaitTimeout m1
      | ReplyError callback_first =>
          let m2 := settle_open false 0%nat null_source m1 in
          requestFailure_resume WaitException
            (if callback_first then handleOpen false 0%nat m2 else m2)
      | ReplyOK source obj callback_first =>
          let m2 := settle_open true source obj m1 in
          requestFailure_resume (WaitValue source)
            (if callback_first then handleOpen true source m2 else m2)
      end
  end.

(** ** Construction *)

(** The answer of the transport to a synchronous [File::Open] and the
    properties of the file afterwards. *)
Record OpenReply := mkOpenReply {
  IsOK : bool;
  DataServer : string;
  LastURL : string
}.

Inductive attempt_result :=
  | Opened (r : OpenReply) (m : RequestManager)
  | Failed (m : RequestManager)
  | Retry (m : RequestManager).

(** The URL of an attempt of the constructor. *)
Definition new_filename (m : RequestManager) : string :=
  let opaque := prepareOpaqueString m in
  m_name m +:+ (if Nat.eqb (String.length opaque) 0 then EmptyString
                else separator (m_name m) +:+ opaque).

(** One trip through the constructor's loop.  [transport idx url] is the
    answer to the open of attempt [idx].  [Failed]: the exception is thrown
    from inside the loop. *)
Definition open_attempt (transport : nat -> string -> OpenReply) (idx : nat)
    (m : RequestManager) : attempt_result :=
  let r := transport idx (new_filename m) in
  if IsOK r then Opened r m
  else if decide (DataServer r ∈ m_disabledSourceStrings m) then Failed m
  else
    let m1 :=
      if Nat.eqb (String.length (DataServer r)) 0 then m
      else set_disabled m (m_disabledSources m)
             ({[DataServer r]} ∪ m_disabledSourceStrings m) in
    if String.eqb (LastURL r) (new_filename m) then Failed m1 else Retry m1.

(** How the constructor's loop ends: a file is open, an exception leaves
    the loop, or the loop runs out of trips with [validFile] still false. *)
Inductive loop_end :=
  | LoopOpened (r : OpenReply) (m : RequestManager)
  | LoopThrew (m : RequestManager)
  | LoopExhausted (m : RequestManager).

(** [for (int idx=0; idx<retries; idx++)], with [n] trips left.  Returns the
    number of opens issued so far and how the loop ended. *)
Fixpoint open_loop (transport : nat -> string -> OpenReply) (n idx : nat)
    (m : RequestManager) : nat * loop_end :=
  match n with
  | O => (idx, LoopExhausted m)
  | S n' =>
      match open_attempt transport idx m with
      | Opened r m' => (S idx, LoopOpened r m')
      | Failed m' => (S idx, LoopThrew m')
      | Retry m' => open_loop transport n' (S idx) m'
      end
  end.

Definition retries : nat := 5.

Definition new_handler : OpenHandler :=
  mkOpenHandler None 0 None false 1 [] ∅.

(** The members as the initializer list and the default constructors leave
    them.  [timeout] is the value [m_timeout] ends up with
    ([XRD_DEFAULT_TIMEOUT], or [StreamErrorWindow] from the environment). *)
Definition initial_manager (timeout : Z) (filename : string)
    (flags perms : Z) : RequestManager :=
  mkManager [] [] ∅ ∅ (mkTimespec 0 0) (mkTimespec 0 0) false
    timeout filename flags perms new_handler ∅.

(** The constructor.  [ts] is the clock after the open, [source] and [obj]
    the [Source] built around the opened file.  Returns the number of opens
    issued and the manager, or the [FileOpenError] thrown. *)
Definition RequestManager_new (transport : nat -> string -> OpenReply)
    (timeout : Z) (ts : timespec) (source : ptr) (obj : OpenReply -> Source)
    (filename : string) (flags perms : Z) : nat * res unit :=
  match open_loop transport retries 0
          (initial_manager timeout filename flags perms) with
  | (opens, LoopOpened r m) =>
      let m1 := set_sources m (<[source := obj r]> (sources m)) in
      let m2 := set_active m1 (m_activeSources m1 ++ [source]) in
      let m3 := set_lastSourceCheck m2 ts in
      (opens, Done tt (set_nextActiveSourceCheck m3
                         (add_seconds ts XRD_ADAPTOR_SHORT_OPEN_DELAY)))
  | (opens, LoopThrew m) => (opens, Raise FileOpenError m)
  | (opens, LoopExhausted m) => (opens, Raise FileOpenError m)
  end.

(** The manager a call leaves behind. *)
Definition state_of {A : Type} (r : res A) : RequestManager :=
  match r with
  | Done _ m => m
  | Raise _ m => m
  end.

(** ** Properties of the tables *)

(** A source object is in at most one of the three collections. *)
Definition in_active (m : RequestManager) (p : ptr) : Prop :=
  p ∈ m_activeSources m.
Definition in_inactive (m : RequestManager) (p : ptr) : Prop :=
  p ∈ m_inactiveSources m.
Definition in_disabled (m : RequestManager) (p : ptr) : Prop :=
  p ∈ m_disabledSources m.

Definition collections_disjoint (m : RequestManager) : Prop :=
  forall p,
    ~ (in_active m p /\ in_inactive m p)
    /\ ~ (in_active m p /\ in_disabled m p)
    /\ ~ (in_inactive m p /\ in_disabled m p).

(** No active source carries a disabled id. *)
Definition no_disabled_active (m : RequestManager) : Prop :=
  forall p, p ∈ m_activeSources m ->
            ID (source_at m p) ∉ m_disabledSourceStrings m.

(** ** Scenarios *)

Definition host_a : string := "a.example.org:1094".
Definition host_b : string := "b.example.org:1094".
Definition never : timespec := mkTimespec 0 0.

(** A manager with the given tables; the last check was at second 100, the
    next one is due at second 105, no open is in flight. *)
Definition manager_with (active inactive : list ptr) (disabled : gset ptr)
    (ids : gset string) (objs : gmap ptr Source) : RequestManager :=
  mkManager active inactive disabled ids (mkTimespec 100 0) (mkTimespec 105 0)
    false 60 "root://redirector.example.org//store/file.root" 0 0
    new_handler objs.

Definition at_1000 : timespec := mkTimespec 1000 0.

(** Scenario S3 of the specification: [A] (quality 50) is active, [B]
    (quality 10) is inactive and was downgraded ten seconds ago. *)
Definition s3_manager : RequestManager :=
  manager_with [1%nat] [2%nat] ∅ ∅
    (<[1%nat := mkSource host_a 50 never]>
       (<[2%nat := mkSource host_b 10 (mkTimespec 990 0)]> ∅)).

(** Two active sources of good quality and nothing else. *)
Definition duplex_manager : RequestManager :=
  manager_with [1%nat; 2%nat] [] ∅ ∅
    (<[1%nat := mkSource host_a 50 never]>
       (<[2%nat := mkSource host_b 60 never]> ∅)).

(** [B] is the only active source; [A] failed earlier and its id is
    disabled. *)
Definition after_failure_manager : RequestManager :=
  manager_with [1%nat] [] {[9%nat]} {[host_a]}
    (<[1%nat := mkSource host_b 50 never]>
       (<[9%nat := mkSource host_a 70 never]> ∅)).

(** [A] is active; [B] was demoted while one of its reads was still in
    flight. *)
Definition demoted_manager : RequestManager :=
  manager_with [1%nat] [2%nat] ∅ ∅
    (<[1%nat := mkSource host_a 50 never]>
       (<[2%nat := mkSource host_b 6000 (mkTimespec 999 0)]> ∅)).

(** A redirector that fails every open without naming a data server. *)
Definition silent_redirector (idx : nat) (url : string) : OpenReply :=
  mkOpenReply false EmptyString "root://elsewhere.example.org//store/file.root".

(** The manager as the constructor's loop finds it. *)
Definition fresh_manager : RequestManager :=
  initial_manager 60 "root://redirector.example.org//store/file.root" 0 0.

(** [A] (quality 6000) and [B] are active, [C] is inactive and was
    downgraded ten seconds ago. *)
Definition poor_duplex_manager : RequestManager :=
  manager_with [1%nat; 2%nat] [3%nat] ∅ ∅
    (<[1%nat := mkSource host_a 6000 never]>
       (<[2%nat := mkSource host_b 50 never]>
          (<[3%nat := mkSource "c.example.org:1094" 10 (mkTimespec 990 0)]> ∅))).

(** A redirector that fails every open, naming a different data server each
    time. *)
Definition failing_redirector (idx : nat) (url : string) : OpenReply :=
  mkOpenReply false
    (match idx with
     | 0%nat => "s0.example.org:1094"
     | 1%nat => "s1.example.org:1094"
     | 2%nat => "s2.example.org:1094"
     | 3%nat => "s3.example.org:1094"
     | _ => "s4.example.org:1094"
     end)
    "root://elsewhere.example.org//store/file.root".

(** The [Source] built around an opened file. *)
Definition source_of_reply (r : OpenReply) : Source :=
  mkSource (DataServer r) 0 never.

(** A status code of a failed read other than [errInvalidResponse]. *)
Definition errOperationExpired : Z := 206.

(** [after_failure_manager] once the health check has asked for a new
    source: an open is in flight. *)
Definition reopening_manager : RequestManager :=
  state_of (OpenHandler_open true after_failure_manager).

(** ** The measure of the swap loop *)

(** The shared pointers of the active and inactive sources point to
    objects. *)
Definition pointers_valid (m : RequestManager) : Prop :=
  forall p, p ∈ m_activeSources m ++ m_inactiveSources m ->
            is_Some (sources m !! p).

(** The number of inactive sources that the swap loop may still promote
    after its first trip. *)
Definition promotable (now : timespec) (m : RequestManager) : nat :=
  length (eligibleInactiveSources now
            ((XRD_ADAPTOR_LONG_OPEN_DELAY - 1) * 1000) m).

(** ** The invariant of the tables *)

(** No source is listed twice, at most two sources are active, and the
    three collections share no source. *)
Record tables_ok (m : RequestManager) : Prop := {
  active_nodup : NoDup (m_activeSources m);
  inactive_nodup : NoDup (m_inactiveSources m);
  active_two : (length (m_activeSources m) <= 2)%nat;
  active_inactive : forall p, p ∈ m_activeSources m -> p ∉ m_inactiveSources m;
  active_disabled : forall p, p ∈ m_activeSources m -> p ∉ m_disabledSources m;
  inactive_disabled :
    forall p, p ∈ m_inactiveSources m -> p ∉ m_disabledSources m
}.

(** A source that is in none of the collections. *)
Definition fresh_source (m : RequestManager) (p : ptr) : Prop :=
  (p ∉ m_activeSources m) /\ (p ∉ m_inactiveSources m)
  /\ (p ∉ m_disabledSources m).

(** [A] is the only active source, and a read from it fails. *)
Definition simplex_manager : RequestManager :=
  manager_with [1%nat] [] ∅ ∅ (<[1%nat := mkSource host_a 50 never]> ∅).

(** The replica found by the recovery open; its quality turns out poor. *)
Definition replica_c : Source :=
  mkSource "c.example.org:1094" 6000 never.

End Manager.

Module SplitMore.
Import Split.

(** ** Bytes covered by fragments *)

(** Whether the fragment [b] asks for the byte at file position [x]. *)
Definition covers (b : IOPosBuffer) (x : Z) : nat :=
  if bool_decide (offset b <= x < ends b) then 1%nat else 0%nat.

(** How many fragments of [l] ask for the byte at position [x]. *)
Definition cover (l : list IOPosBuffer) (x : Z) : nat :=
  foldr (fun b acc => (covers b x + acc)%nat) 0%nat l.

(** An output fragment is not empty and holds at most [XRD_CL_MAX_CHUNK]
    bytes. *)
Definition sized (b : IOPosBuffer) : Prop :=
  0 < size b <= XRD_CL_MAX_CHUNK.

(** What a consume loop does with its budget: the bytes added to [output]
    are the bytes taken off [chunksize]. *)
Record spend_ok (c c' : cursor) : Prop := {
  sp_ok : cursor_ok c';
  sp_sized : Forall sized (output c) -> Forall sized (output c');
  sp_budget : total_size (output c') + chunksize c'
              = total_size (output c) + chunksize c
}.

(** The invariant of a consume loop on a request within the offset bound:
    the live fragments and the output together ask for the same bytes as
    [reference]. *)
Record cursor_cover (reference : Z -> nat) (c : cursor) : Prop := {
  cc_ok : cursor_ok c;
  cc_live : Forall in_range (drop (front c) (input c));
  cc_out : Forall piece_ok (output c);
  cc_cover : forall x,
    (cover (drop (front c) (input c)) x + cover (output c) x)%nat
    = reference x
}.

(** The same for the loop of [splitClientRequest]. *)
Record split_cover (reference : Z -> nat) (s : split_state) : Prop := {
  sc_ok : split_ok s;
  sc_live : Forall in_range (drop (s_front s) (tmp_iolist s));
  sc_req1 : Forall piece_ok (req1 s);
  sc_req2 : Forall piece_ok (req2 s);
  sc_cover : forall x,
    (cover (drop (s_front s) (tmp_iolist s)) x
     + cover (req1 s) x + cover (req2 s) x)%nat
    = reference x
}.

End SplitMore.

Module Dispatch.
Import Split SplitMore Manager.

(** ** The budgets of [splitClientRequest] *)

(** [float] is the IEEE 754 binary32 format (24 bits of precision, exponents
    below 128), and every operation rounds to nearest, ties to even: the
    arithmetic of the x86-64 build, where an expression of type [float] is
    evaluated in single precision. *)
Definition float : Type := SpecFloat.spec_float.

(** [static_cast<float>] of an integer. *)
Definition float_of_Z (z : Z) : float :=
  SpecFloat.binary_normalize 24 128 z 0 false.

Definition float_add : float -> float -> float := SpecFloat.SFadd 24 128.
Definition float_div : float -> float -> float := SpecFloat.SFdiv 24 128.
Definition float_mul : float -> float -> float := SpecFloat.SFmul 24 128.

(** The integer part of [m * 2^e]. *)
Definition truncate (m : positive) (e : Z) : Z :=
  if 0 <=? e then Z.pos m * 2 ^ e else Z.pos m / 2 ^ (- e).

(** The conversion of a [float] to [IOSize] in an assignment: the value is
    truncated toward zero.  [None]: the truncated value is not a value of
    [IOSize] (a NaN, an infinity, a value of [2^64] or more or of [-1] or
    less), and the behaviour is undefined. *)
Definition IOSize_of_float (f : float) : option Z :=
  match f with
  | SpecFloat.S754_zero _ => Some 0
  | SpecFloat.S754_finite s m e =>
      let t := truncate m e in
      if s then (if t =? 0 then Some 0 else None)
      else if t <? 2 ^ 64 then Some t else None
  | SpecFloat.S754_infinity _ => None
  | SpecFloat.S754_nan => None
  end.

(** [chunk1] and [chunk2] of [splitClientRequest] for sources of quality
    [quality1] and [quality2]:
    [chunk1 = static_cast<float>(XRD_CL_MAX_CHUNK)*(q2/(q1+q2))] and
    [chunk2 = static_cast<float>(XRD_CL_MAX_CHUNK)*(q1/(q1+q2))]. *)
Definition split_budgets (quality1 quality2 : Z) : option (Z * Z) :=
  let q1 := float_of_Z quality1 in
  let q2 := float_of_Z quality2 in
  let max_chunk := float_of_Z XRD_CL_MAX_CHUNK in
  match IOSize_of_float (float_mul max_chunk (float_div q2 (float_add q1 q2))),
        IOSize_of_float (float_mul max_chunk (float_div q1 (float_add q1 q2)))
  with
  | Some chunk1, Some chunk2 => Some (chunk1, chunk2)
  | _, _ => None
  end.

(** How [splitClientRequest] ends when it is called on a manager. *)
Inductive split_end :=
  | SplitReturned (req1 req2 : list IOPosBuffer)
  | SplitAborted
  | SplitOutOfRange
  | SplitUndefined
  | SplitDiverged.

(** [RequestManager::splitClientRequest(iolist, req1, req2)] with fresh
    [req1] and [req2], as [handle] calls it.  An empty request returns
    before the qualities are read.  [SplitAborted]: an [assert] fails;
    [SplitOutOfRange]: [m_activeSources] has no second element;
    [SplitUndefined]: a budget is not a value of [IOSize];
    [SplitDiverged]: the loop does not end. *)
Definition splitClientRequest_on (m : RequestManager)
    (iolist : list IOPosBuffer) : split_end :=
  if Nat.eqb (length iolist) 0 then SplitReturned [] []
  else
    match m_activeSources m !! 0%nat, m_activeSources m !! 1%nat with
    | Some s1, Some s2 =>
        match split_budgets (getQuality m s1) (getQuality m s2) with
        | Some (chunk1, chunk2) =>
            match handle_split chunk1 chunk2 iolist with
            | Returned (req1, req2) => SplitReturned req1 req2
            | AssertionFailed => SplitAborted
            | Diverged => SplitDiverged
            end
        | None => SplitUndefined
        end
    | _, _ => SplitOutOfRange
    end.

(** ** [handle] for a scatter list *)

(** How [RequestManager::handle(iolist)] ends. *)
Inductive dispatch :=
  | Dispatched (sent : list (ptr * list IOPosBuffer)) (m : RequestManager)
  | DispatchThrew (e : edm_error) (m : RequestManager)
  | DispatchAborted
  | DispatchOutOfRange
  | DispatchUndefined.

(** [m_activeSources[i]->handle(c_ptr)] for a request built around [req]:
    the source and the fragments it is handed; nothing when [i] is not a
    position of [m_activeSources]. *)
Definition send_to (m : RequestManager) (i : nat) (req : list IOPosBuffer)
    : option (ptr * list IOPosBuffer) :=
  match m_activeSources m !! i with
  | Some p => Some (p, req)
  | None => None
  end.

(** The two conditional sends that end [handle(iolist)]. *)
Definition send_parts (m : RequestManager) (req1 req2 : list IOPosBuffer)
    : dispatch :=
  let first :=
    if negb (Nat.eqb (length req1) 0) then option_map (fun s => [s]) (send_to m 0 req1)
    else Some [] in
  let second :=
    if negb (Nat.eqb (length req2) 0) then option_map (fun s => [s]) (send_to m 1 req2)
    else Some [] in
  match first, second with
  | Some s1, Some s2 => Dispatched (s1 ++ s2) m
  | _, _ => DispatchOutOfRange
  end.

(** [handle(iolist)]; [iolist] is the vector that the shared pointer of the
    caller points to.  The split reads the qualities of the sources that are
    active when [handle] is entered; the health check runs after it.  The
    value lists the requests handed to sources, in the order of the calls;
    the future that the function returns (the sum of the results of the two
    parts) is not modelled.  [DispatchAborted]: an [assert] fails;
    [DispatchOutOfRange]: [m_activeSources] is indexed past its end;
    [DispatchUndefined]: a budget is not a value of [IOSize]; [None]: a loop
    does not end. *)
Definition handle_iolist (now : timespec) (probe sync_ok : bool)
    (iolist : list IOPosBuffer) (m : RequestManager)
    : option dispatch :=
  if Nat.eqb (length (m_activeSources m)) 0 then Some DispatchAborted
  else if Nat.eqb (length (m_activeSources m)) 1 then
    match checkSources now probe sync_ok m with
    | None => None
    | Some (Raise e m1) => Some (DispatchThrew e m1)
    | Some (Done _ m1) =>
        match send_to m1 0 iolist with
        | Some s => Some (Dispatched [s] m1)
        | None => Some DispatchOutOfRange
        end
    end
  else
    match splitClientRequest_on m iolist with
    | SplitDiverged => None
    | SplitAborted => Some DispatchAborted
    | SplitOutOfRange => Some DispatchOutOfRange
    | SplitUndefined => Some DispatchUndefined
    | SplitReturned req1 req2 =>
        match checkSources now probe sync_ok m with
        | None => None
        | Some (Raise e m1) => Some (DispatchThrew e m1)
        | Some (Done _ m1) =>
            if Nat.eqb (length (m_activeSources m1)) 1 then
              match send_to m1 0 iolist with
              | Some s => Some (Dispatched [s] m1)
              | None => Some DispatchOutOfRange
              end
            else Some (send_parts m1 req1 req2)
        end
    end.

(** The bytes of the requests handed to sources. *)
Definition sent_bytes (sent : list (ptr * list IOPosBuffer)) : Z :=
  foldr (fun s acc => total_size (snd s) + acc) 0 sent.

(** How many of the fragments handed to sources ask for the byte at
    position [x]. *)
Definition sent_cover (sent : list (ptr * list IOPosBuffer)) (x : Z) : nat :=
  foldr (fun s acc => (cover (snd s) x + acc)%nat) 0%nat sent.

(** The qualities that the split reads, when there are two active sources:
    values that an [unsigned] holds, not both zero. *)
Definition qualities_ok (m : RequestManager) : Prop :=
  forall s1 s2,
    m_activeSources m !! 0%nat = Some s1 ->
    m_activeSources m !! 1%nat = Some s2 ->
    0 <= getQuality m s1 < 2 ^ 32
    /\ 0 <= getQuality m s2 < 2 ^ 32
    /\ 0 < getQuality m s1 + getQuality m s2.

(** Two active sources whose qualities are both zero. *)
Definition unrated_duplex_manager : RequestManager :=
  manager_with [1%nat; 2%nat] [] ∅ ∅
    (<[1%nat := mkSource host_a 0 never]>
       (<[2%nat := mkSource host_b 0 never]> ∅)).

(** ** Values of [float]s *)

(** The exponent of the unit in which [scaled] measures. *)
Definition unit_exp : Z := 512.

(** [m * 2^e] in units of [2^-unit_exp]. *)
Definition scaled (m e : Z) : Z := m * 2 ^ (e + unit_exp).

(** The value of a positive finite [float], in the same unit. *)
Definition float_value (f : float) : Z :=
  match f with
  | SpecFloat.S754_finite false m e => scaled (Z.pos m) e
  | _ => 0
  end.

(** A positive normal number with an exponent between [lo] and [hi]. *)
Definition normal (lo hi : Z) (f : float) : Prop :=
  exists m e,
    f = SpecFloat.S754_finite false m e
    /\ 2 ^ 23 <= Z.pos m < 2 ^ 24 /\ lo <= e <= hi.

End Dispatch.

Module ManagerMore.
Import Manager.

(** The ids of the active and the inactive sources, in order. *)
Definition listed_ids (m : RequestManager) : list string :=
  (ID ∘ source_at m) <$> (m_activeSources m ++ m_inactiveSources m).

(** [m'] lists the sources of [m]: the active and inactive sources are the
    same objects, maybe in other places, the disabled sets are the same,
    and no object changed its id or its quality. *)
Record conserved (m m' : RequestManager) : Prop := {
  cv_listed : m_activeSources m' ++ m_inactiveSources m'
              ≡ₚ m_activeSources m ++ m_inactiveSources m;
  cv_disabled : m_disabledSources m' = m_disabledSources m;
  cv_strings : m_disabledSourceStrings m' = m_disabledSourceStrings m;
  cv_id : forall p, ID (source_at m' p) = ID (source_at m p);
  cv_quality : forall p, getQuality m' p = getQuality m p
}.

(** The ids that [prepareOpaqueString] visits, in the order of its three
    loops. *)
Definition known_ids (m : RequestManager) : list string :=
  (ID ∘ source_at m <$> m_activeSources m)
  ++ (ID ∘ source_at m <$> m_inactiveSources m)
  ++ elements (m_disabledSourceStrings m).

(** The manager as a step of [requestFailure] leaves it. *)
Definition step_state (st : failure_step) : RequestManager :=
  match st with
  | Redispatched _ m => m
  | Thrown _ m => m
  | AwaitOpen _ m => m
  end.

(** The manager as the constructor's loop leaves it. *)
Definition end_state (e : loop_end) : RequestManager :=
  match e with
  | LoopOpened _ m => m
  | LoopThrew m => m
  | LoopExhausted m => m
  end.

End ManagerMore.

Lemma wrapU_small x : 0 <= x < 2 ^ 64 -> wrapU x = x.
Proof. intros H. unfold wrapU. by apply Z.mod_small. Qed.

Lemma wrapS_small x : - 2 ^ 63 <= x < 2 ^ 63 -> wrapS x = x.
Proof. intros H. unfold wrapS. rewrite Z.mod_small; lia. Qed.

Lemma wrapU_range x : 0 <= wrapU x < 2 ^ 64.
Proof. unfold wrapU. apply Z.mod_pos_bound. lia. Qed.

Section vector.
Context {A : Type}.

Lemma back_snoc (v : list A) x : back (v ++ [x]) = Some x.
Proof. apply last_snoc. Qed.

Lemma back_inv (v : list A) x : back v = Some x -> exists v', v = v' ++ [x].
Proof. unfold back. by rewrite last_Some. Qed.

Lemma set_back_snoc (v : list A) x y : set_back (v ++ [x]) y = v ++ [y].
Proof.
  unfold set_back. rewrite length_app. simpl.
  replace (pred (length v + 1)) with (length v + 0)%nat by lia.
  by rewrite insert_app_r.
Qed.

Lemma pop_back_snoc (v : list A) x : pop_back (v ++ [x]) = v.
Proof.
  unfold pop_back. rewrite length_app. simpl.
  replace (pred (length v + 1)) with (length v) by lia.
  by rewrite take_app_length.
Qed.

End vector.

Module SplitFacts.
Import Split.

Lemma total_size_app l1 l2 :
  total_size (l1 ++ l2) = total_size l1 + total_size l2.
Proof. induction l1 as [|b l1 IH]; simpl; [done | rewrite IH; lia]. Qed.

Lemma total_size_nonneg l : sizes_ok l -> 0 <= total_size l.
Proof. induction 1; simpl; lia. Qed.

Lemma sizes_ok_app l1 l2 : sizes_ok (l1 ++ l2) <-> sizes_ok l1 /\ sizes_ok l2.
Proof. apply Forall_app. Qed.

Lemma sizes_ok_singleton b : sizes_ok [b] <-> 0 <= size b < 2 ^ 64.
Proof. unfold sizes_ok. by rewrite Forall_singleton. Qed.

Lemma sizes_ok_drop n l : sizes_ok l -> sizes_ok (drop n l).
Proof. apply Forall_drop. Qed.

Lemma MAX_CHUNK_val : XRD_CL_MAX_CHUNK = 524288.
Proof. reflexivity. Qed.

(** Unfolds the bounds used by [lia]. *)
Ltac bounds :=
  pose proof MAX_CHUNK_val;
  change (2 ^ 64) with 18446744073709551616 in *;
  change (2 ^ 63) with 9223372036854775808 in *.

Lemma take_partial_ok io output chunk consumed output' :
  sizes_ok output ->
  0 < chunk <= XRD_CL_MAX_CHUNK ->
  take_partial io (back output) output chunk = (consumed, output') ->
  0 < consumed <= chunk
  /\ total_size output' = total_size output + consumed
  /\ sizes_ok output'.
Proof.
  intros Hout Hc. unfold take_partial. bounds.
  assert (Hfresh : forall x y,
    (chunk, output ++ [mkIOPosBuffer x y chunk]) = (consumed, output') ->
    0 < consumed <= chunk
    /\ total_size output' = total_size output + consumed
    /\ sizes_ok output').
  { intros x y [= <- <-]. rewrite total_size_app, sizes_ok_app. simpl.
    repeat split; try lia; auto.
    apply sizes_ok_singleton. simpl. lia. }
  destruct (back output) as [o|] eqn:Hb; [|by apply Hfresh].
  destruct (_ && _) eqn:Hg; [|by apply Hfresh].
  apply andb_prop in Hg as [Hg _]. apply andb_prop in Hg as [_ Hlt].
  apply Z.ltb_lt in Hlt.
  apply back_inv in Hb as [v ->].
  apply sizes_ok_app in Hout as [Hv Ho].
  apply sizes_ok_singleton in Ho.
  rewrite !set_back_snoc, total_size_app.
  pose proof (wrapU_small (size o + chunk)) as W1.
  pose proof (wrapU_small (XRD_CL_MAX_CHUNK - size o)) as W2.
  bounds.
  rewrite W1 by lia.
  destruct (_ >? _) eqn:Hgt; intros [= <- <-].
  - apply Z.gtb_lt in Hgt.
    rewrite W2 by lia.
    rewrite total_size_app, sizes_ok_app. simpl.
    repeat split; try lia; auto.
    apply sizes_ok_singleton. simpl. lia.
  - rewrite Z.gtb_ltb in Hgt. apply Z.ltb_ge in Hgt.
    rewrite total_size_app, sizes_ok_app. simpl.
    repeat split; try lia; auto.
    apply sizes_ok_singleton. simpl. lia.
Qed.

Lemma drop_front_insert (l : list IOPosBuffer) i x y :
  l !! i = Some x ->
  drop i l = x :: drop (S i) l /\ drop i (<[i := y]> l) = y :: drop (S i) l.
Proof.
  intros Hi. split.
  - by apply drop_S.
  - rewrite (drop_S _ y i).
    + by rewrite drop_insert_lt by lia.
    + apply list_lookup_insert_eq. by eapply lookup_lt_Some.
Qed.

Lemma consumeChunkFront_iter_ok c o c' :
  cursor_ok c ->
  consumeChunkFront_iter c = Some (o, c') ->
  iter_ok c c'.
Proof.
  intros [Hin Hout Hc Hf].
  unfold consumeChunkFront_iter, consume_cond.
  destruct (_ && _) eqn:Hcond; [|done].
  apply andb_prop in Hcond as [Hpos Hlt].
  apply Z.ltb_lt in Hpos. apply Nat.ltb_lt in Hlt.
  destruct (input c !! front c) as [io|] eqn:Hio; [|done].
  intros [= _ <-].
  pose proof (Forall_lookup_1 _ _ _ _ Hin Hio) as Hsz. simpl in Hsz.
  destruct (drop_front_insert _ _ _ (advance io 0) Hio) as [Hd _].
  assert (Hrest : 0 <= total_size (drop (S (front c)) (input c))).
  { apply total_size_nonneg. by apply sizes_ok_drop. }
  unfold consumeChunkFront_body.
  destruct (size io >? chunksize c) eqn:Hgt.
  - apply Z.gtb_lt in Hgt.
    destruct (take_partial _ _ _ _) as [consumed output'] eqn:Htp.
    apply take_partial_ok in Htp as (Hcons & Hsum & Hout'); [|done|lia].
    destruct (drop_front_insert _ _ _ (advance io consumed) Hio) as [_ Hd'].
    assert (Hsz' : wrapU (size io - consumed) = size io - consumed).
    { apply wrapU_small. lia. }
    assert (Hck : wrapU (chunksize c - consumed) = chunksize c - consumed).
    { apply wrapU_small. bounds. lia. }
    split; unfold live, consume_fuel; simpl; rewrite ?Hck.
    + split; simpl; auto.
      * apply Forall_insert; [done|]. simpl. rewrite Hsz'. lia.
      * lia.
      * rewrite length_insert. lia.
    + rewrite Hd, Hd'. simpl. rewrite Hsz'. lia.
    + rewrite length_insert. lia.
    + rewrite length_insert, Hd, Hd'. simpl. rewrite Hsz'. lia.
    + lia.
    + rewrite length_insert. lia.
  - rewrite Z.gtb_ltb in Hgt. apply Z.ltb_ge in Hgt.
    destruct (size io =? 0) eqn:Hz.
    + apply Z.eqb_eq in Hz.
      split; unfold live, consume_fuel; simpl.
      * split; simpl; auto.
      * rewrite Hd. simpl. lia.
      * lia.
      * rewrite Hd. simpl. lia.
      * lia.
      * lia.
    + apply Z.eqb_neq in Hz.
      assert (Hck : wrapU (chunksize c - size io) = chunksize c - size io).
      { apply wrapU_small. bounds. lia. }
      split; unfold live, consume_fuel; simpl; rewrite ?Hck.
      * split; simpl; auto.
        -- apply sizes_ok_app. split; [done|]. by apply sizes_ok_singleton.
        -- lia.
      * rewrite Hd, total_size_app. simpl. lia.
      * lia.
      * rewrite Hd. simpl. lia.
      * lia.
      * lia.
Qed.

Lemma consumeChunkBack_iter_ok c o c' :
  cursor_ok c ->
  consumeChunkBack_iter c = Some (o, c') ->
  iter_ok c c'.
Proof.
  intros [Hin Hout Hc Hf].
  unfold consumeChunkBack_iter, consume_cond.
  destruct (_ && _) eqn:Hcond; [|done].
  apply andb_prop in Hcond as [Hpos Hlt].
  apply Z.ltb_lt in Hpos. apply Nat.ltb_lt in Hlt.
  destruct (back (input c)) as [io|] eqn:Hio; [|done].
  intros [= _ <-].
  apply back_inv in Hio as [l Hl].
  rewrite Hl in Hin, Hlt. rewrite length_app in Hlt. simpl in Hlt.
  apply sizes_ok_app in Hin as [Hlok Hsz]. apply sizes_ok_singleton in Hsz.
  assert (Hd : forall x, drop (front c) (l ++ [x]) = drop (front c) l ++ [x]).
  { intros x. apply drop_app_le. lia. }
  assert (Hrest : 0 <= total_size (drop (front c) l)).
  { apply total_size_nonneg. by apply sizes_ok_drop. }
  unfold consumeChunkBack_body.
  destruct (size io >? chunksize c) eqn:Hgt.
  - apply Z.gtb_lt in Hgt.
    destruct (take_partial _ _ _ _) as [consumed output'] eqn:Htp.
    apply take_partial_ok in Htp as (Hcons & Hsum & Hout'); [|done|lia].
    assert (Hsz' : wrapU (size io - consumed) = size io - consumed).
    { apply wrapU_small. lia. }
    assert (Hck : wrapU (chunksize c - consumed) = chunksize c - consumed).
    { apply wrapU_small. bounds. lia. }
    split; unfold live, consume_fuel; simpl; rewrite ?Hck, ?Hl, ?set_back_snoc.
    + split; simpl; auto.
      * apply sizes_ok_app. split; [done|]. apply sizes_ok_singleton.
        simpl. rewrite Hsz'. lia.
      * lia.
      * rewrite length_app. simpl. lia.
    + rewrite !Hd, !total_size_app. simpl. rewrite Hsz'. lia.
    + rewrite !length_app. simpl. lia.
    + rewrite !Hd, !total_size_app, !length_app. simpl. rewrite Hsz'. lia.
    + lia.
    + rewrite !length_app. simpl. lia.
  - rewrite Z.gtb_ltb in Hgt. apply Z.ltb_ge in Hgt.
    destruct (size io =? 0) eqn:Hz.
    + apply Z.eqb_eq in Hz.
      split; unfold live, consume_fuel; simpl; rewrite ?Hl, ?pop_back_snoc.
      * split; simpl; auto. lia.
      * rewrite Hd, total_size_app. simpl. lia.
      * rewrite length_app. simpl. lia.
      * rewrite Hd, total_size_app, length_app. simpl. lia.
      * lia.
      * rewrite length_app. simpl. lia.
    + apply Z.eqb_neq in Hz.
      assert (Hck : wrapU (chunksize c - size io) = chunksize c - size io).
      { apply wrapU_small. bounds. lia. }
      split; unfold live, consume_fuel; simpl;
        rewrite ?Hck, ?Hl, ?pop_back_snoc.
      * split; simpl; auto.
        -- apply sizes_ok_app. split; [done|]. by apply sizes_ok_singleton.
        -- lia.
        -- lia.
      * rewrite Hd, !total_size_app. simpl. lia.
      * rewrite length_app. simpl. lia.
      * rewrite Hd, total_size_app, length_app. simpl. lia.
      * lia.
      * rewrite length_app. simpl. lia.
Qed.

Section consume_loop.
Variable iter : cursor -> option (option IOPosBuffer * cursor).
Hypothesis iter_sound : forall c o c',
  cursor_ok c -> iter c = Some (o, c') -> iter_ok c c'.
Hypothesis iter_progress : forall c,
  consume_cond c = true -> is_Some (iter c).
Hypothesis iter_stops : forall c,
  consume_cond c = false -> iter c = None.

Lemma consume_loop_ok fuel c :
  cursor_ok c ->
  let c' := consume_loop iter fuel c in
  cursor_ok c'
  /\ live c' + total_size (output c') = live c + total_size (output c)
  /\ (remaining (front c') (input c') <= remaining (front c) (input c))%nat
  /\ (front c <= front c')%nat
  /\ (length (input c') <= length (input c))%nat.
Proof.
  revert c. induction fuel as [|n IH]; intros c Hc; simpl; [by auto 6|].
  destruct (iter c) as [[o c1]|] eqn:Hi; [|by auto 6].
  destruct (iter_sound _ _ _ Hc Hi) as [H1 H2 H3 H4 H5 H6].
  destruct (IH c1 H1) as (K1 & K2 & K3 & K4 & K5).
  unfold remaining, live in *.
  split; [done|]. split; [lia|]. split; [lia|]. split; lia.
Qed.

Lemma consume_loop_progress fuel c :
  cursor_ok c -> consume_cond c = true -> (0 < fuel)%nat ->
  let c' := consume_loop iter fuel c in
  (remaining (front c') (input c') < remaining (front c) (input c))%nat.
Proof.
  intros Hc Hcond Hf. destruct fuel as [|n]; [lia|]. simpl.
  destruct (iter_progress c Hcond) as [[o c1] Hi]. rewrite Hi.
  destruct (iter_sound _ _ _ Hc Hi) as [H1 H2 H3 H4 H5 H6].
  destruct (consume_loop_ok n c1 H1) as (_ & _ & K3 & _).
  unfold remaining, live in *. lia.
Qed.

(** With [consume_fuel] the loop ends because its condition fails. *)
Lemma consume_loop_done fuel c :
  cursor_ok c -> (consume_fuel c <= fuel)%nat ->
  consume_cond (consume_loop iter fuel c) = false.
Proof.
  revert c. induction fuel as [|n IH]; intros c Hc Hf; simpl.
  - destruct (consume_cond c) eqn:Hcond; [|done].
    unfold consume_cond in Hcond. apply andb_prop in Hcond as [Hp Hl].
    apply Z.ltb_lt in Hp. apply Nat.ltb_lt in Hl.
    unfold consume_fuel in Hf. lia.
  - destruct (iter c) as [[o c1]|] eqn:Hi.
    + destruct (iter_sound _ _ _ Hc Hi) as [H1 H2 H3 H4 H5 H6].
      apply IH; [done | lia].
    + destruct (consume_cond c) eqn:Hcond; [|done].
      destruct (iter_progress c Hcond) as [x Hx]. congruence.
Qed.
End consume_loop.

Lemma consume_loop_stuck iter fuel c :
  iter c = None -> consume_loop iter fuel c = c.
Proof. intros H. destruct fuel; simpl; [done | by rewrite H]. Qed.

Lemma consumeChunkFront_progress c :
  consume_cond c = true -> is_Some (consumeChunkFront_iter c).
Proof.
  intros Hcond. unfold consumeChunkFront_iter. rewrite Hcond.
  apply andb_prop in Hcond as [_ Hl]. apply Nat.ltb_lt in Hl.
  destruct (lookup_lt_is_Some_2 _ _ Hl) as [io ->]. by eexists.
Qed.

Lemma consumeChunkBack_progress c :
  consume_cond c = true -> is_Some (consumeChunkBack_iter c).
Proof.
  intros Hcond. unfold consumeChunkBack_iter. rewrite Hcond.
  apply andb_prop in Hcond as [_ Hl]. apply Nat.ltb_lt in Hl.
  destruct (back (input c)) as [io|] eqn:Hb; [by eexists|].
  apply last_None in Hb. rewrite Hb in Hl. simpl in Hl. lia.
Qed.

Lemma consumeChunkFront_stops c :
  consume_cond c = false -> consumeChunkFront_iter c = None.
Proof. intros H. unfold consumeChunkFront_iter. by rewrite H. Qed.

Lemma consumeChunkBack_stops c :
  consume_cond c = false -> consumeChunkBack_iter c = None.
Proof. intros H. unfold consumeChunkBack_iter. by rewrite H. Qed.

(** Both consume functions end because their loop condition fails, not
    because the fuel is used up. *)
Lemma consumeChunkFront_terminates c :
  cursor_ok c -> consume_cond (consumeChunkFront c) = false.
Proof.
  intros Hc. unfold consumeChunkFront.
  apply consume_loop_done;
    [apply consumeChunkFront_iter_ok | apply consumeChunkFront_progress
    | done | done].
Qed.

Lemma consumeChunkBack_terminates c :
  cursor_ok c -> consume_cond (consumeChunkBack c) = false.
Proof.
  intros Hc. unfold consumeChunkBack.
  apply consume_loop_done;
    [apply consumeChunkBack_iter_ok | apply consumeChunkBack_progress
    | done | done].
Qed.

(** [consumeChunkBack] takes [front] by value. *)
Lemma consumeChunkBack_front fuel c :
  front (consume_loop consumeChunkBack_iter fuel c) = front c.
Proof.
  revert c. induction fuel as [|n IH]; intros c; simpl; [done|].
  destruct (consumeChunkBack_iter c) as [[o c1]|] eqn:Hi; [|done].
  rewrite IH. unfold consumeChunkBack_iter in Hi.
  destruct (consume_cond c); [|done].
  destruct (back (input c)) as [io|]; [|done].
  injection Hi as _ <-. unfold consumeChunkBack_body.
  destruct (_ >? _); [destruct (take_partial _ _ _ _); done|].
  by destruct (_ =? _).
Qed.

(** ** The loop of [splitClientRequest] *)

Lemma split_cond_true s :
  split_ok s ->
  split_cond s = true <-> (s_front s < length (tmp_iolist s))%nat.
Proof.
  intros [_ _ _ Hf Hl]. unfold split_cond. rewrite Z.ltb_lt.
  rewrite wrapU_small by (bounds; lia). lia.
Qed.

Section split_loop.
Variables chunk1 chunk2 : Z.
Hypothesis chunk1_ok : 0 <= chunk1 <= XRD_CL_MAX_CHUNK.
Hypothesis chunk2_ok : 0 <= chunk2 <= XRD_CL_MAX_CHUNK.

Lemma split_round_ok s :
  split_ok s ->
  let s' := split_round chunk1 chunk2 s in
  split_ok s'
  /\ pending s' + handed_out s' = pending s + handed_out s
  /\ (remaining (s_front s') (tmp_iolist s')
      <= remaining (s_front s) (tmp_iolist s))%nat
  /\ (split_cond s = true -> 0 < chunk1 \/ 0 < chunk2 ->
      (remaining (s_front s') (tmp_iolist s')
       < remaining (s_front s) (tmp_iolist s))%nat).
Proof.
  intros [Ht H1 H2 Hf Hl]. unfold split_round.
  set (c0 := mkCursor (s_front s) (tmp_iolist s) (req1 s) chunk1).
  assert (Hc0 : cursor_ok c0) by (by split).
  set (c1 := consumeChunkFront c0).
  destruct (consume_loop_ok _ consumeChunkFront_iter_ok (consume_fuel c0)
              c0 Hc0) as (Hc1 & Hb1 & Hr1 & Hf1 & Hl1).
  fold (consumeChunkFront c0) in Hc1, Hb1, Hr1, Hf1, Hl1. fold c1 in Hc1, Hb1, Hr1, Hf1, Hl1.
  set (b0 := mkCursor (front c1) (input c1) (req2 s) chunk2).
  assert (Hb0 : cursor_ok b0).
  { destruct Hc1. by split. }
  set (c2 := consumeChunkBack b0).
  destruct (consume_loop_ok _ consumeChunkBack_iter_ok (consume_fuel b0)
              b0 Hb0) as (Hc2 & Hb2 & Hr2 & Hf2 & Hl2).
  fold (consumeChunkBack b0) in Hc2, Hb2, Hr2, Hf2, Hl2. fold c2 in Hc2, Hb2, Hr2, Hf2, Hl2.
  assert (Hfr : front c2 = front c1).
  { unfold c2, consumeChunkBack. by rewrite consumeChunkBack_front. }
  unfold pending, handed_out, live in *. simpl in *. rewrite Hfr in *.
  split; [|split; [|split]].
  - destruct Hc1, Hc2. split; simpl; auto; lia.
  - lia.
  - lia.
  - intros Hcond Hp.
    apply split_cond_true in Hcond; [|by split].
    destruct (decide (0 < chunk1)) as [Hp1|Hp1].
    + assert (Hk : consume_cond c0 = true).
      { unfold consume_cond. simpl. apply andb_true_intro. split.
        - by apply Z.ltb_lt.
        - by apply Nat.ltb_lt. }
      pose proof (consume_loop_progress _ consumeChunkFront_iter_ok
        consumeChunkFront_progress (consume_fuel c0) c0 Hc0 Hk) as Hpr.
      simpl in Hpr. fold (consumeChunkFront c0) in Hpr. fold c1 in Hpr.
      assert (0 < consume_fuel c0)%nat; [unfold consume_fuel; simpl; lia|].
      lia.
    + (* nothing is taken from the front: the back pass makes the step *)
      assert (Hsame : c1 = c0).
      { unfold c1, consumeChunkFront. apply consume_loop_stuck.
        apply consumeChunkFront_stops. unfold consume_cond. simpl.
        apply andb_false_iff. left. apply Z.ltb_ge. lia. }
      assert (Hk : consume_cond b0 = true).
      { unfold consume_cond. simpl. rewrite Hsame. simpl.
        apply andb_true_intro. split.
        - apply Z.ltb_lt. lia.
        - by apply Nat.ltb_lt. }
      pose proof (consume_loop_progress _ consumeChunkBack_iter_ok
        consumeChunkBack_progress (consume_fuel b0) b0 Hb0 Hk) as Hpr.
      simpl in Hpr. fold (consumeChunkBack b0) in Hpr. fold c2 in Hpr.
      rewrite Hfr in Hpr.
      assert (0 < consume_fuel b0)%nat; [unfold consume_fuel; simpl; lia|].
      lia.
Qed.

Lemma split_loop_ok fuel s :
  split_ok s ->
  0 < chunk1 \/ 0 < chunk2 ->
  (remaining (s_front s) (tmp_iolist s) <= fuel)%nat ->
  exists s',
    split_loop chunk1 chunk2 fuel s = Some s'
    /\ split_ok s'
    /\ pending s' + handed_out s' = pending s + handed_out s
    /\ split_cond s' = false.
Proof.
  intros Hs Hp. revert s Hs.
  induction fuel as [|n IH]; intros s Hs Hfuel.
  - simpl. destruct (split_cond s) eqn:Hcond; [|by eauto].
    apply split_cond_true in Hcond; [|done].
    unfold remaining in Hfuel. lia.
  - simpl. destruct (split_cond s) eqn:Hcond; [|by eauto].
    destruct (split_round_ok s Hs) as (Hs' & Hb & _ & Hlt).
    specialize (Hlt Hcond Hp).
    destruct (IH _ Hs') as (s' & E & K1 & K2 & K3); [lia|].
    exists s'. split; [done|]. split; [done|]. split; [lia|done].
Qed.

End split_loop.

Lemma total_size_Permutation l1 l2 : l1 ≡ₚ l2 -> total_size l1 = total_size l2.
Proof. induction 1; simpl; lia. Qed.

Lemma total_size_sort l : total_size (sort_by_offset l) = total_size l.
Proof. apply total_size_Permutation, merge_sort_Permutation. Qed.

Lemma pending_done s : split_ok s -> split_cond s = false -> pending s = 0.
Proof.
  intros Hs Hcond. unfold pending.
  destruct (decide (s_front s < length (tmp_iolist s))%nat) as [Hlt|Hge].
  - apply (split_cond_true s Hs) in Hlt. congruence.
  - rewrite drop_ge by lia. done.
Qed.

(** [split_lists] returns, and the two lists it returns carry the bytes of
    the request. *)
Lemma split_lists_bytes chunk1 chunk2 iolist :
  sizes_ok iolist ->
  Z.of_nat (length iolist) < 2 ^ 64 ->
  0 <= chunk1 <= XRD_CL_MAX_CHUNK ->
  0 <= chunk2 <= XRD_CL_MAX_CHUNK ->
  0 < chunk1 \/ 0 < chunk2 ->
  exists r1 r2,
    split_lists chunk1 chunk2 iolist [] [] = Some (r1, r2)
    /\ total_size r1 + total_size r2 = total_size iolist.
Proof.
  intros Hok Hlen H1 H2 Hp. unfold split_lists.
  destruct (Nat.eqb (length iolist) 0) eqn:Hz.
  - apply Nat.eqb_eq in Hz. apply length_zero_iff_nil in Hz. subst.
    by exists [], [].
  - set (s0 := mkSplit 0 iolist [] []).
    assert (Hs0 : split_ok s0).
    { split; simpl; auto; try lia; by apply Forall_nil. }
    destruct (split_loop_ok chunk1 chunk2 H1 H2 (split_fuel iolist) s0 Hs0 Hp)
      as (s' & E & Hs' & Hb & Hc).
    { unfold remaining, split_fuel, s0. simpl. rewrite drop_0. lia. }
    rewrite E. eexists _, _. split; [done|].
    rewrite !total_size_sort.
    rewrite (pending_done s' Hs' Hc) in Hb.
    unfold handed_out, pending, s0 in Hb. simpl in Hb.
    rewrite drop_0 in Hb. lia.
Qed.

(** ** What [validateList] asserts *)

Lemma validateList_from_sound last total req v :
  validateList_from last total req = Some v ->
  Forall fragment_ok req
  /\ strictly_increasing req
  /\ (forall b, head req = Some b -> last < offset b).
Proof.
  revert last total. induction req as [|it rest IH]; intros last total; simpl.
  - intros _. repeat split; [constructor | constructor | done].
  - destruct (_ && _) eqn:Hg; [|done].
    apply andb_prop in Hg as [Hg H3]. apply andb_prop in Hg as [H1 H2].
    apply Z.gtb_lt in H1. apply Z.leb_le in H2. apply Z.ltb_lt in H3.
    intros Hv. destruct (IH _ _ Hv) as (K1 & K2 & K3).
    split; [|split].
    + constructor; [|done]. split; [exact H2|].
      change (2 ^ 41) with 2199023255552. lia.
    + constructor; [done|]. destruct rest as [|b rest']; constructor.
      apply K3. done.
    + intros b [= <-]. done.
Qed.

Lemma validateList_sound req v :
  validateList req = Some v ->
  Forall fragment_ok req /\ strictly_increasing req.
Proof.
  intros H. apply validateList_from_sound in H as (H1 & H2 & _). by split.
Qed.

Example s5_split :
  handle_split (384 * KiB) (128 * KiB) s5_input
  = Returned
      ([ mkIOPosBuffer 0 4096 (384 * KiB);
         mkIOPosBuffer (384 * KiB) (1004096 + 184 * KiB) (16 * KiB);
         mkIOPosBuffer (528 * KiB) (2004096 + 128 * KiB) (72 * KiB) ],
       [ mkIOPosBuffer (400 * KiB) 2004096 (128 * KiB) ]).
Proof. vm_compute. reflexivity. Qed.

(** ** Bytes are conserved; the reference to the tail of the output *)

Lemma sizes_ok_intro (l : list IOPosBuffer) :
  forallb (fun b => (0 <=? size b) && (size b <? 2 ^ 64)) l = true ->
  sizes_ok l.
Proof.
  intros H. apply Forall_forall. intros b Hb.
  rewrite forallb_forall in H. apply list_elem_of_In in Hb.
  specialize (H b Hb). apply andb_prop in H as [H1 H2].
  apply Z.leb_le in H1. apply Z.ltb_lt in H2. lia.
Defined.

(** C1.  For a scatter list handed to [splitClientRequest] while two sources
    are active (budgets [chunk1] and [chunk2] of at most [XRD_CL_MAX_CHUNK]
    bytes, not both zero), the loop terminates and the two lists it builds
    hold, together, exactly the bytes of the input list: the sum of the sizes
    in [req1] plus the sum of the sizes in [req2] is the sum of the sizes of
    the input.  These are the lists the function hands back whenever it
    returns. *)
Theorem splitClientRequest_preserves_bytes chunk1 chunk2 iolist :
  sizes_ok iolist ->
  Z.of_nat (length iolist) < 2 ^ 64 ->
  0 <= chunk1 <= XRD_CL_MAX_CHUNK ->
  0 <= chunk2 <= XRD_CL_MAX_CHUNK ->
  0 < chunk1 \/ 0 < chunk2 ->
  exists r1 r2,
    split_lists chunk1 chunk2 iolist [] [] = Some (r1, r2)
    /\ total_size r1 + total_size r2 = total_size iolist
    /\ handle_split chunk1 chunk2 iolist <> Diverged
    /\ forall out, handle_split chunk1 chunk2 iolist = Returned out ->
                   out = (r1, r2).
Proof.
  intros Hok Hlen H1 H2 Hp.
  destruct (split_lists_bytes chunk1 chunk2 iolist Hok Hlen H1 H2 Hp)
    as (r1 & r2 & E & Hsum).
  exists r1, r2. split; [done|]. split; [done|].
  unfold handle_split, splitClientRequest.
  destruct (Nat.eqb (length iolist) 0) eqn:Hz.
  - unfold split_lists in E. rewrite Hz in E. injection E as <- <-.
    split; [done|]. by intros out [= <-].
  - rewrite E.
    destruct (validateList r1) as [size1|], (validateList r2) as [size2|];
      try (split; [done|]; by intros out).
    destruct (_ =? _); split; try done. by intros out [= <-].
Qed.

Lemma splitClientRequest_preserves_bytes_witness :
  let iolist := [mkIOPosBuffer 0 4096 5; mkIOPosBuffer 10 8192 3] in
  sizes_ok iolist
  /\ Z.of_nat (length iolist) < 2 ^ 64
  /\ 0 <= 2 <= XRD_CL_MAX_CHUNK
  /\ 0 <= 3 <= XRD_CL_MAX_CHUNK
  /\ (0 < 2 \/ 0 < 3)
  /\ exists r1 r2,
       split_lists 2 3 iolist [] [] = Some (r1, r2)
       /\ total_size r1 + total_size r2 = total_size iolist
       /\ handle_split 2 3 iolist <> Diverged
       /\ forall out, handle_split 2 3 iolist = Returned out -> out = (r1, r2).
Proof.
  intros iolist.
  assert (Hok : sizes_ok iolist) by (apply sizes_ok_intro; reflexivity).
  assert (Hlen : Z.of_nat (length iolist) < 2 ^ 64) by reflexivity.
  assert (H1 : 0 <= 2 <= XRD_CL_MAX_CHUNK) by (vm_compute; split; discriminate).
  assert (H2 : 0 <= 3 <= XRD_CL_MAX_CHUNK) by (vm_compute; split; discriminate).
  assert (Hp : 0 < 2 \/ 0 < 3) by (left; reflexivity).
  repeat (split; [assumption|]).
  exact (splitClientRequest_preserves_bytes 2 3 iolist Hok Hlen H1 H2 Hp).
Defined.

(** *** The accesses to [output] *)

Lemma take_partial_logged_value io outio output chunksize :
  snd (take_partial_logged io outio output chunksize)
  = take_partial io outio output chunksize.
Proof.
  unfold take_partial_logged, take_partial, and_then, through, vec_size,
    vec_append, done_with. simpl.
  destruct (Nat.eqb (length output) 0) eqn:En; simpl.
  - by destruct outio.
  - destruct outio as [o|]; simpl; [|done].
    destruct (size o <? XRD_CL_MAX_CHUNK); simpl; [|done].
    by destruct (_ =? offset io).
Qed.

(** The condition starts with the test of [output.size()], and goes through
    [outio] only when the test found an element. *)
Lemma take_partial_logged_order io outio output chunksize :
  exists rest,
    fst (take_partial_logged io outio output chunksize)
    = TestSize (length output) :: rest
    /\ Forall (fun e => is_bind e = false) rest
    /\ (UseBack ∈ rest -> output <> []).
Proof.
  unfold take_partial_logged, and_then, through, vec_size, vec_append,
    done_with. simpl.
  destruct (Nat.eqb (length output) 0) eqn:En; simpl.
  - eexists. split; [reflexivity|]. split; [by repeat constructor|].
    intros H. apply list_elem_of_singleton in H. discriminate.
  - assert (Hne : output <> []) by (by intros ->).
    destruct (match outio with Some o => size o <? XRD_CL_MAX_CHUNK
              | None => false end); simpl.
    + destruct (match outio with
                | Some o => wrapS (offset o + wrapS (size o)) =? offset io
                | None => false end); simpl;
        (eexists; split; [reflexivity|]; split; [by repeat constructor|done]).
    + eexists. split; [reflexivity|]. split; [by repeat constructor|done].
Qed.

Lemma consumeChunkFront_logged_value c :
  snd <$> consumeChunkFront_logged c = snd <$> consumeChunkFront_iter c.
Proof.
  unfold consumeChunkFront_logged, consumeChunkFront_iter,
    consumeChunkFront_body.
  destruct (consume_cond c); [|done].
  destruct (input c !! front c) as [io|]; [|done]. simpl. f_equal.
  destruct (size io >? chunksize c).
  - pose proof (take_partial_logged_value io (back (output c)) (output c)
                  (chunksize c)) as Hv.
    destruct (take_partial io (back (output c)) (output c) (chunksize c))
      as [consumed output'].
    set (x := take_partial_logged io (back (output c)) (output c)
                (chunksize c)) in *.
    clearbody x. destruct x as [tx [cx ox]]. simpl in Hv.
    by injection Hv as -> ->.
  - by destruct (size io =? 0).
Qed.

Lemma consumeChunkBack_logged_value c :
  snd <$> consumeChunkBack_logged c = snd <$> consumeChunkBack_iter c.
Proof.
  unfold consumeChunkBack_logged, consumeChunkBack_iter,
    consumeChunkBack_body.
  destruct (consume_cond c); [|done].
  destruct (back (input c)) as [io|]; [|done]. simpl. f_equal.
  destruct (size io >? chunksize c).
  - pose proof (take_partial_logged_value io (back (output c)) (output c)
                  (chunksize c)) as Hv.
    destruct (take_partial io (back (output c)) (output c) (chunksize c))
      as [consumed output'].
    set (x := take_partial_logged io (back (output c)) (output c)
                (chunksize c)) in *.
    clearbody x. destruct x as [tx [cx ox]]. simpl in Hv.
    by injection Hv as -> ->.
  - by destruct (size io =? 0).
Qed.

Lemma consume_loop_logged_value iterL iter fuel c :
  (forall c, snd <$> iterL c = snd <$> iter c) ->
  snd (consume_loop_logged iterL fuel c) = consume_loop iter fuel c.
Proof.
  intros Hiter. revert c. induction fuel as [|n IH]; intros c; simpl; [done|].
  specialize (Hiter c).
  destruct (iterL c) as [[t c1]|], (iter c) as [[o c2]|]; try done.
  injection Hiter as ->. unfold and_then. simpl. apply IH.
Qed.

(** Every iteration starts with the binding of [outio]. *)
Lemma logged_iteration_order c t c' :
  consumeChunkFront_logged c = Some (t, c')
  \/ consumeChunkBack_logged c = Some (t, c') ->
  exists rest,
    t = BindBack (length (output c)) :: rest
    /\ Forall (fun e => is_bind e = false) rest
    /\ (UseBack ∈ rest ->
        output c <> []
        /\ exists rest', rest = TestSize (length (output c)) :: rest').
Proof.
  intros [H|H].
  - unfold consumeChunkFront_logged in H.
    destruct (consume_cond c); [|done].
    destruct (input c !! front c) as [io|]; [|done].
    apply (inj Some) in H. revert H.
    cbv beta iota delta [and_then vec_back].
    change (snd ([BindBack (length (output c))], back (output c)))
      with (back (output c)).
    destruct (size io >? chunksize c).
    + destruct (take_partial_logged_order io (back (output c)) (output c)
                  (chunksize c)) as (rest & Hr & Hnb & Huse).
      set (x := take_partial_logged io (back (output c)) (output c)
                  (chunksize c)) in *.
      clearbody x. destruct x as [tx vx]. simpl in Hr. subst tx.
      simpl. rewrite app_nil_r.
      intros [= <- _]. eexists. split; [reflexivity|]. split.
      * constructor; [done|exact Hnb].
      * intros Hin. apply elem_of_cons in Hin as [|Hin]; [done|].
        split; [by apply Huse|]. by eexists.
    + destruct (size io =? 0).
      * simpl. intros [= <- _]. eexists. split; [reflexivity|].
        split; [constructor|]. intros Hin. by apply elem_of_nil in Hin.
      * simpl. intros [= <- _].
        eexists. split; [reflexivity|]. split; [by repeat constructor|].
        intros Hin. apply list_elem_of_singleton in Hin. discriminate.
  - unfold consumeChunkBack_logged in H.
    destruct (consume_cond c); [|done].
    destruct (back (input c)) as [io|]; [|done].
    apply (inj Some) in H. revert H.
    cbv beta iota delta [and_then vec_back].
    change (snd ([BindBack (length (output c))], back (output c)))
      with (back (output c)).
    destruct (size io >? chunksize c).
    + destruct (take_partial_logged_order io (back (output c)) (output c)
                  (chunksize c)) as (rest & Hr & Hnb & Huse).
      set (x := take_partial_logged io (back (output c)) (output c)
                  (chunksize c)) in *.
      clearbody x. destruct x as [tx vx]. simpl in Hr. subst tx.
      simpl. rewrite app_nil_r.
      intros [= <- _]. eexists. split; [reflexivity|]. split.
      * constructor; [done|exact Hnb].
      * intros Hin. apply elem_of_cons in Hin as [|Hin]; [done|].
        split; [by apply Huse|]. by eexists.
    + destruct (size io =? 0).
      * simpl. intros [= <- _]. eexists. split; [reflexivity|].
        split; [constructor|]. intros Hin. by apply elem_of_nil in Hin.
      * simpl. intros [= <- _].
        eexists. split; [reflexivity|]. split; [by repeat constructor|].
        intros Hin. apply list_elem_of_singleton in Hin. discriminate.
Qed.

Lemma logged_loop_first iterL c :
  (0 < consume_fuel c)%nat ->
  is_Some (iterL c) ->
  (forall t c', iterL c = Some (t, c') ->
     exists rest, t = BindBack (length (output c)) :: rest) ->
  exists rest,
    fst (consume_loop_logged iterL (consume_fuel c) c)
    = BindBack (length (output c)) :: rest.
Proof.
  intros Hfuel [[t c'] Hi] Hfirst.
  destruct (consume_fuel c) as [|n]; [lia|]. simpl. rewrite Hi.
  destruct (Hfirst t c' Hi) as [rest ->].
  unfold and_then. simpl. by eexists.
Qed.

(** C10.  Both consume loops bind [outio] to [output.back()] at the top of
    every iteration, before the guard [output.size() && ...] is evaluated:
    in the log of the accesses that an iteration makes to [output], the
    binding comes first and only once, the test of [output.size()] comes
    after it, and [outio] is gone through only after a test that found an
    element.  [back] has no value exactly on the empty vector.  In
    [splitClientRequest] the first iteration of [consumeChunkFront] runs on
    the empty [req1], and the first iteration of [consumeChunkBack] on the
    empty [req2]: the first access of both loops is [output.back()] on a
    vector of size 0.  The loops with the log compute what the loops
    without it compute. *)
Theorem outio_bound_before_guard :
  (forall (A : Type) (v : list A), back v = None <-> v = [])
  /\ (forall c,
        snd <$> consumeChunkFront_logged c = snd <$> consumeChunkFront_iter c
        /\ snd <$> consumeChunkBack_logged c
           = snd <$> consumeChunkBack_iter c
        /\ snd (consumeChunkFront_run c) = consumeChunkFront c
        /\ snd (consumeChunkBack_run c) = consumeChunkBack c)
  /\ (forall c o c',
        consumeChunkFront_iter c = Some (o, c') \/
        consumeChunkBack_iter c = Some (o, c') ->
        o = back (output c) /\ (forall b, o = Some b -> output c <> []))
  /\ (forall c t c',
        consumeChunkFront_logged c = Some (t, c') \/
        consumeChunkBack_logged c = Some (t, c') ->
        exists rest,
          t = BindBack (length (output c)) :: rest
          /\ Forall (fun e => is_bind e = false) rest
          /\ (UseBack ∈ rest ->
              output c <> []
              /\ exists rest',
                   rest = TestSize (length (output c)) :: rest'))
  /\ (forall chunk1 chunk2 iolist,
        iolist <> [] ->
        let s0 := mkSplit 0 iolist [] [] in
        let c0 := mkCursor 0 iolist [] chunk1 in
        let c1 := consumeChunkFront c0 in
        let b0 := mkCursor (front c1) (input c1) [] chunk2 in
        split_round chunk1 chunk2 s0
        = mkSplit (front c1) (input (consumeChunkBack b0)) (output c1)
                  (output (consumeChunkBack b0))
        /\ (0 < chunk1 ->
            exists rest,
              fst (consumeChunkFront_run c0) = BindBack 0 :: rest)
        /\ (consume_cond b0 = true ->
            exists rest,
              fst (consumeChunkBack_run b0) = BindBack 0 :: rest)).
Proof.
  split; [|split; [|split; [|split]]].
  - intros A v. apply last_None.
  - intros c. split; [apply consumeChunkFront_logged_value|].
    split; [apply consumeChunkBack_logged_value|]. split.
    + apply consume_loop_logged_value, consumeChunkFront_logged_value.
    + apply consume_loop_logged_value, consumeChunkBack_logged_value.
  - intros c o c' H.
    assert (Ho : o = back (output c)).
    { destruct H as [H|H].
      - unfold consumeChunkFront_iter in H.
        destruct (consume_cond c); [|done].
        destruct (input c !! front c); [|done]. by injection H as <- _.
      - unfold consumeChunkBack_iter in H.
        destruct (consume_cond c); [|done].
        destruct (back (input c)); [|done]. by injection H as <- _. }
    split; [done|]. intros b Hb Hnil. rewrite Hnil in Ho. simpl in Ho.
    congruence.
  - apply logged_iteration_order.
  - intros chunk1 chunk2 iolist Hne s0 c0 c1 b0. split; [done|]. split.
    + intros Hp.
      assert (Hcond : consume_cond c0 = true).
      { unfold consume_cond. simpl. apply andb_true_intro. split.
        - by apply Z.ltb_lt.
        - apply Nat.ltb_lt. destruct iolist; [done|]. simpl. lia. }
      apply (logged_loop_first consumeChunkFront_logged c0).
      * unfold consume_fuel. simpl. lia.
      * pose proof (consumeChunkFront_progress c0 Hcond) as [x Hx].
        pose proof (consumeChunkFront_logged_value c0) as Hv.
        rewrite Hx in Hv. by destruct (consumeChunkFront_logged c0).
      * intros t c' Ht.
        destruct (logged_iteration_order c0 t c' (or_introl Ht))
          as (rest & -> & _). by eexists.
    + intros Hcond.
      apply (logged_loop_first consumeChunkBack_logged b0).
      * unfold consume_cond in Hcond. apply andb_prop in Hcond as [Hp _].
        apply Z.ltb_lt in Hp. unfold consume_fuel. lia.
      * pose proof (consumeChunkBack_progress b0 Hcond) as [x Hx].
        pose proof (consumeChunkBack_logged_value b0) as Hv.
        rewrite Hx in Hv. by destruct (consumeChunkBack_logged b0).
      * intros t c' Ht.
        destruct (logged_iteration_order b0 t c' (or_intror Ht))
          as (rest & -> & _). by eexists.
Qed.

Lemma outio_bound_before_guard_witness :
  let iolist := [mkIOPosBuffer 0 4096 5; mkIOPosBuffer 10 8192 3] in
  let c0 := mkCursor 0 iolist [] 2 in
  let c1 := consumeChunkFront c0 in
  let b0 := mkCursor (front c1) (input c1) [] 3 in
  iolist <> [] /\ 0 < 2 /\ consume_cond b0 = true
  /\ fst (consumeChunkFront_run c0) = [BindBack 0; TestSize 0; Append]
  /\ fst (consumeChunkBack_run b0) = [BindBack 0; Append]
  /\ (exists rest, fst (consumeChunkFront_run c0) = BindBack 0 :: rest)
  /\ (exists rest, fst (consumeChunkBack_run b0) = BindBack 0 :: rest).
Proof.
  intros iolist c0 c1 b0.
  assert (Hne : iolist <> []) by discriminate.
  assert (Hp : 0 < 2) by reflexivity.
  assert (Hc : consume_cond b0 = true) by reflexivity.
  destruct outio_bound_before_guard as (_ & _ & _ & _ & H).
  destruct (H 2 3 iolist Hne) as (_ & Hf & Hb).
  split; [exact Hne|]. split; [exact Hp|]. split; [exact Hc|].
  split; [vm_compute; reflexivity|]. split; [vm_compute; reflexivity|].
  split; [exact (Hf Hp) | exact (Hb Hc)].
Defined.
(** ** Non-overlapping requests pass [validateList] *)

Lemma apart_sym a b : apart a b -> apart b a.
Proof. unfold apart. tauto. Qed.

Lemma pairwise_apart_app l1 l2 :
  pairwise_apart (l1 ++ l2)
  <-> pairwise_apart l1 /\ pairwise_apart l2
      /\ Forall (fun x => Forall (apart x) l2) l1.
Proof.
  induction l1 as [|x l1 IH]; simpl.
  - split; [by intros; repeat split | by intros (_ & ? & _)].
  - rewrite Forall_app, IH, Forall_cons. tauto.
Qed.

Lemma pairwise_apart_Permutation l1 l2 :
  l1 ≡ₚ l2 -> pairwise_apart l1 -> pairwise_apart l2.
Proof.
  induction 1 as [|x l1 l2 Hp IH|x y l|l1 l2 l3 _ IH1 _ IH2]; simpl.
  - done.
  - intros [H1 H2]. split; [by rewrite <- Hp | by apply IH].
  - intros [H1 [H2 H3]]. apply Forall_cons in H1 as [Hyx H1].
    split; [|by split].
    apply Forall_cons. split; [by apply apart_sym | done].
  - intros H. by apply IH2, IH1.
Qed.

(** A part of a non-empty fragment is apart from whatever the fragment is
    apart from. *)
Lemma apart_part io a z :
  apart io z -> 0 < size io ->
  offset io <= offset a -> ends a <= ends io ->
  apart a z.
Proof. unfold apart, ends. lia. Qed.

(** A fragment that grows into the fragment that follows it stays apart
    from the rest. *)
Lemma apart_grow o io o' z :
  apart o z -> apart io z ->
  0 < size o -> 0 <= size z ->
  ends o = offset io -> offset o' = offset o -> ends o' <= ends io ->
  apart o' z.
Proof. unfold apart, ends. lia. Qed.

Lemma OFFSET_LIMIT_val : OFFSET_LIMIT = 2199023255551.
Proof. reflexivity. Qed.

Lemma advance_exact io consumed :
  in_range io -> 0 <= consumed <= size io ->
  offset (advance io consumed) = offset io + consumed
  /\ size (advance io consumed) = size io - consumed.
Proof.
  intros (Hs & Ho & He) Hc. unfold ends in He.
  pose proof OFFSET_LIMIT_val. simpl. bounds.
  rewrite wrapS_small, wrapU_small by lia. done.
Qed.

Lemma take_partial_apart io output chunk consumed output' Y :
  in_range io -> chunk < size io -> 0 < chunk <= XRD_CL_MAX_CHUNK ->
  Forall piece_ok output ->
  Forall (fun z => 0 <= size z) Y ->
  pairwise_apart (io :: Y ++ output) ->
  take_partial io (back output) output chunk = (consumed, output') ->
  0 < consumed <= chunk
  /\ Forall piece_ok output'
  /\ pairwise_apart (advance io consumed :: Y ++ output').
Proof.
  intros Hio Hlt Hc Hout HY [Hfa Hpw] Htp.
  pose proof OFFSET_LIMIT_val as HL.
  assert (Hfresh : forall d,
    (chunk, output ++ [mkIOPosBuffer (offset io) d chunk])
    = (consumed, output') ->
    0 < consumed <= chunk
    /\ Forall piece_ok output'
    /\ pairwise_apart (advance io consumed :: Y ++ output')).
  { intros d [= <- <-].
    destruct (advance_exact io chunk Hio) as [Ao As]; [lia|].
    set (io' := advance io chunk) in *. clearbody io'.
    destruct Hio as (Hs & Ho & He). unfold ends in He.
    set (piece := mkIOPosBuffer (offset io) d chunk).
    assert (Hpiece : forall z, apart io z -> apart piece z).
    { intros z Hz. eapply apart_part; [exact Hz|lia|simpl; lia|].
      unfold ends. simpl. lia. }
    split; [lia|]. split.
    - apply Forall_app. split; [done|]. apply Forall_singleton.
      unfold piece_ok, ends. simpl. lia.
    - simpl. rewrite app_assoc. split.
      + apply Forall_app. split.
        * eapply Forall_impl; [exact Hfa|]. intros z Hz.
          eapply apart_part; [exact Hz|lia|lia|]. unfold ends. lia.
        * apply Forall_singleton. unfold apart, ends. simpl. lia.
      + apply pairwise_apart_app. split; [done|]. split; [by simpl|].
        eapply Forall_impl; [exact Hfa|]. intros z Hz.
        apply Forall_singleton, apart_sym, Hpiece, Hz. }
  unfold take_partial in Htp.
  destruct (back output) as [o|] eqn:Hb; [|by eapply Hfresh].
  destruct (_ && _) eqn:Hg; [|by eapply Hfresh].
  apply andb_prop in Hg as [Hg Hadj]. apply andb_prop in Hg as [_ Hsz].
  apply Z.ltb_lt in Hsz. apply Z.eqb_eq in Hadj.
  apply back_inv in Hb as [v ->].
  apply Forall_app in Hout as [Hv Ho]. rewrite Forall_singleton in Ho.
  destruct Ho as (Hos & Hoo & Hoe). unfold ends in Hoe.
  rewrite (wrapS_small (size o)) in Hadj by (bounds; lia).
  rewrite wrapS_small in Hadj by (bounds; lia).
  rewrite !set_back_snoc in Htp.
  rewrite (wrapU_small (size o + chunk)) in Htp by (bounds; lia).
  rewrite app_assoc in Hfa, Hpw.
  apply Forall_app in Hfa as [HfaW Hfao]. rewrite Forall_singleton in Hfao.
  apply pairwise_apart_app in Hpw as (HpwW & _ & HWo).
  assert (HW : Forall (fun z => 0 <= size z) (Y ++ v)).
  { apply Forall_app. split; [done|]. eapply Forall_impl; [exact Hv|].
    intros z (Hz & _). lia. }
  assert (Hgoal : forall c', 0 < c' <= chunk ->
    size o + c' <= XRD_CL_MAX_CHUNK ->
    Forall piece_ok (v ++ [set_size o (size o + c')])
    /\ pairwise_apart
         (advance io c' :: Y ++ v ++ [set_size o (size o + c')])).
  { intros c' Hc' Hmax.
    destruct (advance_exact io c' Hio) as [Ao As]; [lia|].
    set (io' := advance io c') in *. clearbody io'.
    destruct Hio as (Hs & Hof & He). unfold ends in He.
    split.
    - apply Forall_app. split; [done|]. apply Forall_singleton.
      unfold piece_ok, ends. simpl. lia.
    - simpl. rewrite app_assoc. split.
      + apply Forall_app. split.
        * eapply Forall_impl; [exact HfaW|]. intros z Hz.
          eapply apart_part; [exact Hz|lia|lia|]. unfold ends. lia.
        * apply Forall_singleton. unfold apart, ends. simpl. lia.
      + apply pairwise_apart_app. split; [done|]. split; [by simpl|].
        apply Forall_forall. intros z Hz. apply Forall_singleton.
        rewrite Forall_forall in HWo, HfaW, HW.
        specialize (HWo z Hz). rewrite Forall_singleton in HWo.
        apply apart_sym.
        eapply (apart_grow o io); [by apply apart_sym|by apply HfaW|lia
          |by apply HW|unfold ends; lia|done|unfold ends; simpl; lia]. }
  destruct (_ >? _) eqn:Hgt; injection Htp as <- <-.
  - apply Z.gtb_lt in Hgt.
    rewrite wrapU_small by (bounds; lia).
    split; [lia|].
    replace (set_size o XRD_CL_MAX_CHUNK)
      with (set_size o (size o + (XRD_CL_MAX_CHUNK - size o)))
      by (f_equal; lia).
    apply Hgoal; lia.
  - rewrite Z.gtb_ltb in Hgt. apply Z.ltb_ge in Hgt.
    split; [lia|]. apply Hgoal; lia.
Qed.

Lemma in_range_advance io consumed :
  in_range io -> 0 <= consumed <= size io -> in_range (advance io consumed).
Proof.
  intros Hio Hc. destruct (advance_exact io consumed Hio Hc) as [Ao As].
  destruct Hio as (Hs & Ho & He). unfold in_range, ends in *.
  rewrite Ao, As. lia.
Qed.

Lemma in_range_size_nonneg l :
  Forall in_range l -> Forall (fun z => 0 <= size z) l.
Proof.
  intros H. eapply Forall_impl; [exact H|]. intros z (Hz & _). lia.
Qed.

Lemma piece_ok_size_nonneg l :
  Forall piece_ok l -> Forall (fun z => 0 <= size z) l.
Proof.
  intros H. eapply Forall_impl; [exact H|]. intros z (Hz & _). lia.
Qed.

(** The three branches of an iteration, with the fragment [io] taken out of
    the live part [live] of the working copy. *)
Lemma body_apart io live output others chunk :
  in_range io -> Forall in_range live ->
  Forall piece_ok output -> Forall piece_ok others ->
  0 < chunk <= XRD_CL_MAX_CHUNK ->
  pairwise_apart (io :: (live ++ others) ++ output) ->
  (forall consumed output',
     chunk < size io ->
     take_partial io (back output) output chunk = (consumed, output') ->
     in_range (advance io consumed)
     /\ Forall piece_ok output'
     /\ pairwise_apart (advance io consumed :: (live ++ others) ++ output'))
  /\ pairwise_apart ((live ++ others) ++ output)
  /\ (size io <= chunk -> size io <> 0 ->
      Forall piece_ok (output ++ [io])
      /\ pairwise_apart ((live ++ others) ++ output ++ [io])).
Proof.
  intros Hio Hlive Hout Hoth Hc Hpw. split; [|split].
  - intros consumed output' Hlt Htp.
    assert (HY : Forall (fun z => 0 <= size z) (live ++ others)).
    { apply Forall_app. split;
        [by apply in_range_size_nonneg | by apply piece_ok_size_nonneg]. }
    destruct (take_partial_apart io output chunk consumed output'
                (live ++ others) Hio Hlt Hc Hout HY Hpw Htp)
      as (Hcons & Hout' & Hpw').
    split; [|by split]. apply in_range_advance; [done|lia].
  - by destruct Hpw.
  - intros Hle Hnz. destruct Hio as (Hs & Ho & He). split.
    + apply Forall_app. split; [done|]. apply Forall_singleton.
      unfold piece_ok. lia.
    + destruct Hpw as [Hfa Hpw]. rewrite app_assoc.
      apply pairwise_apart_app. split; [done|]. split; [by simpl|].
      eapply Forall_impl; [exact Hfa|]. intros z Hz.
      by apply Forall_singleton, apart_sym.
Qed.

Lemma perm_front (io : IOPosBuffer) rest output others :
  (io :: rest) ++ output ++ others ≡ₚ io :: (rest ++ others) ++ output.
Proof.
  simpl. apply Permutation_skip. rewrite <- app_assoc.
  apply Permutation_app_head, Permutation_app_comm.
Qed.

Lemma perm_back (io : IOPosBuffer) l output others :
  (l ++ [io]) ++ output ++ others ≡ₚ io :: (l ++ others) ++ output.
Proof.
  rewrite <- !app_assoc. simpl. rewrite <- Permutation_middle.
  apply Permutation_skip, Permutation_app_head, Permutation_app_comm.
Qed.

Lemma perm_rest (rest output others : list IOPosBuffer) :
  (rest ++ others) ++ output ≡ₚ rest ++ output ++ others.
Proof.
  rewrite <- app_assoc. apply Permutation_app_head, Permutation_app_comm.
Qed.

Lemma consumeChunkFront_iter_apart others c o c' :
  cursor_apart others c ->
  consumeChunkFront_iter c = Some (o, c') ->
  cursor_apart others c'.
Proof.
  intros [Hok Hlive Hout Hoth Hpw] Hiter.
  pose proof (consumeChunkFront_iter_ok c o c' Hok Hiter) as [Hok' _ _ _ _ _].
  revert Hiter Hok'. unfold consumeChunkFront_iter, consume_cond.
  destruct (_ && _) eqn:Hcond; [|done].
  apply andb_prop in Hcond as [Hpos _]. apply Z.ltb_lt in Hpos.
  destruct (input c !! front c) as [io|] eqn:Hio; [|done].
  intros [= _ <-].
  destruct (drop_front_insert _ _ _ (advance io 0) Hio) as [Hd _].
  rewrite Hd in Hlive, Hpw.
  apply Forall_cons in Hlive as [Hin Hrest].
  apply (pairwise_apart_Permutation _ _ (perm_front _ _ _ _)) in Hpw.
  assert (Hchunk : 0 < chunksize c <= XRD_CL_MAX_CHUNK).
  { destruct Hok as [_ _ Hc _]. lia. }
  unfold consumeChunkFront_body.
  destruct (size io >? chunksize c) eqn:Hgt.
  - apply Z.gtb_lt in Hgt.
    destruct (take_partial _ _ _ _) as [consumed output'] eqn:Htp.
    destruct (body_apart io _ _ _ (chunksize c) Hin Hrest Hout Hoth
                Hchunk Hpw) as (B1 & _ & _).
    destruct (B1 _ _ Hgt Htp) as (C1 & C2 & C3).
    destruct (drop_front_insert _ _ _ (advance io consumed) Hio)
      as [_ Hd'].
    intros Hok'. split; simpl; rewrite ?Hd'; try done.
    + by apply Forall_cons.
    + eapply pairwise_apart_Permutation; [|exact C3].
      symmetry. apply perm_front.
  - rewrite Z.gtb_ltb in Hgt. apply Z.ltb_ge in Hgt.
    destruct (body_apart io _ _ _ (chunksize c) Hin Hrest Hout Hoth
                Hchunk Hpw) as (_ & B2 & B3).
    destruct (size io =? 0) eqn:Hz.
    + intros Hok'. split; simpl; try done.
      eapply pairwise_apart_Permutation; [|exact B2]. apply perm_rest.
    + apply Z.eqb_neq in Hz. destruct (B3 Hgt Hz) as (C2 & C3).
      intros Hok'. split; simpl; try done.
      eapply pairwise_apart_Permutation; [|exact C3]. apply perm_rest.
Qed.

Lemma consumeChunkBack_iter_apart others c o c' :
  cursor_apart others c ->
  consumeChunkBack_iter c = Some (o, c') ->
  cursor_apart others c'.
Proof.
  intros [Hok Hlive Hout Hoth Hpw] Hiter.
  pose proof (consumeChunkBack_iter_ok c o c' Hok Hiter) as [Hok' _ _ _ _ _].
  revert Hiter Hok'. unfold consumeChunkBack_iter, consume_cond.
  destruct (_ && _) eqn:Hcond; [|done].
  apply andb_prop in Hcond as [Hpos Hlt].
  apply Z.ltb_lt in Hpos. apply Nat.ltb_lt in Hlt.
  destruct (back (input c)) as [io|] eqn:Hio; [|done].
  intros [= _ <-].
  apply back_inv in Hio as [l Hl]. rewrite Hl in Hlive, Hpw, Hlt.
  rewrite length_app in Hlt. simpl in Hlt.
  assert (Hd : forall x, drop (front c) (l ++ [x]) = drop (front c) l ++ [x]).
  { intros x. apply drop_app_le. lia. }
  rewrite Hd in Hlive, Hpw.
  apply Forall_app in Hlive as [Hrest Hin]. rewrite Forall_singleton in Hin.
  apply (pairwise_apart_Permutation _ _ (perm_back _ _ _ _)) in Hpw.
  assert (Hchunk : 0 < chunksize c <= XRD_CL_MAX_CHUNK).
  { destruct Hok as [_ _ Hc _]. lia. }
  unfold consumeChunkBack_body.
  destruct (size io >? chunksize c) eqn:Hgt.
  - apply Z.gtb_lt in Hgt.
    destruct (take_partial _ _ _ _) as [consumed output'] eqn:Htp.
    destruct (body_apart io _ _ _ (chunksize c) Hin Hrest Hout Hoth
                Hchunk Hpw) as (B1 & _ & _).
    destruct (B1 _ _ Hgt Htp) as (C1 & C2 & C3).
    rewrite ?Hl, ?set_back_snoc. intros Hok'.
    split; simpl; rewrite ?Hd; try done.
    + apply Forall_app. split; [done|]. by apply Forall_singleton.
    + eapply pairwise_apart_Permutation; [|exact C3].
      symmetry. apply perm_back.
  - rewrite Z.gtb_ltb in Hgt. apply Z.ltb_ge in Hgt.
    destruct (body_apart io _ _ _ (chunksize c) Hin Hrest Hout Hoth
                Hchunk Hpw) as (_ & B2 & B3).
    destruct (size io =? 0) eqn:Hz.
    + rewrite ?Hl, ?pop_back_snoc. intros Hok'. split; simpl; try done.
      eapply pairwise_apart_Permutation; [|exact B2]. apply perm_rest.
    + apply Z.eqb_neq in Hz. destruct (B3 Hgt Hz) as (C2 & C3).
      rewrite ?Hl, ?pop_back_snoc. intros Hok'. split; simpl; try done.
      eapply pairwise_apart_Permutation; [|exact C3]. apply perm_rest.
Qed.

Lemma consume_loop_apart iter others fuel c :
  (forall c o c', cursor_apart others c -> iter c = Some (o, c') ->
                  cursor_apart others c') ->
  cursor_apart others c ->
  cursor_apart others (consume_loop iter fuel c).
Proof.
  intros Hiter. revert c. induction fuel as [|n IH]; intros c Hc; simpl;
    [done|].
  destruct (iter c) as [[o c1]|] eqn:Hi; [|done].
  apply IH. by eapply Hiter.
Qed.

Lemma split_round_apart chunk1 chunk2 s :
  0 <= chunk1 <= XRD_CL_MAX_CHUNK ->
  0 <= chunk2 <= XRD_CL_MAX_CHUNK ->
  split_apart s ->
  split_apart (split_round chunk1 chunk2 s).
Proof.
  intros H1 H2 [Hok Hlive Hr1 Hr2 Hpw].
  destruct (split_round_ok chunk1 chunk2 H1 H2 s Hok) as (Hok' & _).
  revert Hok'. unfold split_round.
  set (c0 := mkCursor (s_front s) (tmp_iolist s) (req1 s) chunk1).
  assert (Hc0 : cursor_apart (req2 s) c0).
  { destruct Hok. split; simpl; try done; by split. }
  apply (consume_loop_apart consumeChunkFront_iter (req2 s) (consume_fuel c0))
    in Hc0; [|apply consumeChunkFront_iter_apart].
  fold (consumeChunkFront c0) in Hc0.
  set (c1 := consumeChunkFront c0) in *.
  destruct Hc0 as [Hok1 Hlive1 Hout1 _ Hpw1].
  set (b0 := mkCursor (front c1) (input c1) (req2 s) chunk2).
  assert (Hb0 : cursor_apart (output c1) b0).
  { destruct Hok1, Hok. split; simpl; try done.
    eapply pairwise_apart_Permutation; [|exact Hpw1].
    apply Permutation_app_head, Permutation_app_comm. }
  apply (consume_loop_apart consumeChunkBack_iter (output c1) (consume_fuel b0))
    in Hb0; [|apply consumeChunkBack_iter_apart].
  fold (consumeChunkBack b0) in Hb0.
  assert (Hfr : front (consumeChunkBack b0) = front c1).
  { unfold consumeChunkBack. by rewrite consumeChunkBack_front. }
  set (c2 := consumeChunkBack b0) in *.
  destruct Hb0 as [Hok2 Hlive2 Hout2 _ Hpw2]. rewrite Hfr in Hlive2, Hpw2.
  intros Hok'. split; simpl; try done.
  eapply pairwise_apart_Permutation; [|exact Hpw2].
  apply Permutation_app_head, Permutation_app_comm.
Qed.

Lemma split_loop_apart chunk1 chunk2 fuel s s' :
  0 <= chunk1 <= XRD_CL_MAX_CHUNK ->
  0 <= chunk2 <= XRD_CL_MAX_CHUNK ->
  split_loop chunk1 chunk2 fuel s = Some s' ->
  split_apart s ->
  split_apart s'.
Proof.
  intros H1 H2. revert s. induction fuel as [|n IH]; intros s; simpl.
  - destruct (split_cond s); [done|]. by intros [= <-].
  - destruct (split_cond s); [|by intros [= <-]].
    intros E Hs. apply (IH _ E). by apply split_round_apart.
Qed.

(** Offsets of non-empty fragments that are apart differ. *)
Lemma apart_offsets a b :
  apart a b -> 0 < size a -> 0 < size b -> offset a <> offset b.
Proof. unfold apart, ends. lia. Qed.

Lemma validateList_from_complete last total l :
  StronglySorted offset_le l ->
  pairwise_apart l ->
  Forall piece_ok l ->
  Forall (fun b => last < offset b) l ->
  exists v, validateList_from last total l = Some v
            /\ wrapU v = wrapU (total + total_size l).
Proof.
  revert last total. induction l as [|it rest IH];
    intros last total Hs Hp Hok Hlast; simpl.
  - exists total. split; [done|]. by rewrite Z.add_0_r.
  - apply StronglySorted_inv in Hs as [Hs Hle].
    destruct Hp as [Hfa Hp].
    apply Forall_cons in Hok as [(Hsz & Ho & He) Hok].
    apply Forall_cons in Hlast as [Hl _].
    unfold ends in He. pose proof OFFSET_LIMIT_val as HL.
    assert (G : (offset it >? last) && (size it <=? XRD_CL_MAX_CHUNK)
                && (offset it <? 0x1ffffffffff) = true).
    { apply andb_true_intro. split; [apply andb_true_intro; split|].
      - apply Z.gtb_lt. lia.
      - apply Z.leb_le. lia.
      - apply Z.ltb_lt. unfold OFFSET_LIMIT in He. lia. }
    rewrite G.
    destruct (IH (offset it) (wrapU (total + size it)) Hs Hp Hok)
      as (v & Hv & Hw).
    { apply Forall_forall. intros b Hb.
      rewrite Forall_forall in Hle, Hfa, Hok.
      specialize (Hle b Hb). specialize (Hfa b Hb).
      destruct (Hok b Hb) as (Hbs & _). unfold offset_le in Hle.
      pose proof (apart_offsets it b Hfa). lia. }
    exists v. split; [done|]. rewrite Hw. unfold wrapU.
    rewrite Z.add_mod_idemp_l by lia. f_equal. lia.
Qed.

Lemma size_orig_total l : size_orig l = wrapU (total_size l).
Proof.
  unfold size_orig.
  assert (H : forall acc, 0 <= acc < 2 ^ 64 ->
    foldl (fun acc it => wrapU (acc + size it)) acc l
    = wrapU (acc + total_size l)).
  { induction l as [|it rest IH]; intros acc Hacc; simpl.
    - rewrite Z.add_0_r. symmetry. by apply wrapU_small.
    - rewrite IH by apply wrapU_range. unfold wrapU.
      rewrite Z.add_mod_idemp_l by lia. f_equal. lia. }
  apply H. lia.
Qed.

#[local] Instance offset_le_trans : Transitive offset_le.
Proof. intros a b c. unfold offset_le. lia. Qed.

#[local] Instance offset_le_total : Total offset_le.
Proof. intros a b. unfold offset_le. lia. Qed.

Lemma validateList_sorted l :
  pairwise_apart l -> Forall piece_ok l ->
  exists v, validateList (sort_by_offset l) = Some v
            /\ wrapU v = wrapU (total_size l).
Proof.
  intros Hp Hok. unfold validateList, sort_by_offset.
  pose proof (merge_sort_Permutation offset_le l) as Hperm.
  destruct (validateList_from_complete (-1) 0 (merge_sort offset_le l))
    as (v & Hv & Hw).
  - apply StronglySorted_merge_sort; apply _.
  - eapply pairwise_apart_Permutation; [symmetry; exact Hperm|done].
  - by rewrite Hperm.
  - rewrite Hperm. eapply Forall_impl; [exact Hok|].
    intros b (_ & Hb & _). lia.
  - exists v. split; [done|]. rewrite Hw. simpl.
    by rewrite (total_size_Permutation _ _ Hperm).
Qed.

(** On a request whose fragments lie within the offset bound and do not
    overlap, none of the assertions of [splitClientRequest] fails: the
    function returns. *)
Lemma splitClientRequest_returns chunk1 chunk2 iolist :
  request_ok iolist ->
  0 <= chunk1 <= XRD_CL_MAX_CHUNK ->
  0 <= chunk2 <= XRD_CL_MAX_CHUNK ->
  0 < chunk1 \/ 0 < chunk2 ->
  exists r1 r2, handle_split chunk1 chunk2 iolist = Returned (r1, r2).
Proof.
  intros [Hrange Hlen Hpw] H1 H2 Hp.
  unfold handle_split, splitClientRequest.
  destruct (Nat.eqb (length iolist) 0) eqn:Hz; [by eauto|].
  unfold split_lists. rewrite Hz.
  set (s0 := mkSplit 0 iolist [] []).
  assert (Hsizes : sizes_ok iolist).
  { eapply Forall_impl; [exact Hrange|]. by intros b (Hb & _). }
  assert (Hs0 : split_ok s0).
  { split; simpl; auto; try lia; by apply Forall_nil. }
  assert (Ha0 : split_apart s0).
  { split; simpl; try done. by rewrite app_nil_r. }
  destruct (split_loop_ok chunk1 chunk2 H1 H2 (split_fuel iolist) s0 Hs0 Hp)
    as (s' & E & Hs' & Hb & Hc).
  { unfold remaining, split_fuel, s0. simpl. rewrite drop_0. lia. }
  rewrite E.
  pose proof (split_loop_apart _ _ _ _ _ H1 H2 E Ha0)
    as [_ _ Hr1 Hr2 Hpw'].
  apply pairwise_apart_app in Hpw' as (_ & Hpw' & _).
  apply pairwise_apart_app in Hpw' as (Hp1 & Hp2 & _).
  destruct (validateList_sorted _ Hp1 Hr1) as (v1 & -> & W1).
  destruct (validateList_sorted _ Hp2 Hr2) as (v2 & -> & W2).
  assert (Hsum : total_size (req1 s') + total_size (req2 s')
                 = total_size iolist).
  { rewrite (pending_done s' Hs' Hc) in Hb.
    unfold handed_out, pending, s0 in Hb. simpl in Hb.
    rewrite drop_0 in Hb. lia. }
  assert (Heq : size_orig iolist = wrapU (v1 + v2)).
  { rewrite size_orig_total, <- Hsum. unfold wrapU in *.
    rewrite (Z.add_mod v1 v2), W1, W2, <- Z.add_mod by lia. done. }
  rewrite Heq, Z.eqb_refl. by eauto.
Qed.

Lemma s5_request_ok : request_ok s5_input.
Proof.
  split.
  - repeat constructor; unfold ends; simpl; unfold KiB, OFFSET_LIMIT; lia.
  - reflexivity.
  - simpl. repeat constructor; unfold apart, ends; simpl; unfold KiB; lia.
Qed.

(** C2.  Every list that [splitClientRequest] hands back has passed
    [validateList]: each of its fragments has a size of at most 512 KiB and an
    offset below 2^41, and its offsets are strictly increasing.  This holds
    for scatter lists of every length, in particular for those of two
    fragments and more.  And lists are handed back: on a request whose
    fragments lie within the offset bound and do not overlap, with budgets
    of at most [XRD_CL_MAX_CHUNK] bytes that are not both zero, no assertion
    fails. *)
Theorem split_output_validated chunk1 chunk2 iolist :
  (forall r1 r2,
     handle_split chunk1 chunk2 iolist = Returned (r1, r2) ->
     Forall fragment_ok r1 /\ Forall fragment_ok r2
     /\ strictly_increasing r1 /\ strictly_increasing r2)
  /\ (request_ok iolist ->
      0 <= chunk1 <= XRD_CL_MAX_CHUNK ->
      0 <= chunk2 <= XRD_CL_MAX_CHUNK ->
      0 < chunk1 \/ 0 < chunk2 ->
      exists r1 r2,
        handle_split chunk1 chunk2 iolist = Returned (r1, r2)
        /\ Forall fragment_ok r1 /\ Forall fragment_ok r2
        /\ strictly_increasing r1 /\ strictly_increasing r2).
Proof.
  assert (Hval : forall r1 r2,
    handle_split chunk1 chunk2 iolist = Returned (r1, r2) ->
    Forall fragment_ok r1 /\ Forall fragment_ok r2
    /\ strictly_increasing r1 /\ strictly_increasing r2).
  { intros r1 r2. unfold handle_split, splitClientRequest.
    destruct (Nat.eqb (length iolist) 0).
    - intros [= <- <-]. repeat split; constructor.
    - destruct (split_lists chunk1 chunk2 iolist [] []) as [[l1 l2]|];
        [|done].
      destruct (validateList l1) as [size1|] eqn:V1; [|done].
      destruct (validateList l2) as [size2|] eqn:V2; [|done].
      destruct (_ =? _); [|done]. intros [= <- <-].
      apply validateList_sound in V1 as [A1 B1].
      apply validateList_sound in V2 as [A2 B2]. done. }
  split; [exact Hval|].
  intros Hreq H1 H2 Hp.
  destruct (splitClientRequest_returns chunk1 chunk2 iolist Hreq H1 H2 Hp)
    as (r1 & r2 & E).
  exists r1, r2. split; [exact E|]. by apply Hval.
Qed.

Lemma split_output_validated_witness :
  request_ok s5_input
  /\ 0 <= 384 * KiB <= XRD_CL_MAX_CHUNK
  /\ 0 <= 128 * KiB <= XRD_CL_MAX_CHUNK
  /\ (0 < 384 * KiB \/ 0 < 128 * KiB)
  /\ exists r1 r2,
       handle_split (384 * KiB) (128 * KiB) s5_input = Returned (r1, r2)
       /\ Forall fragment_ok r1 /\ Forall fragment_ok r2
       /\ strictly_increasing r1 /\ strictly_increasing r2.
Proof.
  assert (H1 : 0 <= 384 * KiB <= XRD_CL_MAX_CHUNK)
    by (vm_compute; split; discriminate).
  assert (H2 : 0 <= 128 * KiB <= XRD_CL_MAX_CHUNK)
    by (vm_compute; split; discriminate).
  assert (Hp : 0 < 384 * KiB \/ 0 < 128 * KiB) by (left; reflexivity).
  split; [exact s5_request_ok|]. split; [exact H1|]. split; [exact H2|].
  split; [exact Hp|].
  exact (proj2 (split_output_validated (384 * KiB) (128 * KiB) s5_input)
           s5_request_ok H1 H2 Hp).
Defined.

End SplitFacts.
Module ManagerFacts.
Import Manager.

Example s3_gates_pass :
  timeDiffMS at_1000 (m_lastSourceCheck s3_manager) = 900000
  /\ timeDiffMS at_1000 (m_nextActiveSourceCheck s3_manager) = 895000
  /\ eligibleInactiveSources at_1000 4000 s3_manager = [2%nat].
Proof. repeat split; vm_compute; reflexivity. Qed.

Example s3_handle :
  exists m', handle at_1000 false true s3_manager = Some (Done (Some 1%nat) m')
             /\ m_activeSources m' = [1%nat]
             /\ m_inactiveSources m' = [2%nat].
Proof. eexists. split; [vm_compute; reflexivity|]. split; reflexivity. Qed.

(** ** The tables under the setters *)

Lemma OpenHandler_open_tables sync_ok m :
  let m' := state_of (OpenHandler_open sync_ok m) in
  m_activeSources m' = m_activeSources m
  /\ m_inactiveSources m' = m_inactiveSources m
  /\ m_disabledSources m' = m_disabledSources m
  /\ m_disabledSourceStrings m' = m_disabledSourceStrings m
  /\ sources m' = sources m.
Proof.
  unfold OpenHandler_open. destruct (m_file (m_open_handler m)); simpl.
  - done.
  - by destruct sync_ok.
Qed.

Lemma open_and_schedule_tables now sync_ok f m :
  let m' := state_of (open_and_schedule now sync_ok f m) in
  m_activeSources m' = m_activeSources m
  /\ m_inactiveSources m' = m_inactiveSources m
  /\ m_disabledSources m' = m_disabledSources m
  /\ m_disabledSourceStrings m' = m_disabledSourceStrings m
  /\ sources m' = sources m.
Proof.
  unfold open_and_schedule. destruct f; [|done].
  pose proof (OpenHandler_open_tables sync_ok m) as H.
  by destruct (OpenHandler_open sync_ok m).
Qed.

(** ** The health check and promotion (C5) *)

Lemma checkSourcesImpl_single now probe sync_ok m :
  (length (m_activeSources m) <= 1)%nat ->
  exists r,
    checkSourcesImpl now probe sync_ok m = Some r
    /\ m_activeSources (state_of r) = m_activeSources m
    /\ m_inactiveSources (state_of r) = m_inactiveSources m.
Proof.
  intros Hlen. unfold checkSourcesImpl.
  apply Nat.leb_le in Hlen. rewrite Hlen.
  pose proof (open_and_schedule_tables now sync_ok true m) as (Ha & Hi & _).
  eexists. split; [reflexivity|]. by split.
Qed.

Lemma checkSourcesImpl_promotes now probe sync_ok m f1 m1 f2 m2 best :
  (1 < length (m_activeSources m))%nat ->
  compareSources now 0 1 m = (f1, m1) ->
  compareSources now 1 0 m1 = (f2, m2) ->
  length (m_activeSources m2) = 1%nat ->
  min_element m2 (eligibleInactiveSources now
                    ((XRD_ADAPTOR_SHORT_OPEN_DELAY - 1) * 1000) m2)
  = Some best ->
  exists r,
    checkSourcesImpl now probe sync_ok m = Some r
    /\ m_activeSources (state_of r) = m_activeSources m2 ++ [best]
    /\ m_inactiveSources (state_of r)
       = erase_first best (m_inactiveSources m2).
Proof.
  intros Hlen H1 H2 Hone Hbest. unfold checkSourcesImpl.
  assert (Hleb : (length (m_activeSources m) <=? 1)%nat = false).
  { apply Nat.leb_gt. lia. }
  rewrite Hleb. unfold check_two_sources. rewrite H1, H2, Hbest, Hone.
  simpl Nat.eqb. cbv iota.
  set (m3 := set_inactive _ _).
  assert (Hopen : forall f, exists r : res timespec,
    Some (open_and_schedule now sync_ok f m3) = Some r
    /\ m_activeSources (state_of r) = m_activeSources m2 ++ [best]
    /\ m_inactiveSources (state_of r)
       = erase_first best (m_inactiveSources m2)).
  { intros f.
    pose proof (open_and_schedule_tables now sync_ok f m3) as (Ha & Hi & _).
    eexists. split; [reflexivity|]. by split. }
  destruct (_ && _); [destruct probe|]; apply Hopen.
Qed.

Lemma min_element_least m l best :
  min_element m l = Some best ->
  best ∈ l /\ forall q, q ∈ l -> getQuality m best <= getQuality m q.
Proof.
  destruct l as [|p0 rest]; [done|]. simpl. intros [= <-].
  assert (H : forall (l : list ptr) acc,
    let r := foldl (fun best q =>
                      if getQuality m q <? getQuality m best then q else best)
                   acc l in
    (r = acc \/ r ∈ l)
    /\ getQuality m r <= getQuality m acc
    /\ forall q, q ∈ l -> getQuality m r <= getQuality m q).
  { induction l as [|q l IH]; intros acc; simpl.
    - split; [by left|]. split; [lia|]. intros q Hq.
      by apply elem_of_nil in Hq.
    - destruct (IH (if getQuality m q <? getQuality m acc then q else acc))
        as (Hin & Hle & Hall).
      destruct (getQuality m q <? getQuality m acc) eqn:E.
      + apply Z.ltb_lt in E. split; [|split].
        * right. destruct Hin as [->|Hin]; [by left|by right].
        * lia.
        * intros x Hx. apply elem_of_cons in Hx as [->|Hx]; [done|].
          by apply Hall.
      + apply Z.ltb_ge in E. split; [|split].
        * destruct Hin as [->|Hin]; [by left|right; by right].
        * done.
        * intros x Hx. apply elem_of_cons in Hx as [->|Hx]; [lia|].
          by apply Hall. }
  destruct (H rest p0) as (Hin & Hle & Hall). split.
  - destruct Hin as [->|Hin]; [by left|by right].
  - intros q Hq. apply elem_of_cons in Hq as [->|Hq]; [done|]. by apply Hall.
Qed.

Lemma checkSourcesImpl_single_opens now probe sync_ok m :
  (length (m_activeSources m) <= 1)%nat ->
  checkSourcesImpl now probe sync_ok m
  = Some (open_and_schedule now sync_ok true m).
Proof.
  intros Hlen. unfold checkSourcesImpl.
  apply Nat.leb_le in Hlen. by rewrite Hlen.
Qed.

Lemma open_and_schedule_opens now sync_ok m :
  let r := open_and_schedule now sync_ok true m in
  let h := m_open_handler m in
  m_open_handler (state_of r)
  = m_open_handler (state_of (OpenHandler_open sync_ok m))
  /\ match m_file h with
     | Some _ => m_open_handler (state_of r) = h
     | None =>
         file_opens (m_open_handler (state_of r))
         = file_opens h
           ++ [m_name m +:+ separator (m_name m) +:+ prepareOpaqueString m]
         /\ (sync_ok = false -> r = Raise FileOpenError (state_of r))
     end.
Proof.
  unfold open_and_schedule, OpenHandler_open.
  destruct (m_file (m_open_handler m)); simpl; [done|].
  destruct sync_ok; simpl; [|done]. split; [done|]. by split.
Qed.

(** C5, as the code has it.  A health check that starts with at most one
    active source promotes nothing: the active and the inactive sources are
    afterwards the ones they were.  It asks the open handler for a new
    source instead: [OpenHandler::open] is called, which issues a
    [File::Open] unless the handler holds an attempt already.  An inactive
    source is promoted when the check starts with two active sources and
    [compareSources] demotes one of them: the source promoted is then the
    best of the eligible inactive sources, the one of least quality value
    among the inactive sources downgraded more than 4 seconds ago, and
    afterwards the source that stayed and the promoted one are the active
    sources. *)
Theorem promotion_after_demotion_only now probe sync_ok m :
  ((length (m_activeSources m) <= 1)%nat ->
   exists r,
     checkSourcesImpl now probe sync_ok m = Some r
     /\ m_activeSources (state_of r) = m_activeSources m
     /\ m_inactiveSources (state_of r) = m_inactiveSources m
     /\ m_open_handler (state_of r)
        = m_open_handler (state_of (OpenHandler_open sync_ok m))
     /\ match m_file (m_open_handler m) with
        | Some _ => m_open_handler (state_of r) = m_open_handler m
        | None =>
            file_opens (m_open_handler (state_of r))
            = file_opens (m_open_handler m)
              ++ [m_name m +:+ separator (m_name m)
                  +:+ prepareOpaqueString m]
            /\ (sync_ok = false -> r = Raise FileOpenError (state_of r))
        end)
  /\ (forall f1 m1 f2 m2,
        (1 < length (m_activeSources m))%nat ->
        compareSources now 0 1 m = (f1, m1) ->
        compareSources now 1 0 m1 = (f2, m2) ->
        length (m_activeSources m2) = 1%nat ->
        eligibleInactiveSources now
          ((XRD_ADAPTOR_SHORT_OPEN_DELAY - 1) * 1000) m2 <> [] ->
        exists best r,
          min_element m2 (eligibleInactiveSources now
                            ((XRD_ADAPTOR_SHORT_OPEN_DELAY - 1) * 1000) m2)
          = Some best
          /\ best ∈ m_inactiveSources m2
          /\ 4000 < timeDiffMS now (getLastDowngrade m2 best)
          /\ (forall q,
                q ∈ m_inactiveSources m2 ->
                4000 < timeDiffMS now (getLastDowngrade m2 q) ->
                getQuality m2 best <= getQuality m2 q)
          /\ checkSourcesImpl now probe sync_ok m = Some r
          /\ m_activeSources (state_of r) = m_activeSources m2 ++ [best]
          /\ m_inactiveSources (state_of r)
             = erase_first best (m_inactiveSources m2)).
Proof.
  split.
  - intros Hlen. exists (open_and_schedule now sync_ok true m).
    split; [by apply checkSourcesImpl_single_opens|].
    pose proof (open_and_schedule_tables now sync_ok true m) as (Ha & Hi & _).
    split; [exact Ha|]. split; [exact Hi|].
    apply open_and_schedule_opens.
  - intros f1 m1 f2 m2 Hlen H1 H2 Hone Hne.
    set (eligible := eligibleInactiveSources now
                       ((XRD_ADAPTOR_SHORT_OPEN_DELAY - 1) * 1000) m2) in *.
    destruct (min_element m2 eligible) as [best|] eqn:Hbest.
    2: { destruct eligible; [done|]. discriminate. }
    destruct (min_element_least m2 eligible best Hbest) as [Hin Hleast].
    destruct (checkSourcesImpl_promotes now probe sync_ok m f1 m1 f2 m2 best
                Hlen H1 H2 Hone Hbest) as (r & Hr & Ha & Hi).
    exists best, r. split; [done|].
    unfold eligible, eligibleInactiveSources in Hin, Hleast.
    apply list_elem_of_filter in Hin as [Hold Hin].
    split; [done|]. split; [exact Hold|]. split; [|by split].
    intros q Hq Hqold. apply Hleast. apply list_elem_of_filter. by split.
Qed.

Lemma promotion_after_demotion_only_witness :
  (exists r,
     checkSourcesImpl at_1000 false true s3_manager = Some r
     /\ m_activeSources (state_of r) = [1%nat]
     /\ m_inactiveSources (state_of r) = [2%nat]
     /\ file_opens (m_open_handler (state_of r))
        = ["root://redirector.example.org//store/file.root?tried=a.example.org,b.example.org"%string])
  /\ (exists r,
        checkSourcesImpl at_1000 false true poor_duplex_manager = Some r
        /\ m_activeSources (state_of r) = [2%nat; 3%nat]
        /\ m_inactiveSources (state_of r) = [1%nat]).
Proof.
  split.
  - destruct (proj1 (promotion_after_demotion_only at_1000 false true
                       s3_manager)) as (r & Hr & Ha & Hi & _ & Ho).
    + vm_compute. lia.
    + exists r. split; [exact Hr|]. split; [exact Ha|]. split; [exact Hi|].
      simpl in Ho. destruct Ho as [Ho _]. rewrite Ho. vm_compute. reflexivity.
  - set (m1 := snd (compareSources at_1000 0 1 poor_duplex_manager)).
    destruct (proj2 (promotion_after_demotion_only at_1000 false true
                       poor_duplex_manager)
                false m1 false m1)
      as (best & r & Hb & _ & _ & _ & Hr & Ha & Hi).
    + vm_compute. lia.
    + vm_compute. reflexivity.
    + vm_compute. reflexivity.
    + vm_compute. reflexivity.
    + vm_compute. discriminate.
    + assert (best = 3%nat) as ->.
      { vm_compute in Hb. by injection Hb as <-. }
      exists r. split; [exact Hr|]. split.
      * rewrite Ha. vm_compute. reflexivity.
      * rewrite Hi. vm_compute. reflexivity.
Defined.

(** C5 as the specification states it fails on scenario S3: with [A] the only
    active source and [B] eligible, the call to [handle] passes both time
    gates, and afterwards [B] is still inactive. *)
Lemma promotion_with_one_active_counterexample :
  length (m_activeSources s3_manager) = 1%nat
  /\ eligibleInactiveSources at_1000
       ((XRD_ADAPTOR_SHORT_OPEN_DELAY - 1) * 1000) s3_manager = [2%nat]
  /\ (timeDiffMS at_1000 (m_lastSourceCheck s3_manager) >? 1000) = true
  /\ (timeDiffMS at_1000 (m_nextActiveSourceCheck s3_manager) >? 0) = true
  /\ exists m',
       handle at_1000 false true s3_manager = Some (Done (Some 1%nat) m')
       /\ m_activeSources m' = [1%nat]
       /\ m_inactiveSources m' = [2%nat]
       /\ ~ (1%nat ∈ m_activeSources m' /\ 2%nat ∈ m_activeSources m').
Proof.
  repeat (split; [vm_compute; reflexivity|]).
  eexists. split; [vm_compute; reflexivity|].
  split; [reflexivity|]. split; [reflexivity|].
  simpl. intros [_ H]. apply list_elem_of_singleton in H. discriminate.
Qed.

(** ** The next check (C6) *)

(** C6, as the code has it.  When [checkSourcesImpl] completes, the next
    check is scheduled at the value it leaves in [now]: 115 seconds
    ([XRD_ADAPTOR_LONG_OPEN_DELAY - XRD_ADAPTOR_SHORT_OPEN_DELAY]) after the
    check when two sources are active, and 5 seconds
    ([XRD_ADAPTOR_SHORT_OPEN_DELAY]) after it otherwise. *)
Theorem next_check_schedule now probe sync_ok m now' m' :
  checkSourcesImpl now probe sync_ok m = Some (Done now' m') ->
  m_nextActiveSourceCheck m' = now'
  /\ tv_nsec now' = tv_nsec now
  /\ (length (m_activeSources m') = 2%nat -> tv_sec now' = tv_sec now + 115)
  /\ (length (m_activeSources m') <> 2%nat -> tv_sec now' = tv_sec now + 5).
Proof.
  unfold checkSourcesImpl.
  destruct (if (length (m_activeSources m) <=? 1)%nat then _ else _)
    as [[f m1]|]; [|done].
  unfold open_and_schedule.
  set (opened := if f then _ else _).
  destruct opened as [[] m2|e m2]; [|done].
  intros [= <- <-]. simpl.
  destruct (Nat.eqb (length (m_activeSources m2)) 2) eqn:E.
  - apply Nat.eqb_eq in E. simpl. repeat split; try done.
  - apply Nat.eqb_neq in E. simpl. repeat split; try done.
Qed.

Lemma next_check_schedule_witness :
  exists now' m',
    checkSourcesImpl at_1000 false true duplex_manager = Some (Done now' m')
    /\ m_nextActiveSourceCheck m' = now'
    /\ tv_nsec now' = tv_nsec at_1000
    /\ (length (m_activeSources m') = 2%nat ->
        tv_sec now' = tv_sec at_1000 + 115)
    /\ (length (m_activeSources m') <> 2%nat ->
        tv_sec now' = tv_sec at_1000 + 5).
Proof.
  eexists _, _.
  assert (H : checkSourcesImpl at_1000 false true duplex_manager
              = Some (Done (mkTimespec 1115 0)
                        (set_nextActiveSourceCheck duplex_manager
                           (mkTimespec 1115 0)))).
  { vm_compute. reflexivity. }
  split; [exact H|].
  exact (next_check_schedule _ _ _ _ _ _ H).
Defined.

(** C6 as the specification states it fails with two healthy active
    sources: the check completes with both still active and the next check is
    115 seconds away, not [XRD_ADAPTOR_LONG_OPEN_DELAY] = 120. *)
Lemma next_check_duplex_counterexample :
  exists now' m',
    checkSourcesImpl at_1000 false true duplex_manager = Some (Done now' m')
    /\ length (m_activeSources m') = 2%nat
    /\ tv_sec (m_nextActiveSourceCheck m') = 1115
    /\ tv_sec (m_nextActiveSourceCheck m')
       <> tv_sec at_1000 + XRD_ADAPTOR_LONG_OPEN_DELAY.
Proof.
  eexists _, _. split; [vm_compute; reflexivity|].
  split; [reflexivity|]. split; [reflexivity|]. vm_compute. discriminate.
Qed.

(** ** Invalid responses (C7) *)

(** C7, as the code has it.  [requestFailure] with the status code
    [errInvalidResponse] throws [FileReadError] at once: the request is not
    handed to any source and the manager is left exactly as it was; in
    particular the failing source is not added to the disabled sets by this
    call. *)
Theorem invalid_response_throws now sync_ok reply source_ptr m :
  requestFailure_begin now sync_ok source_ptr errInvalidResponse m
  = Thrown FileReadError m
  /\ requestFailure now sync_ok reply source_ptr errInvalidResponse m
     = Raise FileReadError m.
Proof. split; reflexivity. Qed.

(** C7 as the specification states it fails: after the throw the id of the
    failing source is not in the disabled set. *)
Lemma invalid_response_counterexample :
  requestFailure at_1000 true ReplyNone 1%nat errInvalidResponse
    duplex_manager
  = Raise FileReadError duplex_manager
  /\ ID (source_at duplex_manager 1%nat)
     ∉ m_disabledSourceStrings
         (state_of (requestFailure at_1000 true ReplyNone 1%nat
                      errInvalidResponse duplex_manager)).
Proof. split; [reflexivity|]. simpl. set_solver. Qed.

(** ** The open handler (C9) *)

(** C9.  While the file of an open attempt is held ([m_file] is not null),
    [OpenHandler::open] returns the shared future of that attempt and leaves
    the handler and the manager as they are: no promise is made and no
    [File::Open] is issued.  In particular a call that follows the call that
    started the open returns the same future. *)
Theorem open_in_flight_idempotent sync_ok sync_ok' m future m1 :
  m_file (m_open_handler m) = None ->
  OpenHandler_open sync_ok m = Done future m1 ->
  is_Some (m_file (m_open_handler m1))
  /\ OpenHandler_open sync_ok' m1 = Done future m1
  /\ file_opens (m_open_handler (state_of (OpenHandler_open sync_ok' m1)))
     = file_opens (m_open_handler m1)
  /\ m_promise (m_open_handler (state_of (OpenHandler_open sync_ok' m1)))
     = m_promise (m_open_handler m1).
Proof.
  intros Hidle. unfold OpenHandler_open at 1. rewrite Hidle.
  destruct sync_ok; [|done]. intros [= <- <-].
  assert (H : forall s, OpenHandler_open s
    (set_handler m
       (mkOpenHandler (Some (S (next_state (m_open_handler m))))
          (next_state (m_open_handler m))
          (Some (next_state (m_open_handler m)))
          (m_ignore_response (m_open_handler m))
          (S (S (next_state (m_open_handler m))))
          (file_opens (m_open_handler m)
           ++ [m_name m +:+ separator (m_name m) +:+ prepareOpaqueString m])
          (settled (m_open_handler m))))
    = Done (Some (next_state (m_open_handler m)))
        (set_handler m
       (mkOpenHandler (Some (S (next_state (m_open_handler m))))
          (next_state (m_open_handler m))
          (Some (next_state (m_open_handler m)))
          (m_ignore_response (m_open_handler m))
          (S (S (next_state (m_open_handler m))))
          (file_opens (m_open_handler m)
           ++ [m_name m +:+ separator (m_name m) +:+ prepareOpaqueString m])
          (settled (m_open_handler m))))) by done.
  split; [by eexists|]. rewrite H. by repeat split.
Qed.

Lemma open_in_flight_idempotent_witness :
  exists future m1,
    m_file (m_open_handler duplex_manager) = None
    /\ OpenHandler_open true duplex_manager = Done future m1
    /\ OpenHandler_open false m1 = Done future m1.
Proof.
  eexists _, _.
  assert (Hidle : m_file (m_open_handler duplex_manager) = None)
    by reflexivity.
  assert (Hopen : OpenHandler_open true duplex_manager
                  = Done (Some 1%nat)
                      (state_of (OpenHandler_open true duplex_manager)))
    by reflexivity.
  split; [exact Hidle|]. split; [exact Hopen|].
  exact (proj1 (proj2 (open_in_flight_idempotent true false _ _ _
                         Hidle Hopen))).
Defined.

(** ** The constructor's open attempts (C8) *)

Lemma open_loop_opens transport n idx m :
  (idx <= fst (open_loop transport n idx m) <= idx + n)%nat.
Proof.
  revert idx m. induction n as [|n IH]; intros idx m; simpl; [lia|].
  destruct (open_attempt transport idx m); simpl; try lia.
  specialize (IH (S idx) m0). lia.
Qed.

Lemma open_loop_exhausted transport n idx m m' opens :
  open_loop transport n idx m = (opens, LoopExhausted m') ->
  opens = (idx + n)%nat.
Proof.
  revert idx m. induction n as [|n IH]; intros idx m; simpl.
  - intros [= <- _]. lia.
  - destruct (open_attempt transport idx m); try done.
    intros H. apply IH in H. lia.
Qed.

(** C8, as the code has it.  The constructor issues at most 5 opens and
    throws [FileOpenError] unless one of them succeeds.  A failed attempt
    whose [DataServer] is already in [m_disabledSourceStrings], or whose
    [LastURL] is the URL that was asked for, ends the loop with the throw: no
    further open is issued.  Any other failed attempt adds its [DataServer]
    to [m_disabledSourceStrings] when that property is not empty (an empty
    one is not recorded) and the loop goes on to the next attempt; once five
    attempts have failed this way the constructor throws. *)
Theorem constructor_open_attempts transport :
  (forall timeout ts source obj filename flags perms,
     let run := RequestManager_new transport timeout ts source obj
                  filename flags perms in
     (fst run <= 5)%nat
     /\ match open_loop transport retries 0
                (initial_manager timeout filename flags perms) with
        | (opens, LoopOpened r m) =>
            fst run = opens /\ exists m', snd run = Done tt m'
        | (opens, LoopThrew m) => run = (opens, Raise FileOpenError m)
        | (opens, LoopExhausted m) =>
            run = (opens, Raise FileOpenError m) /\ opens = 5%nat
        end)
  /\ (forall idx m,
        let r := transport idx (new_filename m) in
        IsOK r = false ->
        (DataServer r ∈ m_disabledSourceStrings m ->
         open_attempt transport idx m = Failed m)
        /\ (DataServer r ∉ m_disabledSourceStrings m ->
            exists m',
              m_disabledSourceStrings m'
              = (if Nat.eqb (String.length (DataServer r)) 0
                 then m_disabledSourceStrings m
                 else {[DataServer r]} ∪ m_disabledSourceStrings m)
              /\ open_attempt transport idx m
                 = (if String.eqb (LastURL r) (new_filename m)
                    then Failed m' else Retry m')))
  /\ (forall n idx m m',
        (open_attempt transport idx m = Failed m' ->
         open_loop transport (S n) idx m = (S idx, LoopThrew m'))
        /\ (open_attempt transport idx m = Retry m' ->
            open_loop transport (S n) idx m
            = open_loop transport n (S idx) m')).
Proof.
  split; [|split].
  - intros timeout ts source obj filename flags perms run.
    unfold run, RequestManager_new.
    set (m0 := initial_manager timeout filename flags perms).
    pose proof (open_loop_opens transport retries 0 m0) as Hn.
    pose proof (open_loop_exhausted transport retries 0 m0) as Hx.
    destruct (open_loop transport retries 0 m0) as [opens [r m|m|m]];
      simpl in *; (split; [unfold retries in Hn; lia|]).
    + split; [done|]. by eexists.
    + done.
    + split; [done|]. by apply (Hx m).
  - intros idx m r Hfail. unfold open_attempt. fold r. rewrite Hfail.
    split.
    + intros Hin. by rewrite decide_True.
    + intros Hnotin. rewrite decide_False by done.
      destruct (Nat.eqb (String.length (DataServer r)) 0) eqn:E.
      * exists m. split; [done|]. by destruct (String.eqb _ _).
      * eexists. split; [|reflexivity]. done.
  - intros n idx m m'. split; intros H; simpl; by rewrite H.
Qed.

Lemma constructor_open_attempts_witness :
  RequestManager_new failing_redirector 60 at_1000 1%nat source_of_reply
    "root://redirector.example.org//store/file.root" 0 0
  = (5%nat,
     Raise FileOpenError
       (state_of
          (snd (RequestManager_new failing_redirector 60 at_1000 1%nat
                  source_of_reply
                  "root://redirector.example.org//store/file.root" 0 0))))
  /\ (exists m',
        m_disabledSourceStrings m'
        = {["s0.example.org:1094"%string]}
          ∪ m_disabledSourceStrings fresh_manager
        /\ open_attempt failing_redirector 0 fresh_manager = Retry m').
Proof.
  destruct (constructor_open_attempts failing_redirector) as (H1 & H2 & H3).
  split.
  - specialize (H1 60 at_1000 1%nat source_of_reply
                  "root://redirector.example.org//store/file.root"%string
                  0 0).
    destruct H1 as [_ H1].
    destruct (open_loop failing_redirector retries 0
                (initial_manager 60
                   "root://redirector.example.org//store/file.root" 0 0))
      as [opens [r m|m|m]] eqn:E.
    + vm_compute in E. discriminate E.
    + vm_compute in E. discriminate E.
    + destruct H1 as [H1 ->]. rewrite H1. reflexivity.
  - destruct (H2 0%nat fresh_manager eq_refl) as [_ Hretry].
    destruct Hretry as (m' & Hd & Ha).
    + vm_compute. set_solver.
    + exists m'. split; [exact Hd | exact Ha].
Defined.

(** C8 as the specification states it fails for a failed attempt that names
    no data server: the loop goes on, and the (empty) [DataServer] is not in
    [m_disabledSourceStrings]. *)
Lemma constructor_empty_server_counterexample :
  let r := silent_redirector 0 (new_filename fresh_manager) in
  IsOK r = false
  /\ (DataServer r ∉ m_disabledSourceStrings fresh_manager)
  /\ LastURL r <> new_filename fresh_manager
  /\ exists m',
       open_attempt silent_redirector 0 fresh_manager = Retry m'
       /\ (DataServer r ∉ m_disabledSourceStrings m').
Proof.
  simpl. split; [reflexivity|]. split; [set_solver|].
  split; [vm_compute; discriminate|].
  exists fresh_manager. split; [vm_compute; reflexivity|]. set_solver.
Qed.

(** ** Disabled ids and the active sources (C3) *)

(** [requestFailure] checks the id of the source it installs. *)
Lemma requestFailure_resume_checks_id w m new_source m' :
  no_disabled_active m ->
  requestFailure_resume w m = Done new_source m' ->
  no_disabled_active m'.
Proof.
  unfold requestFailure_resume. destruct w as [| |p]; try done.
  destruct (decide _) as [|Hnot]; [done|].
  intros Hinv [= <- <-] q Hq. simpl in *.
  apply elem_of_app in Hq as [Hq|Hq].
  - by apply Hinv.
  - apply list_elem_of_singleton in Hq. by subst.
Qed.

(** C3 on the code: [handleOpen] looks for the id of the new source among
    the active and the inactive sources only.  With [host_a] disabled and an
    open in flight, the callback for a successful open that landed on
    [host_a] again makes that source active. *)
Theorem handleOpen_admits_disabled_id :
  let obj := mkSource host_a 0 never in
  let m' := HandleResponseWithHosts true 2%nat obj reopening_manager in
  no_disabled_active reopening_manager
  /\ host_a ∈ m_disabledSourceStrings reopening_manager
  /\ m_activeSources m' = [1%nat; 2%nat]
  /\ ID (source_at m' 2%nat) = host_a
  /\ ID (source_at m' 2%nat) ∈ m_disabledSourceStrings m'
  /\ ~ no_disabled_active m'.
Proof.
  intros obj m'.
  assert (Hin : host_a ∈ m_disabledSourceStrings m').
  { vm_compute. set_solver. }
  split; [|split; [|split; [|split; [|split]]]].
  - intros p Hp. vm_compute in Hp. apply list_elem_of_singleton in Hp.
    subst p. vm_compute. set_solver.
  - vm_compute. set_solver.
  - vm_compute. reflexivity.
  - vm_compute. reflexivity.
  - exact Hin.
  - intros H. apply (H 2%nat).
    + vm_compute. set_solver.
    + exact Hin.
Qed.

(** ** One collection per source (C4) *)

(** C4 on the code: [requestFailure] takes the failed source out of
    [m_activeSources] only.  When the source was demoted while its read was
    in flight, it ends up both inactive and disabled. *)
Theorem requestFailure_leaves_inactive :
  collections_disjoint demoted_manager
  /\ exists m',
       requestFailure at_1000 true ReplyNone 2%nat errOperationExpired
         demoted_manager = Done 1%nat m'
       /\ in_inactive m' 2%nat
       /\ in_disabled m' 2%nat
       /\ ~ collections_disjoint m'.
Proof.
  split.
  - intros p. unfold in_active, in_inactive, in_disabled. simpl.
    split; [|split].
    + intros [H1 H2]. apply list_elem_of_singleton in H1, H2. congruence.
    + intros [_ H]. by apply not_elem_of_empty in H.
    + intros [_ H]. by apply not_elem_of_empty in H.
  - eexists. split; [vm_compute; reflexivity|].
    assert (Hi : in_inactive
      (state_of (requestFailure at_1000 true ReplyNone 2%nat
                   errOperationExpired demoted_manager)) 2%nat).
    { unfold in_inactive. vm_compute. set_solver. }
    assert (Hd : in_disabled
      (state_of (requestFailure at_1000 true ReplyNone 2%nat
                   errOperationExpired demoted_manager)) 2%nat).
    { unfold in_disabled. simpl. set_solver. }
    split; [exact Hi|]. split; [exact Hd|].
    intros H. destruct (H 2%nat) as (_ & _ & Hne). apply Hne. by split.
Qed.

(** ** The health check terminates *)

Lemma min_element_in m l p : min_element m l = Some p -> p ∈ l.
Proof.
  destruct l as [|p0 rest]; [done|]. simpl. intros [= <-].
  assert (H : forall (l all : list ptr) acc,
    acc ∈ all -> (forall q, q ∈ l -> q ∈ all) ->
    foldl (fun best q =>
             if getQuality m q <? getQuality m best then q else best)
          acc l ∈ all).
  { induction l as [|q l IH]; intros all acc Hacc Hsub; simpl; [done|].
    apply IH.
    - destruct (_ <? _); [|done]. apply Hsub. by left.
    - intros x Hx. apply Hsub. by right. }
  apply H; [by left|]. intros q Hq. by right.
Qed.

Lemma max_element_in m l i p : max_element m l = Some (i, p) -> p ∈ l.
Proof.
  destruct l as [|p0 rest]; [done|]. simpl.
  assert (H : forall (l all : list ptr) acc,
    snd (fst acc) ∈ all -> (forall q, q ∈ l -> q ∈ all) ->
    snd (fst (foldl (fun '(best, j) q =>
                       if getQuality m (snd best) <? getQuality m q
                       then ((j, q), S j) else (best, S j))
                    acc l)) ∈ all).
  { induction l as [|q l IH]; intros all [[bi bp] j] Hacc Hsub; simpl;
      [done|].
    apply IH.
    - destruct (_ <? _); simpl; [|done]. apply Hsub. by left.
    - intros x Hx. apply Hsub. by right. }
  intros E.
  specialize (H rest (p0 :: rest) ((0%nat, p0), 1%nat)).
  simpl in H. injection E as E. rewrite E in H. simpl in H.
  apply H; [by left|]. intros q Hq. by right.
Qed.

Lemma timeDiffMS_same t : timeDiffMS t t = 0.
Proof. unfold timeDiffMS. by rewrite !Z.sub_diag. Qed.

Lemma erase_first_length_filter (P : ptr -> Prop)
    `{!forall x, Decision (P x)} p l :
  (length (filter P (erase_first p l)) <= length (filter P l))%nat
  /\ (p ∈ l -> P p ->
      (length (filter P (erase_first p l)) < length (filter P l))%nat).
Proof.
  induction l as [|q l [IH1 IH2]]; simpl.
  - split; [done|]. intros Hin. by apply not_elem_of_nil in Hin.
  - destruct (decide (q = p)) as [->|Hne].
    + rewrite filter_cons.
      destruct (decide (P p)); simpl; (split; [lia|]); intros _ HP;
        [lia|done].
    + rewrite !filter_cons. destruct (decide (P q)); simpl.
      * split; [lia|]. intros Hin HP.
        apply elem_of_cons in Hin as [->|Hin]; [done|].
        specialize (IH2 Hin HP). lia.
      * split; [lia|]. intros Hin HP.
        apply elem_of_cons in Hin as [->|Hin]; [done|]. by apply IH2.
Qed.

Lemma length_filter_mono (P Q : ptr -> Prop)
    `{!forall x, Decision (P x)} `{!forall x, Decision (Q x)} l :
  (forall x, x ∈ l -> P x -> Q x) ->
  (length (filter P l) <= length (filter Q l))%nat
  /\ (forall b, b ∈ l -> Q b -> ~ P b ->
        (length (filter P l) < length (filter Q l))%nat).
Proof.
  induction l as [|q l IH]; intros Himp.
  - split; [done|]. intros b Hin. by apply not_elem_of_nil in Hin.
  - destruct IH as [IH1 IH2].
    { intros x Hx. apply Himp. by right. }
    rewrite !filter_cons.
    destruct (decide (P q)) as [HP|HP], (decide (Q q)) as [HQ|HQ]; simpl.
    + split; [lia|]. intros b Hb HQb HPb.
      apply elem_of_cons in Hb as [->|Hb]; [done|].
      specialize (IH2 b Hb HQb HPb). lia.
    + exfalso. apply HQ, Himp; [by left|done].
    + split; [lia|]. intros; lia.
    + split; [lia|]. intros b Hb HQb HPb.
      apply elem_of_cons in Hb as [->|Hb]; [done|]. by eapply IH2.
Qed.

Lemma getLastDowngrade_set m w now p :
  is_Some (sources m !! w) ->
  getLastDowngrade (setLastDowngrade m w now) p
  = if decide (p = w) then now else getLastDowngrade m p.
Proof.
  intros [s Hs]. unfold getLastDowngrade, source_at, setLastDowngrade. simpl.
  destruct (decide (p = w)) as [->|Hne].
  - rewrite lookup_alter_eq, Hs. done.
  - by rewrite lookup_alter_ne.
Qed.

Lemma pointers_valid_swap now b w m :
  pointers_valid m ->
  b ∈ m_inactiveSources m ->
  snd w ∈ m_activeSources m ->
  pointers_valid (swap_sources now b w m).
Proof.
  intros Hv Hb Hw p. unfold swap_sources. simpl.
  intros Hp.
  assert (Hold : p ∈ m_activeSources m ++ m_inactiveSources m).
  { rewrite !elem_of_app in Hp. rewrite elem_of_app.
    destruct Hp as [[Hp|Hp]|[Hp|Hp]].
    - left. by apply list_elem_of_delete_inv in Hp.
    - apply list_elem_of_singleton in Hp. subst. by right.
    - right. revert Hp. clear. induction (m_inactiveSources m) as [|q l IH];
        simpl; [done|].
      destruct (decide (q = b)); [by right|].
      intros H. apply elem_of_cons in H as [->|H]; [by left|].
      right. by apply IH.
    - apply list_elem_of_singleton in Hp. subst. by left. }
  destruct (Hv p Hold) as [s Hs].
  destruct (decide (p = snd w)) as [->|Hne].
  - rewrite lookup_alter_eq, Hs. by eexists.
  - rewrite lookup_alter_ne by done. by eexists.
Qed.

Lemma promotable_swap now b w m :
  pointers_valid m ->
  b ∈ m_inactiveSources m ->
  snd w ∈ m_activeSources m ->
  (promotable now (swap_sources now b w m) <= promotable now m)%nat
  /\ ((XRD_ADAPTOR_LONG_OPEN_DELAY - 1) * 1000
      < timeDiffMS now (getLastDowngrade m b) ->
      (promotable now (swap_sources now b w m) < promotable now m)%nat).
Proof.
  intros Hv Hb Hw.
  assert (Hws : is_Some (sources m !! snd w)).
  { apply Hv. apply elem_of_app. by left. }
  unfold promotable, eligibleInactiveSources, swap_sources. simpl.
  set (ms := (XRD_ADAPTOR_LONG_OPEN_DELAY - 1) * 1000).
  set (m1 := set_active _ _).
  assert (Hg : forall p, getLastDowngrade m1 p
               = if decide (p = snd w) then now else getLastDowngrade m p).
  { intros p. rewrite <- (getLastDowngrade_set m (snd w) now p Hws). done. }
  set (P' := fun p => ms < timeDiffMS now (getLastDowngrade m1 p)).
  set (P := fun p => ms < timeDiffMS now (getLastDowngrade m p)).
  assert (HnotW : ~ P' (snd w)).
  { unfold P'. rewrite Hg, decide_True by done. rewrite timeDiffMS_same.
    unfold ms. vm_compute. discriminate. }
  assert (Himp : forall x, P' x -> P x).
  { intros x. unfold P', P. rewrite Hg. destruct (decide (x = snd w)) as [->|];
      [|done]. intros H. exfalso. apply HnotW. unfold P'. rewrite Hg.
    by rewrite decide_True. }
  rewrite filter_app, length_app.
  rewrite (filter_cons_False P' (snd w)) by done. simpl.
  rewrite Nat.add_0_r.
  destruct (erase_first_length_filter P' b (m_inactiveSources m))
    as [E1 E2].
  destruct (length_filter_mono P' P (m_inactiveSources m)) as [M1 M2].
  { intros x _. apply Himp. }
  split; [lia|]. intros HPb.
  destruct (decide (P' b)) as [HP'b|HP'b].
  - specialize (E2 Hb HP'b). lia.
  - specialize (M2 b Hb HPb HP'b). lia.
Qed.

Lemma swap_loop_terminates now fuel best worst m :
  pointers_valid m ->
  (forall b, best = Some b -> b ∈ m_inactiveSources m) ->
  (forall w, worst = Some w -> snd w ∈ m_activeSources m) ->
  (promotable now m < fuel)%nat
  \/ ((promotable now m <= fuel)%nat
      /\ forall b, best = Some b ->
           (XRD_ADAPTOR_LONG_OPEN_DELAY - 1) * 1000
           < timeDiffMS now (getLastDowngrade m b)) ->
  exists m', swap_loop fuel now best worst m = Some m'
             /\ pointers_valid m'.
Proof.
  revert best worst m. induction fuel as [|n IH];
    intros best worst m Hv Hb Hw Hfuel.
  - simpl. destruct best as [b|]; [|by eauto].
    destruct worst as [w|]; [|by eauto].
    destruct (_ >? _); [|by eauto].
    exfalso. destruct Hfuel as [Hf|[Hf Hel]]; [lia|].
    specialize (Hel b eq_refl). specialize (Hb b eq_refl).
    assert (0 < promotable now m)%nat; [|lia].
    unfold promotable, eligibleInactiveSources.
    assert (Hin : b ∈ filter
      (fun p => (XRD_ADAPTOR_LONG_OPEN_DELAY - 1) * 1000
                < timeDiffMS now (getLastDowngrade m p))
      (m_inactiveSources m)).
    { apply list_elem_of_filter. by split. }
    destruct (filter _ _); [by apply not_elem_of_nil in Hin|simpl; lia].
  - simpl. destruct best as [b|]; [|by eauto].
    destruct worst as [w|]; [|by eauto].
    destruct (_ >? _); [|by eauto].
    specialize (Hb b eq_refl). specialize (Hw w eq_refl).
    destruct (promotable_swap now b w m Hv Hb Hw) as [Hle Hlt].
    pose proof (pointers_valid_swap now b w m Hv Hb Hw) as Hv'.
    set (m' := swap_sources now b w m) in *.
    apply IH; [done| | |].
    + intros b' Hb'. apply min_element_in in Hb'.
      unfold eligibleInactiveSources in Hb'.
      apply list_elem_of_filter in Hb' as [_ Hb']. done.
    + intros w' Hw'. destruct w' as [i p]. by apply max_element_in in Hw'.
    + right. split.
      * destruct Hfuel as [Hf|[Hf Hel]]; [lia|].
        specialize (Hlt (Hel b eq_refl)). lia.
      * intros b' Hb'. apply min_element_in in Hb'.
        unfold eligibleInactiveSources in Hb'.
        apply list_elem_of_filter in Hb' as [Hb' _]. done.
Qed.

Lemma pointers_valid_compareSources now a b m :
  pointers_valid m -> pointers_valid (snd (compareSources now a b m)).
Proof.
  intros Hv. unfold compareSources.
  destruct (_ <? _)%nat; [done|].
  destruct (m_activeSources m !! a) as [pa|] eqn:Ha; [|done].
  destruct (m_activeSources m !! b) as [pb|]; [|done].
  destruct (_ || _); [|done]. simpl.
  intros p Hp. simpl in Hp.
  assert (Hold : p ∈ m_activeSources m ++ m_inactiveSources m).
  { rewrite !elem_of_app in Hp. rewrite elem_of_app.
    destruct Hp as [Hp|[Hp|Hp]].
    - left. by apply list_elem_of_delete_inv in Hp.
    - by right.
    - apply list_elem_of_singleton in Hp. subst. left.
      by eapply list_elem_of_lookup_2. }
  destruct (Hv p Hold) as [s Hs]. simpl.
  destruct (decide (p = pa)) as [->|Hne].
  - rewrite lookup_alter_eq, Hs. by eexists.
  - rewrite lookup_alter_ne by done. by eexists.
Qed.

(** The fuel given to the swap loop is enough: [checkSourcesImpl] always
    completes. *)
Lemma checkSourcesImpl_terminates now probe sync_ok m :
  pointers_valid m ->
  exists r, checkSourcesImpl now probe sync_ok m = Some r.
Proof.
  intros Hv. unfold checkSourcesImpl.
  destruct (_ <=? _)%nat; [by eauto|].
  unfold check_two_sources.
  pose proof (pointers_valid_compareSources now 0 1 m Hv) as Hv1.
  destruct (compareSources now 0 1 m) as [f1 m1]. simpl in Hv1.
  pose proof (pointers_valid_compareSources now 1 0 m1 Hv1) as Hv2.
  destruct (compareSources now 1 0 m1) as [f2 m2]. simpl in Hv2.
  set (eligible := eligibleInactiveSources now _ m2).
  destruct (min_element m2 eligible) as [b|] eqn:Hb.
  - destruct (Nat.eqb _ 1).
    + destruct (_ && _); eauto.
    + destruct (swap_loop_terminates now (S (length (m_inactiveSources m2)))
                  (Some b) (max_element m2 (m_activeSources m2)) m2)
        as (m3 & -> & _); [done| | | |].
      * intros b' [= <-]. apply min_element_in in Hb.
        unfold eligible, eligibleInactiveSources in Hb.
        by apply list_elem_of_filter in Hb as [_ Hb].
      * intros [i p] Hw. by apply max_element_in in Hw.
      * left. unfold promotable, eligibleInactiveSources.
        pose proof (length_filter
          (fun p => (XRD_ADAPTOR_LONG_OPEN_DELAY - 1) * 1000
                    < timeDiffMS now (getLastDowngrade m2 p))
          (m_inactiveSources m2)). lia.
      * destruct (_ && _); eauto.
  - destruct (_ && _); eauto.
Qed.

(** ** The operations that keep every source in one collection *)

Lemma tables_ok_disjoint m : tables_ok m -> collections_disjoint m.
Proof.
  intros [_ _ _ Hai Had Hid] p. unfold in_active, in_inactive, in_disabled.
  split; [|split]; intros [H1 H2].
  - by apply (Hai p).
  - by apply (Had p).
  - by apply (Hid p).
Qed.

Lemma erase_first_spec p (l : list ptr) :
  (p ∈ l -> l ≡ₚ p :: erase_first p l)
  /\ (p ∉ l -> erase_first p l = l).
Proof.
  induction l as [|q l [IH1 IH2]]; simpl.
  - split; [intros H; by apply not_elem_of_nil in H | done].
  - destruct (decide (q = p)) as [->|Hne].
    + split; [done|]. intros H. exfalso. apply H. by left.
    + split.
      * intros H. apply elem_of_cons in H as [->|H]; [done|].
        rewrite (IH1 H) at 1. apply Permutation_swap.
      * intros H. f_equal. apply IH2. intros Hin. apply H. by right.
Qed.

Lemma erase_first_elem p q (l : list ptr) : q ∈ erase_first p l -> q ∈ l.
Proof.
  destruct (decide (p ∈ l)) as [Hin|Hnin].
  - intros H. rewrite (proj1 (erase_first_spec p l) Hin). by right.
  - by rewrite (proj2 (erase_first_spec p l) Hnin).
Qed.

Lemma erase_first_NoDup p (l : list ptr) :
  NoDup l -> NoDup (erase_first p l) /\ p ∉ erase_first p l.
Proof.
  intros Hnd. destruct (decide (p ∈ l)) as [Hin|Hnin].
  - rewrite (proj1 (erase_first_spec p l) Hin) in Hnd.
    apply NoDup_cons in Hnd as [H1 H2]. by split.
  - rewrite (proj2 (erase_first_spec p l) Hnin). by split.
Qed.

Lemma delete_NoDup i p (l : list ptr) :
  NoDup l -> l !! i = Some p -> NoDup (delete i l) /\ p ∉ delete i l.
Proof.
  intros Hnd Hi. rewrite (delete_Permutation l i p Hi) in Hnd.
  apply NoDup_cons in Hnd as [H1 H2]. by split.
Qed.

Lemma max_element_lookup m l i p :
  max_element m l = Some (i, p) -> l !! i = Some p.
Proof.
  destruct l as [|p0 rest]; [done|]. simpl.
  assert (H : forall (rest pre : list ptr) acc,
    snd acc = length pre ->
    (pre ++ rest) !! fst (fst acc) = Some (snd (fst acc)) ->
    let r := foldl (fun '(best, j) q =>
                      if getQuality m (snd best) <? getQuality m q
                      then ((j, q), S j) else (best, S j))
                   acc rest in
    (pre ++ rest) !! fst (fst r) = Some (snd (fst r))).
  { clear. induction rest as [|q rest IH]; intros pre [[bi bp] j] Hj Hb;
      simpl in *; [done|].
    replace (pre ++ q :: rest) with ((pre ++ [q]) ++ rest) in *
      by (by rewrite <- app_assoc).
    destruct (_ <? _); apply IH; simpl; rewrite ?length_app; simpl;
      try lia; try done.
    subst j. rewrite lookup_app_l by (rewrite length_app; simpl; lia).
    rewrite lookup_app_r by lia. by rewrite Nat.sub_diag. }
  intros E. specialize (H rest [p0] ((0%nat, p0), 1%nat) eq_refl eq_refl).
  simpl in H. injection E as E. rewrite E in H. done.
Qed.

Lemma compareSources_tables_ok now a b m :
  tables_ok m -> tables_ok (snd (compareSources now a b m)).
Proof.
  intros Hm. unfold compareSources.
  destruct (_ <? _)%nat; [done|].
  destruct (m_activeSources m !! a) as [pa|] eqn:Ha; [|done].
  destruct (m_activeSources m !! b) as [pb|]; [|done].
  destruct (_ || _); [|done]. simpl.
  destruct Hm as [Hna Hni Hlen Hai Had Hid].
  assert (Hpa : pa ∈ m_activeSources m) by by eapply list_elem_of_lookup_2.
  destruct (delete_NoDup a pa _ Hna Ha) as [Hnd Hnot].
  split; simpl.
  - done.
  - apply NoDup_app. split; [done|]. split; [|apply NoDup_singleton].
    intros q Hq Hq'. apply list_elem_of_singleton in Hq'. subst.
    by apply (Hai pa).
  - rewrite length_delete by by eexists. lia.
  - intros q Hq Hq'. apply elem_of_app in Hq' as [Hq'|Hq'].
    + apply (Hai q); [|done]. by apply list_elem_of_delete_inv in Hq.
    + apply list_elem_of_singleton in Hq'. by subst.
  - intros q Hq. apply Had. by apply list_elem_of_delete_inv in Hq.
  - intros q Hq. apply elem_of_app in Hq as [Hq|Hq]; [by apply Hid|].
    apply list_elem_of_singleton in Hq. subst. by apply Had.
Qed.

Lemma swap_sources_tables_ok now b w m :
  tables_ok m ->
  b ∈ m_inactiveSources m ->
  m_activeSources m !! fst w = Some (snd w) ->
  tables_ok (swap_sources now b w m).
Proof.
  intros [Hna Hni Hlen Hai Had Hid] Hb Hw. unfold swap_sources.
  assert (Hwa : snd w ∈ m_activeSources m) by by eapply list_elem_of_lookup_2.
  destruct (delete_NoDup _ _ _ Hna Hw) as [Hnd Hnot].
  destruct (erase_first_NoDup b _ Hni) as [Hne Hnb].
  split; simpl.
  - apply NoDup_app. split; [done|]. split; [|apply NoDup_singleton].
    intros q Hq Hq'. apply list_elem_of_singleton in Hq'. subst.
    apply list_elem_of_delete_inv in Hq. by apply (Hai b).
  - apply NoDup_app. split; [done|]. split; [|apply NoDup_singleton].
    intros q Hq Hq'. apply list_elem_of_singleton in Hq'. subst.
    apply erase_first_elem in Hq. by apply (Hai (snd w)).
  - rewrite length_app, length_delete by by eexists. simpl.
    apply lookup_lt_Some in Hw. lia.
  - intros q Hq Hq'.
    apply elem_of_app in Hq as [Hq|Hq];
      apply elem_of_app in Hq' as [Hq'|Hq'].
    + apply (Hai q); [by apply list_elem_of_delete_inv in Hq|].
      by apply erase_first_elem in Hq'.
    + apply list_elem_of_singleton in Hq'. by subst.
    + apply list_elem_of_singleton in Hq. by subst.
    + apply list_elem_of_singleton in Hq, Hq'. subst.
      by apply (Hai (snd w)).
  - intros q Hq. apply elem_of_app in Hq as [Hq|Hq].
    + apply Had. by apply list_elem_of_delete_inv in Hq.
    + apply list_elem_of_singleton in Hq. subst. by apply Hid.
  - intros q Hq. apply elem_of_app in Hq as [Hq|Hq].
    + apply Hid. by apply erase_first_elem in Hq.
    + apply list_elem_of_singleton in Hq. subst. by apply Had.
Qed.

Lemma swap_loop_tables_ok now fuel best worst m m' :
  tables_ok m ->
  (forall b, best = Some b -> b ∈ m_inactiveSources m) ->
  (forall w, worst = Some w -> m_activeSources m !! fst w = Some (snd w)) ->
  swap_loop fuel now best worst m = Some m' ->
  tables_ok m'.
Proof.
  revert best worst m. induction fuel as [|n IH];
    intros best worst m Hm Hb Hw; simpl.
  - destruct best as [b|]; [|by intros [= <-]].
    destruct worst as [w|]; [|by intros [= <-]].
    destruct (_ >? _); [done|by intros [= <-]].
  - destruct best as [b|]; [|by intros [= <-]].
    destruct worst as [w|]; [|by intros [= <-]].
    destruct (_ >? _); [|by intros [= <-]].
    apply IH.
    + apply swap_sources_tables_ok; auto.
    + intros b' Hb'. apply min_element_in in Hb'.
      unfold eligibleInactiveSources in Hb'.
      by apply list_elem_of_filter in Hb' as [_ Hb'].
    + intros [i p] Hw'. by apply max_element_lookup in Hw'.
Qed.

Lemma check_two_sources_tables_ok now probe m f m' :
  tables_ok m ->
  check_two_sources now probe m = Some (f, m') ->
  tables_ok m'.
Proof.
  intros Hm. unfold check_two_sources.
  pose proof (compareSources_tables_ok now 0 1 m Hm) as H1.
  destruct (compareSources now 0 1 m) as [f1 m1]. simpl in H1.
  pose proof (compareSources_tables_ok now 1 0 m1 H1) as H2.
  destruct (compareSources now 1 0 m1) as [f2 m2]. simpl in H2.
  set (eligible := eligibleInactiveSources now _ m2).
  assert (Hend : forall (o : option RequestManager),
    (forall m3, o = Some m3 -> tables_ok m3) ->
    match o with
    | Some m3 =>
        if negb (f1 || f2)
           && (timeDiffMS now (m_lastSourceCheck m)
               >? 1000 * XRD_ADAPTOR_LONG_OPEN_DELAY)
        then Some (if probe then true else f1 || f2, m3)
        else Some (f1 || f2, m3)
    | None => None
    end = Some (f, m') -> tables_ok m').
  { intros [m3|] Ho; [|done]. specialize (Ho m3 eq_refl).
    destruct (_ && _); by intros [= _ <-]. }
  destruct (min_element m2 eligible) as [b|] eqn:Hb.
  - assert (Hbin : b ∈ m_inactiveSources m2).
    { apply min_element_in in Hb. unfold eligible, eligibleInactiveSources in Hb.
      by apply list_elem_of_filter in Hb as [_ Hb]. }
    destruct (Nat.eqb (length (m_activeSources m2)) 1) eqn:Hone.
    + apply (Hend (Some _)). intros m3 [= <-]. apply Nat.eqb_eq in Hone.
      destruct H2 as [Hna Hni Hlen Hai Had Hid].
      destruct (erase_first_NoDup b _ Hni) as [Hne Hnb].
      split; simpl.
      * apply NoDup_app. split; [done|]. split; [|apply NoDup_singleton].
        intros q Hq Hq'. apply list_elem_of_singleton in Hq'. subst.
        by apply (Hai b).
      * done.
      * rewrite length_app. simpl. lia.
      * intros q Hq Hq'. apply elem_of_app in Hq as [Hq|Hq].
        -- apply (Hai q Hq). by apply erase_first_elem in Hq'.
        -- apply list_elem_of_singleton in Hq. by subst.
      * intros q Hq. apply elem_of_app in Hq as [Hq|Hq]; [by apply Had|].
        apply list_elem_of_singleton in Hq. subst. by apply Hid.
      * intros q Hq. apply Hid. by apply erase_first_elem in Hq.
    + apply (Hend (swap_loop _ _ _ _ _)). intros m3 Hloop.
      eapply swap_loop_tables_ok; [exact H2| | |exact Hloop].
      * by intros b' [= <-].
      * intros [i p] Hw. by apply max_element_lookup in Hw.
  - apply (Hend (Some m2)). by intros m3 [= <-].
Qed.

Lemma tables_ok_same m m' :
  m_activeSources m' = m_activeSources m ->
  m_inactiveSources m' = m_inactiveSources m ->
  m_disabledSources m' = m_disabledSources m ->
  tables_ok m -> tables_ok m'.
Proof.
  intros Ha Hi Hd [H1 H2 H3 H4 H5 H6].
  split; rewrite ?Ha, ?Hi, ?Hd; done.
Qed.

(** The health check keeps every source in one collection. *)
Lemma checkSourcesImpl_tables_ok now probe sync_ok m r :
  tables_ok m ->
  checkSourcesImpl now probe sync_ok m = Some r ->
  tables_ok (state_of r).
Proof.
  intros Hm. unfold checkSourcesImpl.
  destruct (_ <=? _)%nat.
  - intros [= <-].
    pose proof (open_and_schedule_tables now sync_ok true m)
      as (Ha & Hi & Hd & _).
    by eapply tables_ok_same.
  - destruct (check_two_sources now probe m) as [[f m1]|] eqn:E; [|done].
    intros [= <-].
    pose proof (open_and_schedule_tables now sync_ok f m1)
      as (Ha & Hi & Hd & _).
    eapply tables_ok_same; [done..|].
    by eapply check_two_sources_tables_ok.
Qed.

(** [handleOpen] keeps every source in one collection when the source it
    is given is a new object. *)
Lemma handleOpen_tables_ok status_ok source m :
  tables_ok m -> fresh_source m source ->
  tables_ok (handleOpen status_ok source m).
Proof.
  intros Hm (Fa & Fi & Fd). unfold handleOpen, defer_next_check.
  destruct status_ok; [|by apply (tables_ok_same m)].
  destruct (has_id _ _ _); [by apply (tables_ok_same m)|].
  destruct (has_id _ _ _); [by apply (tables_ok_same m)|].
  destruct Hm as [Hna Hni Hlen Hai Had Hid].
  destruct (_ <? _)%nat eqn:Hlt.
  - apply Nat.ltb_lt in Hlt. split; simpl; try done.
    + apply NoDup_app. split; [done|]. split; [|apply NoDup_singleton].
      intros q Hq Hq'. apply list_elem_of_singleton in Hq'. by subst.
    + rewrite length_app. simpl. lia.
    + intros q Hq. apply elem_of_app in Hq as [Hq|Hq]; [by apply Hai|].
      apply list_elem_of_singleton in Hq. by subst.
    + intros q Hq. apply elem_of_app in Hq as [Hq|Hq]; [by apply Had|].
      apply list_elem_of_singleton in Hq. by subst.
  - split; simpl; try done.
    + apply NoDup_app. split; [done|]. split; [|apply NoDup_singleton].
      intros q Hq Hq'. apply list_elem_of_singleton in Hq'. by subst.
    + intros q Hq Hq'. apply elem_of_app in Hq' as [Hq'|Hq'];
        [by apply (Hai q)|].
      apply list_elem_of_singleton in Hq'. by subst.
    + intros q Hq. apply elem_of_app in Hq as [Hq|Hq]; [by apply Hid|].
      apply list_elem_of_singleton in Hq. by subst.
Qed.

Lemma erase_failed_spec source_ptr m :
  NoDup (m_activeSources m) ->
  (length (m_activeSources m) <= 2)%nat ->
  let m' := erase_failed source_ptr m in
  m_inactiveSources m' = m_inactiveSources m
  /\ m_disabledSources m' = m_disabledSources m
  /\ NoDup (m_activeSources m')
  /\ (length (m_activeSources m') <= 2)%nat
  /\ (source_ptr ∉ m_activeSources m')
  /\ (forall q, q ∈ m_activeSources m' -> q ∈ m_activeSources m).
Proof.
  intros Hnd Hlen. unfold erase_failed.
  destruct (m_activeSources m) as [|p0 [|p1 [|p2 rest]]] eqn:E; simpl in *.
  - rewrite E. repeat split; try done. apply not_elem_of_nil.
  - destruct (decide (p0 = source_ptr)) as [->|Hne]; simpl.
    + repeat split; try done; [apply NoDup_nil_2|lia|apply not_elem_of_nil|].
      intros q Hq. by apply not_elem_of_nil in Hq.
    + rewrite E. repeat split; try done.
      intros Hin. apply list_elem_of_singleton in Hin. by subst.
  - apply NoDup_cons in Hnd as [Hn0 Hnd].
    destruct (decide (p0 = source_ptr)) as [->|Hne]; simpl.
    + repeat split; try done; [lia|]. intros q Hq. by right.
    + destruct (decide (p1 = source_ptr)) as [->|Hne1]; simpl.
      * repeat split; try done.
        -- apply NoDup_singleton.
        -- lia.
        -- intros Hin. apply list_elem_of_singleton in Hin. by subst.
        -- intros q Hq. apply list_elem_of_singleton in Hq. subst. by left.
      * rewrite E. repeat split; try done.
        -- by apply NoDup_cons.
        -- intros Hin. apply elem_of_cons in Hin as [->|Hin]; [done|].
           apply list_elem_of_singleton in Hin. by subst.
  - lia.
Qed.



(** When the callback of the recovery open reaches [handleOpen] before the
    failing thread takes the manager's lock back, the new source is pushed
    twice; a later demotion then leaves it both active and inactive. *)
Example recovery_open_pushed_twice :
  exists future m1 m3,
    requestFailure_begin at_1000 true 1%nat errOperationExpired
      simplex_manager = AwaitOpen future m1
    /\ requestFailure_resume (WaitValue 3%nat)
         (HandleResponseWithHosts true 3%nat replica_c m1)
       = Done 3%nat m3
    /\ m_activeSources m3 = [3%nat; 3%nat]
    /\ m_activeSources (snd (compareSources at_1000 0 1 m3)) = [3%nat]
    /\ m_inactiveSources (snd (compareSources at_1000 0 1 m3)) = [3%nat].
Proof.
  eexists _, _, _. split; [vm_compute; reflexivity|].
  split; [vm_compute; reflexivity|].
  split; [reflexivity|]. split; vm_compute; reflexivity.
Qed.

End ManagerFacts.
Module SplitMoreFacts.
Import Split SplitFacts SplitMore.

(** ** How a consume loop spends its budget *)

Lemma sized_sizes_ok l : Forall sized l -> sizes_ok l.
Proof.
  intros H. eapply Forall_impl; [exact H|]. intros b [H1 H2]. bounds. lia.
Qed.

Lemma take_partial_sized io output chunk consumed output' :
  Forall sized output ->
  0 < chunk <= XRD_CL_MAX_CHUNK ->
  take_partial io (back output) output chunk = (consumed, output') ->
  Forall sized output'.
Proof.
  intros Hout Hc. unfold take_partial.
  assert (Hfresh : forall x y,
    (chunk, output ++ [mkIOPosBuffer x y chunk]) = (consumed, output') ->
    Forall sized output').
  { intros x y [= <- <-]. apply Forall_app. split; [done|].
    by apply Forall_singleton. }
  destruct (back output) as [o|] eqn:Hb; [|by apply Hfresh].
  destruct (_ && _) eqn:Hg; [|by apply Hfresh].
  apply andb_prop in Hg as [Hg _]. apply andb_prop in Hg as [_ Hlt].
  apply Z.ltb_lt in Hlt.
  apply back_inv in Hb as [v ->].
  apply Forall_app in Hout as [Hv Ho]. rewrite Forall_singleton in Ho.
  destruct Ho as [Ho1 Ho2].
  rewrite !set_back_snoc.
  pose proof (wrapU_small (size o + chunk)) as W1. bounds.
  rewrite W1 by lia.
  destruct (_ >? _) eqn:Hgt; intros [= <- <-];
    apply Forall_app; (split; [done|]); apply Forall_singleton;
    unfold sized; simpl.
  - lia.
  - rewrite Z.gtb_ltb in Hgt. apply Z.ltb_ge in Hgt. lia.
Qed.

Lemma consumeChunkFront_iter_spend c o c' :
  cursor_ok c ->
  consumeChunkFront_iter c = Some (o, c') ->
  spend_ok c c'.
Proof.
  intros Hok Hiter.
  pose proof (consumeChunkFront_iter_ok c o c' Hok Hiter) as [Hok' _ _ _ _ _].
  destruct Hok as [Hin Hout Hc Hf].
  revert Hiter Hok'. unfold consumeChunkFront_iter, consume_cond.
  destruct (_ && _) eqn:Hcond; [|done].
  apply andb_prop in Hcond as [Hpos _]. apply Z.ltb_lt in Hpos.
  destruct (input c !! front c) as [io|] eqn:Hio; [|done].
  intros [= _ <-].
  pose proof (Forall_lookup_1 _ _ _ _ Hin Hio) as Hsize. simpl in Hsize.
  unfold consumeChunkFront_body.
  destruct (size io >? chunksize c) eqn:Hgt.
  - apply Z.gtb_lt in Hgt.
    destruct (take_partial _ _ _ _) as [consumed output'] eqn:Htp.
    pose proof (fun Hsz =>
      take_partial_sized _ _ _ _ _ Hsz (conj Hpos (proj2 Hc)) Htp).
    apply take_partial_ok in Htp as (Hcons & Hsum & _); [|done|lia].
    intros Hok'. split; simpl; [done|done|].
    rewrite wrapU_small by (bounds; lia). lia.
  - rewrite Z.gtb_ltb in Hgt. apply Z.ltb_ge in Hgt.
    destruct (size io =? 0) eqn:Hz; intros Hok'.
    + by split.
    + apply Z.eqb_neq in Hz. split; simpl; [done| |].
      * intros Hsz. apply Forall_app. split; [done|].
        apply Forall_singleton. unfold sized. lia.
      * rewrite total_size_app, wrapU_small by (bounds; lia). simpl. lia.
Qed.

Lemma consumeChunkBack_iter_spend c o c' :
  cursor_ok c ->
  consumeChunkBack_iter c = Some (o, c') ->
  spend_ok c c'.
Proof.
  intros Hok Hiter.
  pose proof (consumeChunkBack_iter_ok c o c' Hok Hiter) as [Hok' _ _ _ _ _].
  destruct Hok as [Hin Hout Hc Hf].
  revert Hiter Hok'. unfold consumeChunkBack_iter, consume_cond.
  destruct (_ && _) eqn:Hcond; [|done].
  apply andb_prop in Hcond as [Hpos _]. apply Z.ltb_lt in Hpos.
  destruct (back (input c)) as [io|] eqn:Hio; [|done].
  intros [= _ <-].
  apply back_inv in Hio as [l Hl]. rewrite Hl in Hin.
  apply sizes_ok_app in Hin as [_ Hsize].
  apply sizes_ok_singleton in Hsize.
  unfold consumeChunkBack_body.
  destruct (size io >? chunksize c) eqn:Hgt.
  - apply Z.gtb_lt in Hgt.
    destruct (take_partial _ _ _ _) as [consumed output'] eqn:Htp.
    pose proof (fun Hsz =>
      take_partial_sized _ _ _ _ _ Hsz (conj Hpos (proj2 Hc)) Htp).
    apply take_partial_ok in Htp as (Hcons & Hsum & _); [|done|lia].
    intros Hok'. split; simpl; [done|done|].
    rewrite wrapU_small by (bounds; lia). lia.
  - rewrite Z.gtb_ltb in Hgt. apply Z.ltb_ge in Hgt.
    destruct (size io =? 0) eqn:Hz; intros Hok'.
    + by split.
    + apply Z.eqb_neq in Hz. split; simpl; [done| |].
      * intros Hsz. apply Forall_app. split; [done|].
        apply Forall_singleton. unfold sized. lia.
      * rewrite total_size_app, wrapU_small by (bounds; lia). simpl. lia.
Qed.

Lemma consume_loop_spend iter fuel c :
  (forall c o c', cursor_ok c -> iter c = Some (o, c') -> spend_ok c c') ->
  cursor_ok c ->
  spend_ok c (consume_loop iter fuel c).
Proof.
  intros Hiter. revert c. induction fuel as [|n IH]; intros c Hc; simpl.
  - by split.
  - destruct (iter c) as [[o c1]|] eqn:Hi; [|by split].
    destruct (Hiter _ _ _ Hc Hi) as [H1 H2 H3].
    destruct (IH c1 H1) as [K1 K2 K3].
    split; [done|auto|lia].
Qed.







(** ** The size of the fragments handed out *)

Section split_sized.
Variables chunk1 chunk2 : Z.
Hypothesis chunk1_ok : 0 <= chunk1 <= XRD_CL_MAX_CHUNK.
Hypothesis chunk2_ok : 0 <= chunk2 <= XRD_CL_MAX_CHUNK.

Lemma split_round_sized s :
  split_ok s -> Forall sized (req1 s) -> Forall sized (req2 s) ->
  let s' := split_round chunk1 chunk2 s in
  Forall sized (req1 s') /\ Forall sized (req2 s').
Proof.
  intros [Ht H1 H2 Hf Hl] Hs1 Hs2. unfold split_round. simpl.
  set (c0 := mkCursor (s_front s) (tmp_iolist s) (req1 s) chunk1).
  assert (Hc0 : cursor_ok c0) by (by split).
  destruct (consume_loop_ok _ consumeChunkFront_iter_ok (consume_fuel c0)
              c0 Hc0) as (Hc1 & _).
  fold (consumeChunkFront c0) in Hc1.
  destruct (consume_loop_spend consumeChunkFront_iter (consume_fuel c0) c0
              consumeChunkFront_iter_spend Hc0) as [_ K1 _].
  fold (consumeChunkFront c0) in K1.
  set (c1 := consumeChunkFront c0) in *.
  set (b0 := mkCursor (front c1) (input c1) (req2 s) chunk2).
  assert (Hb0 : cursor_ok b0).
  { destruct Hc1. by split. }
  destruct (consume_loop_spend consumeChunkBack_iter (consume_fuel b0) b0
              consumeChunkBack_iter_spend Hb0) as [_ K2 _].
  split; [by apply K1 | by apply K2].
Qed.

Lemma split_loop_sized fuel s s' :
  split_ok s -> Forall sized (req1 s) -> Forall sized (req2 s) ->
  split_loop chunk1 chunk2 fuel s = Some s' ->
  Forall sized (req1 s') /\ Forall sized (req2 s').
Proof.
  revert s. induction fuel as [|n IH]; intros s Hs H1 H2; simpl.
  - destruct (split_cond s); [done|]. by intros [= <-].
  - destruct (split_cond s); [|by intros [= <-]].
    destruct (split_round_ok chunk1 chunk2 chunk1_ok chunk2_ok s Hs)
      as (Hs' & _).
    destruct (split_round_sized s Hs H1 H2) as [K1 K2].
    by apply IH.
Qed.

End split_sized.

Lemma sized_sort l : Forall sized l -> Forall sized (sort_by_offset l).
Proof.
  intros H. unfold sort_by_offset.
  by rewrite merge_sort_Permutation.
Qed.

(** X3. Whatever the offsets of the request, no fragment that
    [splitClientRequest] hands out is empty, and none holds more than
    [XRD_CL_MAX_CHUNK] bytes: the size assertion of [validateList] cannot
    fail on its output. *)
Theorem split_fragments_sized chunk1 chunk2 iolist :
  sizes_ok iolist ->
  Z.of_nat (length iolist) < 2 ^ 64 ->
  0 <= chunk1 <= XRD_CL_MAX_CHUNK ->
  0 <= chunk2 <= XRD_CL_MAX_CHUNK ->
  0 < chunk1 \/ 0 < chunk2 ->
  exists r1 r2,
    split_lists chunk1 chunk2 iolist [] [] = Some (r1, r2)
    /\ Forall sized r1 /\ Forall sized r2.
Proof.
  intros Hok Hlen H1 H2 Hp.
  destruct (split_lists_bytes chunk1 chunk2 iolist Hok Hlen H1 H2 Hp)
    as (r1 & r2 & E & _).
  exists r1, r2. split; [done|].
  revert E. unfold split_lists.
  destruct (Nat.eqb (length iolist) 0); [by intros [= <- <-]|].
  destruct (split_loop _ _ _ _) as [s'|] eqn:El; [|done].
  intros [= <- <-].
  apply split_loop_sized in El as [K1 K2]; simpl; try done.
  - split; by apply sized_sort.
  - split; simpl; auto; try lia; by apply Forall_nil.
Qed.

Lemma split_fragments_sized_witness :
  exists r1 r2,
    split_lists (384 * KiB) (128 * KiB) s5_input [] [] = Some (r1, r2)
    /\ Forall sized r1 /\ Forall sized r2.
Proof.
  apply (split_fragments_sized (384 * KiB) (128 * KiB) s5_input).
  - repeat constructor; vm_compute; done.
  - simpl. lia.
  - vm_compute. split; discriminate.
  - vm_compute. split; discriminate.
  - left. vm_compute. reflexivity.
Defined.

(** ** The bytes a request asks for *)

Lemma cover_app l1 l2 x : cover (l1 ++ l2) x = (cover l1 x + cover l2 x)%nat.
Proof. induction l1 as [|a l1 IH]; simpl; [done|]. rewrite IH. lia. Qed.

Lemma cover_Permutation l1 l2 x : l1 ≡ₚ l2 -> cover l1 x = cover l2 x.
Proof.
  induction 1; simpl; [done | by f_equal | lia | congruence].
Qed.

Lemma cover_sort l x : cover (sort_by_offset l) x = cover l x.
Proof. apply cover_Permutation, merge_sort_Permutation. Qed.

Lemma covers_empty b x : size b = 0 -> covers b x = 0%nat.
Proof.
  intros H. unfold covers, ends. rewrite H. case_bool_decide; [lia|done].
Qed.

(** Cutting [c] bytes off the front of [io]: the piece and the rest ask for
    the bytes of [io]. *)
Lemma covers_cut io piece rest x :
  offset piece = offset io -> 0 <= size piece <= size io ->
  offset rest = offset io + size piece ->
  size rest = size io - size piece ->
  (covers piece x + covers rest x)%nat = covers io x.
Proof.
  intros H1 H2 H3 H4. unfold covers, ends. rewrite H1, H3, H4.
  repeat case_bool_decide; lia.
Qed.

(** Growing [o] by [c] bytes that follow it. *)
Lemma covers_grow o piece o' x :
  offset piece = ends o -> 0 <= size o -> 0 <= size piece ->
  offset o' = offset o -> size o' = size o + size piece ->
  covers o' x = (covers o x + covers piece x)%nat.
Proof.
  intros H1 H2 H3 H4 H5. unfold covers, ends in *. rewrite H1, H4, H5.
  repeat case_bool_decide; lia.
Qed.

Lemma take_partial_cover io output chunk consumed output' :
  in_range io -> chunk < size io -> 0 < chunk <= XRD_CL_MAX_CHUNK ->
  Forall piece_ok output ->
  take_partial io (back output) output chunk = (consumed, output') ->
  0 < consumed <= chunk
  /\ Forall piece_ok output'
  /\ forall x, (covers (advance io consumed) x + cover output' x)%nat
               = (covers io x + cover output x)%nat.
Proof.
  intros Hio Hlt Hc Hout Htp.
  pose proof OFFSET_LIMIT_val as HL.
  assert (Hfresh : forall d,
    (chunk, output ++ [mkIOPosBuffer (offset io) d chunk])
    = (consumed, output') ->
    0 < consumed <= chunk
    /\ Forall piece_ok output'
    /\ forall x, (covers (advance io consumed) x + cover output' x)%nat
                 = (covers io x + cover output x)%nat).
  { intros d [= <- <-].
    destruct (advance_exact io chunk Hio) as [Ao As]; [lia|].
    set (io' := advance io chunk) in *. clearbody io'.
    destruct Hio as (Hs & Ho & He). unfold ends in He.
    split; [lia|]. split.
    - apply Forall_app. split; [done|]. apply Forall_singleton.
      unfold piece_ok, ends. simpl. lia.
    - intros x. rewrite cover_app. simpl.
      rewrite <- (covers_cut io (mkIOPosBuffer (offset io) d chunk) io' x);
        simpl; lia. }
  unfold take_partial in Htp.
  destruct (back output) as [o|] eqn:Hb; [|by eapply Hfresh].
  destruct (_ && _) eqn:Hg; [|by eapply Hfresh].
  apply andb_prop in Hg as [Hg Hadj]. apply andb_prop in Hg as [_ Hsz].
  apply Z.ltb_lt in Hsz. apply Z.eqb_eq in Hadj.
  apply back_inv in Hb as [v ->].
  apply Forall_app in Hout as [Hv Ho]. rewrite Forall_singleton in Ho.
  destruct Ho as (Hos & Hoo & Hoe). unfold ends in Hoe.
  rewrite (wrapS_small (size o)) in Hadj by (bounds; lia).
  rewrite wrapS_small in Hadj by (bounds; lia).
  rewrite !set_back_snoc in Htp.
  rewrite (wrapU_small (size o + chunk)) in Htp by (bounds; lia).
  assert (Hgoal : forall c', 0 < c' <= chunk ->
    size o + c' <= XRD_CL_MAX_CHUNK ->
    Forall piece_ok (v ++ [set_size o (size o + c')])
    /\ forall x,
         (covers (advance io c') x
          + cover (v ++ [set_size o (size o + c')]) x)%nat
         = (covers io x + cover (v ++ [o]) x)%nat).
  { intros c' Hc' Hmax.
    destruct (advance_exact io c' Hio) as [Ao As]; [lia|].
    set (io' := advance io c') in *. clearbody io'.
    destruct Hio as (Hs & Hof & He). unfold ends in He.
    split.
    - apply Forall_app. split; [done|]. apply Forall_singleton.
      unfold piece_ok, ends. simpl. lia.
    - intros x. rewrite !cover_app. simpl.
      set (piece := mkIOPosBuffer (offset io) 0 c').
      rewrite (covers_grow o piece (set_size o (size o + c')) x);
        [|unfold ends; simpl; lia..].
      rewrite <- (covers_cut io piece io' x); simpl; lia. }
  destruct (_ >? _) eqn:Hgt; injection Htp as <- <-.
  - apply Z.gtb_lt in Hgt.
    rewrite wrapU_small by (bounds; lia).
    split; [lia|].
    replace (set_size o XRD_CL_MAX_CHUNK)
      with (set_size o (size o + (XRD_CL_MAX_CHUNK - size o)))
      by (f_equal; lia).
    apply Hgoal; lia.
  - rewrite Z.gtb_ltb in Hgt. apply Z.ltb_ge in Hgt.
    split; [lia|]. apply Hgoal; lia.
Qed.

Lemma consumeChunkFront_iter_cover reference c o c' :
  cursor_cover reference c ->
  consumeChunkFront_iter c = Some (o, c') ->
  cursor_cover reference c'.
Proof.
  intros [Hok Hlive Hout Hcov] Hiter.
  pose proof (consumeChunkFront_iter_ok c o c' Hok Hiter) as [Hok' _ _ _ _ _].
  revert Hiter Hok'. unfold consumeChunkFront_iter, consume_cond.
  destruct (_ && _) eqn:Hcond; [|done].
  apply andb_prop in Hcond as [Hpos _]. apply Z.ltb_lt in Hpos.
  destruct (input c !! front c) as [io|] eqn:Hio; [|done].
  intros [= _ <-].
  destruct (drop_front_insert _ _ _ (advance io 0) Hio) as [Hd _].
  rewrite Hd in Hlive. setoid_rewrite Hd in Hcov. simpl in Hcov.
  apply Forall_cons in Hlive as [Hin Hrest].
  assert (Hchunk : 0 < chunksize c <= XRD_CL_MAX_CHUNK).
  { destruct Hok as [_ _ Hc _]. lia. }
  unfold consumeChunkFront_body.
  destruct (size io >? chunksize c) eqn:Hgt.
  - apply Z.gtb_lt in Hgt.
    destruct (take_partial _ _ _ _) as [consumed output'] eqn:Htp.
    destruct (take_partial_cover _ _ _ _ _ Hin Hgt Hchunk Hout Htp)
      as (C1 & C2 & C3).
    destruct (drop_front_insert _ _ _ (advance io consumed) Hio)
      as [_ Hd'].
    intros Hok'. split; simpl; rewrite ?Hd'; try done.
    + apply Forall_cons. split; [|done]. apply in_range_advance; [done|lia].
    + intros x. simpl. specialize (C3 x). specialize (Hcov x). lia.
  - rewrite Z.gtb_ltb in Hgt. apply Z.ltb_ge in Hgt.
    destruct (size io =? 0) eqn:Hz.
    + apply Z.eqb_eq in Hz.
      intros Hok'. split; simpl; try done.
      intros x. specialize (Hcov x). rewrite (covers_empty io x Hz) in Hcov.
      lia.
    + apply Z.eqb_neq in Hz. destruct Hin as (Hs & Ho & He).
      intros Hok'. split; simpl; try done.
      * apply Forall_app. split; [done|]. apply Forall_singleton.
        unfold piece_ok. lia.
      * intros x. specialize (Hcov x). rewrite cover_app. simpl. lia.
Qed.

Lemma consumeChunkBack_iter_cover reference c o c' :
  cursor_cover reference c ->
  consumeChunkBack_iter c = Some (o, c') ->
  cursor_cover reference c'.
Proof.
  intros [Hok Hlive Hout Hcov] Hiter.
  pose proof (consumeChunkBack_iter_ok c o c' Hok Hiter) as [Hok' _ _ _ _ _].
  revert Hiter Hok'. unfold consumeChunkBack_iter, consume_cond.
  destruct (_ && _) eqn:Hcond; [|done].
  apply andb_prop in Hcond as [Hpos Hlt].
  apply Z.ltb_lt in Hpos. apply Nat.ltb_lt in Hlt.
  destruct (back (input c)) as [io|] eqn:Hio; [|done].
  intros [= _ <-].
  apply back_inv in Hio as [l Hl]. rewrite Hl in Hlive, Hlt.
  setoid_rewrite Hl in Hcov.
  rewrite length_app in Hlt. simpl in Hlt.
  assert (Hd : forall x, drop (front c) (l ++ [x]) = drop (front c) l ++ [x]).
  { intros x. apply drop_app_le. lia. }
  rewrite Hd in Hlive. setoid_rewrite Hd in Hcov.
  apply Forall_app in Hlive as [Hrest Hin]. rewrite Forall_singleton in Hin.
  assert (Hchunk : 0 < chunksize c <= XRD_CL_MAX_CHUNK).
  { destruct Hok as [_ _ Hc _]. lia. }
  unfold consumeChunkBack_body.
  destruct (size io >? chunksize c) eqn:Hgt.
  - apply Z.gtb_lt in Hgt.
    destruct (take_partial _ _ _ _) as [consumed output'] eqn:Htp.
    destruct (take_partial_cover _ _ _ _ _ Hin Hgt Hchunk Hout Htp)
      as (C1 & C2 & C3).
    rewrite ?Hl, ?set_back_snoc. intros Hok'.
    split; simpl; rewrite ?Hd; try done.
    + apply Forall_app. split; [done|]. apply Forall_singleton.
      apply in_range_advance; [done|lia].
    + intros x. specialize (C3 x). specialize (Hcov x).
      rewrite cover_app in *. simpl in *. lia.
  - rewrite Z.gtb_ltb in Hgt. apply Z.ltb_ge in Hgt.
    destruct (size io =? 0) eqn:Hz.
    + apply Z.eqb_eq in Hz.
      rewrite ?Hl, ?pop_back_snoc. intros Hok'. split; simpl; try done.
      intros x. specialize (Hcov x). rewrite cover_app in Hcov.
      simpl in Hcov. rewrite (covers_empty io x Hz) in Hcov. lia.
    + apply Z.eqb_neq in Hz. destruct Hin as (Hs & Ho & He).
      rewrite ?Hl, ?pop_back_snoc. intros Hok'. split; simpl; try done.
      * apply Forall_app. split; [done|]. apply Forall_singleton.
        unfold piece_ok. lia.
      * intros x. specialize (Hcov x). rewrite !cover_app in *.
        simpl in *. lia.
Qed.

Lemma consume_loop_cover iter reference fuel c :
  (forall c o c', cursor_cover reference c -> iter c = Some (o, c') ->
                  cursor_cover reference c') ->
  cursor_cover reference c ->
  cursor_cover reference (consume_loop iter fuel c).
Proof.
  intros Hiter. revert c. induction fuel as [|n IH]; intros c Hc; simpl;
    [done|].
  destruct (iter c) as [[o c1]|] eqn:Hi; [|done].
  apply IH. by eapply Hiter.
Qed.

Lemma split_round_cover reference chunk1 chunk2 s :
  0 <= chunk1 <= XRD_CL_MAX_CHUNK ->
  0 <= chunk2 <= XRD_CL_MAX_CHUNK ->
  split_cover reference s ->
  split_cover reference (split_round chunk1 chunk2 s).
Proof.
  intros H1 H2 [Hok Hlive Hr1 Hr2 Hcov].
  destruct (split_round_ok chunk1 chunk2 H1 H2 s Hok) as (Hok' & _).
  revert Hok'. unfold split_round.
  set (c0 := mkCursor (s_front s) (tmp_iolist s) (req1 s) chunk1).
  assert (Hc0 : cursor_cover
    (fun x => (cover (drop (s_front s) (tmp_iolist s)) x
               + cover (req1 s) x)%nat) c0).
  { destruct Hok. split; simpl; try done; by split. }
  apply (consume_loop_cover consumeChunkFront_iter _ (consume_fuel c0))
    in Hc0; [|apply consumeChunkFront_iter_cover].
  fold (consumeChunkFront c0) in Hc0.
  set (c1 := consumeChunkFront c0) in *.
  destruct Hc0 as [Hok1 Hlive1 Hout1 Hcov1].
  set (b0 := mkCursor (front c1) (input c1) (req2 s) chunk2).
  assert (Hb0 : cursor_cover
    (fun x => (cover (drop (front c1) (input c1)) x
               + cover (req2 s) x)%nat) b0).
  { destruct Hok1, Hok. split; simpl; try done. }
  apply (consume_loop_cover consumeChunkBack_iter _ (consume_fuel b0))
    in Hb0; [|apply consumeChunkBack_iter_cover].
  fold (consumeChunkBack b0) in Hb0.
  assert (Hfr : front (consumeChunkBack b0) = front c1).
  { unfold consumeChunkBack. by rewrite consumeChunkBack_front. }
  set (c2 := consumeChunkBack b0) in *.
  destruct Hb0 as [Hok2 Hlive2 Hout2 Hcov2].
  rewrite Hfr in Hlive2. setoid_rewrite Hfr in Hcov2.
  intros Hok'. split; simpl; try done.
  intros x. specialize (Hcov x). specialize (Hcov1 x). specialize (Hcov2 x).
  simpl in *. lia.
Qed.

Lemma split_loop_cover reference chunk1 chunk2 fuel s s' :
  0 <= chunk1 <= XRD_CL_MAX_CHUNK ->
  0 <= chunk2 <= XRD_CL_MAX_CHUNK ->
  split_loop chunk1 chunk2 fuel s = Some s' ->
  split_cover reference s ->
  split_cover reference s' /\ split_cond s' = false.
Proof.
  intros H1 H2. revert s. induction fuel as [|n IH]; intros s; simpl.
  - destruct (split_cond s) eqn:E; [done|]. by intros [= <-].
  - destruct (split_cond s) eqn:E; [|by intros [= <-]].
    intros El Hs. apply (IH _ El). by apply split_round_cover.
Qed.

(** X4. For a request within the offset bound, overlapping or not, the two
    lists of [splitClientRequest] together ask for every byte of the file
    exactly as often as the request does: no byte is lost, none is added,
    and every fragment handed out lies where the request put it. *)
Theorem split_covers_request chunk1 chunk2 iolist :
  Forall in_range iolist ->
  Z.of_nat (length iolist) < 2 ^ 64 ->
  0 <= chunk1 <= XRD_CL_MAX_CHUNK ->
  0 <= chunk2 <= XRD_CL_MAX_CHUNK ->
  0 < chunk1 \/ 0 < chunk2 ->
  exists r1 r2,
    split_lists chunk1 chunk2 iolist [] [] = Some (r1, r2)
    /\ forall x, (cover r1 x + cover r2 x)%nat = cover iolist x.
Proof.
  intros Hin Hlen H1 H2 Hp.
  assert (Hok : sizes_ok iolist).
  { eapply Forall_impl; [exact Hin|]. by intros b (Hb & _). }
  destruct (split_lists_bytes chunk1 chunk2 iolist Hok Hlen H1 H2 Hp)
    as (r1 & r2 & E & _).
  exists r1, r2. split; [done|].
  revert E. unfold split_lists.
  destruct (Nat.eqb (length iolist) 0) eqn:Hz.
  { apply Nat.eqb_eq, length_zero_iff_nil in Hz. subst.
    by intros [= <- <-]. }
  destruct (split_loop _ _ _ _) as [s'|] eqn:El; [|done].
  intros [= <- <-].
  apply (split_loop_cover (cover iolist)) in El as [[Hs' _ _ _ Hcov] Hc];
    [|done|done|].
  - intros x. specialize (Hcov x). rewrite !cover_sort.
    destruct (decide (s_front s' < length (tmp_iolist s'))%nat) as [Hlt|Hge].
    + apply (split_cond_true s' Hs') in Hlt. congruence.
    + rewrite drop_ge in Hcov by lia. simpl in Hcov. lia.
  - split; simpl; try done.
    + split; simpl; auto; try lia; by apply Forall_nil.
    + intros x. rewrite drop_0. lia.
Qed.

Lemma split_covers_request_witness :
  exists r1 r2,
    split_lists (384 * KiB) (128 * KiB) s5_input [] [] = Some (r1, r2)
    /\ forall x, (cover r1 x + cover r2 x)%nat = cover s5_input x.
Proof.
  apply (split_covers_request (384 * KiB) (128 * KiB) s5_input).
  - repeat constructor; vm_compute; done.
  - simpl. lia.
  - vm_compute. split; discriminate.
  - vm_compute. split; discriminate.
  - left. vm_compute. reflexivity.
Defined.

(** ** Where [consumeChunkBack] takes its bytes *)







(** ** What [validateList] accepts *)

Lemma validateList_from_iff last total req v :
  validateList_from last total req = Some v
  <-> (Forall (fun b => size b <= XRD_CL_MAX_CHUNK /\ offset b < OFFSET_LIMIT)
              req
       /\ strictly_increasing req
       /\ (forall b, head req = Some b -> last < offset b))
      /\ v = foldl (fun acc it => wrapU (acc + size it)) total req.
Proof.
  revert last total. induction req as [|it rest IH]; intros last total; simpl.
  - split.
    + intros [= <-]. repeat split; [constructor|constructor|done].
    + intros [_ ->]. done.
  - destruct (_ && _) eqn:Hg.
    + apply andb_prop in Hg as [Hg H3]. apply andb_prop in Hg as [H1 H2].
      apply Z.gtb_lt in H1. apply Z.leb_le in H2. apply Z.ltb_lt in H3.
      rewrite IH. split.
      * intros [(K1 & K2 & K3) ->]. split; [|done]. split; [|split].
        -- constructor; [|done]. by split.
        -- constructor; [done|]. destruct rest as [|b rest']; constructor.
           by apply K3.
        -- by intros b [= <-].
      * intros [(K1 & K2 & K3) ->]. split; [|done].
        apply Forall_cons in K1 as [_ K1].
        apply Sorted_inv in K2 as [K2 Hhd]. split; [done|]. split; [done|].
        intros b Hb. destruct rest as [|b' rest']; [done|].
        injection Hb as ->. by apply HdRel_inv in Hhd.
    + split; [done|]. intros [(K1 & K2 & K3) _].
      apply Forall_cons in K1 as [[K1 K1'] _].
      specialize (K3 it eq_refl).
      apply andb_false_iff in Hg as [Hg|Hg];
        [apply andb_false_iff in Hg as [Hg|Hg]|].
      * rewrite Z.gtb_ltb in Hg. apply Z.ltb_ge in Hg. lia.
      * apply Z.leb_gt in Hg. lia.
      * apply Z.ltb_ge in Hg. unfold OFFSET_LIMIT in K1'. lia.
Qed.

(** X5. [validateList] passes all its assertions exactly on the lists whose
    offsets are not negative, strictly increasing and below
    [0x1ffffffffff] and whose fragments hold at most [XRD_CL_MAX_CHUNK]
    bytes; what it returns is then the sum of the sizes as a [size_t]. *)
Theorem validateList_accepts req v :
  validateList req = Some v
  <-> (Forall (fun b => size b <= XRD_CL_MAX_CHUNK /\ offset b < OFFSET_LIMIT)
              req
       /\ strictly_increasing req
       /\ (forall b, head req = Some b -> 0 <= offset b))
      /\ v = wrapU (total_size req).
Proof.
  unfold validateList. rewrite validateList_from_iff.
  fold (size_orig req). rewrite size_orig_total.
  split; intros [(K1 & K2 & K3) ->]; (split; [|done]);
    (split; [done|]); (split; [done|]);
    intros b Hb; specialize (K3 b Hb); lia.
Qed.

(** ** Requests whose fragments do not overlap *)

(** X6. On a request whose fragments lie within the offset bound and do
    not overlap, the fragments that [splitClientRequest] hands out do not
    overlap either, neither within one list nor across the two: no byte is
    asked from both sources. *)
Theorem split_keeps_fragments_apart chunk1 chunk2 iolist :
  request_ok iolist ->
  0 <= chunk1 <= XRD_CL_MAX_CHUNK ->
  0 <= chunk2 <= XRD_CL_MAX_CHUNK ->
  0 < chunk1 \/ 0 < chunk2 ->
  exists r1 r2,
    split_lists chunk1 chunk2 iolist [] [] = Some (r1, r2)
    /\ pairwise_apart (r1 ++ r2).
Proof.
  intros [Hrange Hlen Hpw] H1 H2 Hp.
  assert (Hok : sizes_ok iolist).
  { eapply Forall_impl; [exact Hrange|]. by intros b (Hb & _). }
  destruct (split_lists_bytes chunk1 chunk2 iolist Hok Hlen H1 H2 Hp)
    as (r1 & r2 & E & _).
  exists r1, r2. split; [done|].
  revert E. unfold split_lists.
  destruct (Nat.eqb (length iolist) 0); [by intros [= <- <-]|].
  destruct (split_loop _ _ _ _) as [s'|] eqn:El; [|done].
  intros [= <- <-].
  apply split_loop_apart in El as [_ _ _ _ Hpw']; [|done|done|].
  - apply pairwise_apart_app in Hpw' as (_ & Hpw' & _).
    eapply pairwise_apart_Permutation; [|exact Hpw'].
    unfold sort_by_offset. by rewrite !merge_sort_Permutation.
  - split; simpl; try done.
    + split; simpl; auto; try lia; by apply Forall_nil.
    + by rewrite app_nil_r.
Qed.

Lemma split_keeps_fragments_apart_witness :
  exists r1 r2,
    split_lists (384 * KiB) (128 * KiB) s5_input [] [] = Some (r1, r2)
    /\ pairwise_apart (r1 ++ r2).
Proof.
  apply (split_keeps_fragments_apart (384 * KiB) (128 * KiB) s5_input).
  - exact s5_request_ok.
  - vm_compute. split; discriminate.
  - vm_compute. split; discriminate.
  - left. vm_compute. reflexivity.
Defined.

End SplitMoreFacts.

Module ManagerMoreFacts.
Import Manager ManagerFacts ManagerMore.

(** ** Picking a source *)

(** X7. With two active sources [pickSingleSource] alternates: two calls in
    a row hand out the two sources, the first one being
    [m_activeSources[0]] when the toggle is set and [m_activeSources[1]]
    otherwise, and the second call leaves the manager as it was before the
    first. *)
Theorem pickSingleSource_alternates m a b :
  m_activeSources m = [a; b] ->
  let first := pickSingleSource m in
  let second := pickSingleSource (snd first) in
  fst first = Some (if m_nextInitialSourceToggle m then a else b)
  /\ fst second = Some (if m_nextInitialSourceToggle m then b else a)
  /\ snd second = m.
Proof.
  intros Ha. destruct m as [act ina dis ids lc nc tg to nm fl pe oh so].
  simpl in Ha. subst act. destruct tg; done.
Qed.

Lemma pickSingleSource_alternates_witness :
  let first := pickSingleSource duplex_manager in
  let second := pickSingleSource (snd first) in
  fst first = Some (if m_nextInitialSourceToggle duplex_manager
                    then 1%nat else 2%nat)
  /\ fst second = Some (if m_nextInitialSourceToggle duplex_manager
                        then 2%nat else 1%nat)
  /\ snd second = duplex_manager.
Proof.
  apply (pickSingleSource_alternates duplex_manager 1%nat 2%nat).
  reflexivity.
Defined.

(** ** The time gates *)

Lemma timeDiffMS_add_seconds t k :
  timeDiffMS t (add_seconds t k) = - (1000 * k).
Proof.
  unfold timeDiffMS, add_seconds. simpl.
  replace ((tv_sec t - (tv_sec t + k)) * 1000 * 1000000
           + (tv_nsec t - tv_nsec t))
    with (- (1000 * k) * 1000000) by lia.
  by rewrite Z.quot_mul.
Qed.

(** X8. Once [checkSourcesImpl] has completed, [checkSources] does nothing
    until the clock has passed the time it scheduled: called again with the
    same clock reading, or with any reading not later than the scheduled
    one, it leaves the manager as it is and opens nothing. *)
Theorem checkSources_quiet_after_check now probe sync_ok m now' m' :
  checkSourcesImpl now probe sync_ok m = Some (Done now' m') ->
  timeDiffMS now now' < 0
  /\ forall t probe' sync_ok',
       timeDiffMS t now' <= 0 ->
       checkSources t probe' sync_ok' m' = Some (Done t m').
Proof.
  unfold checkSourcesImpl.
  destruct (if (length (m_activeSources m) <=? 1)%nat then _ else _)
    as [[f m1]|]; [|done].
  unfold open_and_schedule.
  set (opened := if f then _ else _).
  destruct opened as [[] m2|e m2]; [|done].
  intros [= <- <-]. split.
  - destruct (Nat.eqb _ 2); rewrite timeDiffMS_add_seconds;
      vm_compute; reflexivity.
  - intros t probe' sync_ok' Ht. unfold checkSources. simpl.
    replace (timeDiffMS t _ >? 0) with false;
      [by rewrite andb_false_r|].
    symmetry. rewrite Z.gtb_ltb. apply Z.ltb_ge. exact Ht.
Qed.

Lemma checkSources_quiet_after_check_witness :
  exists now' m',
    checkSourcesImpl at_1000 false true duplex_manager = Some (Done now' m')
    /\ timeDiffMS at_1000 now' < 0
    /\ forall t probe' sync_ok',
         timeDiffMS t now' <= 0 ->
         checkSources t probe' sync_ok' m' = Some (Done t m').
Proof.
  eexists _, _. split; [vm_compute; reflexivity|].
  apply (checkSources_quiet_after_check at_1000 false true duplex_manager).
  vm_compute. reflexivity.
Defined.

(** ** What the health check does to the tables *)

Lemma conserved_refl m : conserved m m.
Proof. by split. Qed.

Lemma conserved_trans m1 m2 m3 :
  conserved m1 m2 -> conserved m2 m3 -> conserved m1 m3.
Proof.
  intros [A1 A2 A3 A4 A5] [B1 B2 B3 B4 B5]. split.
  - by rewrite B1.
  - congruence.
  - congruence.
  - intros p. by rewrite B4.
  - intros p. by rewrite B5.
Qed.

Lemma source_at_setLastDowngrade m w now p :
  ID (source_at (setLastDowngrade m w now) p) = ID (source_at m p)
  /\ quality (source_at (setLastDowngrade m w now) p)
     = quality (source_at m p).
Proof.
  unfold source_at, setLastDowngrade. simpl.
  destruct (decide (p = w)) as [->|Hne].
  - rewrite lookup_alter_eq. by destruct (sources m !! w).
  - by rewrite lookup_alter_ne.
Qed.

Lemma compareSources_conserved now a b m :
  conserved m (snd (compareSources now a b m)).
Proof.
  unfold compareSources.
  destruct (_ <? _)%nat; [apply conserved_refl|].
  destruct (m_activeSources m !! a) as [pa|] eqn:Ha; [|apply conserved_refl].
  destruct (m_activeSources m !! b) as [pb|]; [|apply conserved_refl].
  destruct (_ || _); [|apply conserved_refl].
  split; simpl; try done.
  - rewrite (delete_Permutation _ _ _ Ha) at 2.
    rewrite app_assoc. rewrite <- Permutation_cons_append. simpl.
    by rewrite Permutation_middle.
  - intros p. apply source_at_setLastDowngrade.
  - intros p. apply source_at_setLastDowngrade.
Qed.

Lemma swap_sources_conserved now b w m :
  b ∈ m_inactiveSources m ->
  m_activeSources m !! fst w = Some (snd w) ->
  conserved m (swap_sources now b w m).
Proof.
  intros Hb Hw. split; simpl; try done.
  - rewrite (delete_Permutation _ _ _ Hw) at 2.
    rewrite (proj1 (erase_first_spec b (m_inactiveSources m)) Hb) at 2.
    rewrite <- !Permutation_cons_append. simpl.
    rewrite <- !Permutation_middle. simpl. apply perm_swap.
  - intros p. apply source_at_setLastDowngrade.
  - intros p. apply source_at_setLastDowngrade.
Qed.

Lemma eligible_inactive now ms m b :
  min_element m (eligibleInactiveSources now ms m) = Some b ->
  b ∈ m_inactiveSources m.
Proof.
  intros H. apply min_element_in in H.
  unfold eligibleInactiveSources in H.
  by apply list_elem_of_filter in H as [_ H].
Qed.

Lemma swap_loop_conserved now fuel best worst m m' :
  (forall b, best = Some b -> b ∈ m_inactiveSources m) ->
  (forall w, worst = Some w -> m_activeSources m !! fst w = Some (snd w)) ->
  swap_loop fuel now best worst m = Some m' ->
  conserved m m'.
Proof.
  revert best worst m. induction fuel as [|n IH]; intros best worst m Hb Hw;
    simpl.
  - destruct best as [b|], worst as [w|]; try (intros [= <-]; apply conserved_refl).
    destruct (_ >? _); [done|]. intros [= <-]. apply conserved_refl.
  - destruct best as [b|], worst as [w|]; try (intros [= <-]; apply conserved_refl).
    destruct (_ >? _); [|intros [= <-]; apply conserved_refl].
    intros E. eapply conserved_trans.
    + apply (swap_sources_conserved now b w m); auto.
    + eapply IH; [| |exact E].
      * intros b'. apply eligible_inactive.
      * intros [i p]. apply max_element_lookup.
Qed.

Lemma check_two_sources_conserved now probe m f m' :
  check_two_sources now probe m = Some (f, m') -> conserved m m'.
Proof.
  unfold check_two_sources.
  pose proof (compareSources_conserved now 0 1 m) as C1.
  destruct (compareSources now 0 1 m) as [f1 m1]. simpl in C1.
  pose proof (compareSources_conserved now 1 0 m1) as C2.
  destruct (compareSources now 1 0 m1) as [f2 m2]. simpl in C2.
  pose proof (conserved_trans _ _ _ C1 C2) as C12.
  set (best := min_element m2 _).
  assert (Hbest : forall b, best = Some b -> b ∈ m_inactiveSources m2).
  { intros b. apply eligible_inactive. }
  assert (Hsw : forall m3,
    match best with
    | Some b =>
        if Nat.eqb (length (m_activeSources m2)) 1 then
          Some (set_inactive (set_active m2 (m_activeSources m2 ++ [b]))
                  (erase_first b (m_inactiveSources m2)))
        else swap_loop (S (length (m_inactiveSources m2))) now best
               (max_element m2 (m_activeSources m2)) m2
    | None => Some m2
    end = Some m3 -> conserved m m3).
  { intros m3. destruct best as [b|] eqn:Eb.
    - destruct (Nat.eqb _ 1).
      + intros [= <-]. eapply conserved_trans; [exact C12|].
        split; simpl; try done.
        rewrite (proj1 (erase_first_spec b (m_inactiveSources m2))
                   (Hbest b eq_refl)) at 2.
        rewrite <- app_assoc. simpl. done.
      + intros E. eapply conserved_trans; [exact C12|].
        eapply swap_loop_conserved; [| |exact E].
        * intros b' [= <-]. by apply Hbest.
        * intros [i p]. apply max_element_lookup.
    - by intros [= <-]. }
  destruct (match best with Some _ => _ | None => _ end) as [m3|]; [|done].
  specialize (Hsw m3 eq_refl).
  destruct (_ && _); intros [= _ <-]; done.
Qed.

Lemma checkSourcesImpl_conserved now probe sync_ok m r :
  checkSourcesImpl now probe sync_ok m = Some r -> conserved m (state_of r).
Proof.
  unfold checkSourcesImpl.
  assert (Hend : forall f m1, conserved m m1 ->
    conserved m (state_of (open_and_schedule now sync_ok f m1))).
  { intros f m1 C.
    pose proof (open_and_schedule_tables now sync_ok f m1)
      as (Ha & Hi & Hd & Hs & Ho).
    simpl in *. eapply conserved_trans; [exact C|].
    split; unfold getQuality, source_at; rewrite ?Ha, ?Hi, ?Ho; done. }
  destruct (_ <=? 1)%nat.
  - intros [= <-]. apply Hend, conserved_refl.
  - destruct (check_two_sources now probe m) as [[f m1]|] eqn:E; [|done].
    intros [= <-]. apply Hend. by eapply check_two_sources_conserved.
Qed.

(** X9. The health check only moves sources between the active and the
    inactive list: afterwards the two lists together hold the sources they
    held before, each as often as before; the disabled sets are the ones
    they were, and no source changed its id or its quality.  The same holds
    for [checkSources], which runs the check or does nothing. *)
Theorem health_check_conserves_sources now probe sync_ok m r :
  checkSources now probe sync_ok m = Some r ->
  conserved m (state_of r).
Proof.
  unfold checkSources. destruct (_ && _).
  - apply checkSourcesImpl_conserved.
  - intros [= <-]. apply conserved_refl.
Qed.

Lemma health_check_conserves_sources_witness :
  exists r,
    checkSources at_1000 false true poor_duplex_manager = Some r
    /\ conserved poor_duplex_manager (state_of r).
Proof.
  eexists. split; [vm_compute; reflexivity|].
  apply (health_check_conserves_sources at_1000 false true).
  vm_compute. reflexivity.
Defined.

Lemma poor_duplex_pointers_valid : pointers_valid poor_duplex_manager.
Proof.
  intros p Hp. simpl in Hp.
  repeat (apply elem_of_cons in Hp as [->|Hp]; [by eexists|]).
  by apply elem_of_nil in Hp.
Defined.

Lemma poor_duplex_tables_ok : tables_ok poor_duplex_manager.
Proof.
  split; simpl.
  - apply (bool_decide_unpack _). vm_compute. exact I.
  - apply (bool_decide_unpack _). vm_compute. exact I.
  - lia.
  - intros p Hp Hq. apply list_elem_of_singleton in Hq. subst p.
    revert Hp. apply (bool_decide_unpack _). vm_compute. exact I.
  - intros p _. apply not_elem_of_empty.
  - intros p _. apply not_elem_of_empty.
Defined.

Lemma simplex_tables_ok : tables_ok simplex_manager.
Proof.
  split; simpl.
  - apply (bool_decide_unpack _). vm_compute. exact I.
  - apply NoDup_nil_2.
  - lia.
  - intros p _. apply not_elem_of_nil.
  - intros p _. apply not_elem_of_empty.
  - intros p _. apply not_elem_of_empty.
Defined.

Lemma checkSources_returns now probe sync_ok m :
  pointers_valid m ->
  exists r, checkSources now probe sync_ok m = Some r.
Proof.
  intros Hv. unfold checkSources. destruct (_ && _).
  - by apply checkSourcesImpl_terminates.
  - by eexists.
Qed.

(** X10. The health check always completes on a manager whose listed
    pointers point to objects: its swap loop ends, whatever the qualities
    and the downgrade times of the sources.  (Each swap stamps the demoted
    source with [now], which keeps it from being promoted again by this
    check.) *)
Theorem health_check_terminates now probe sync_ok m :
  pointers_valid m ->
  exists r, checkSources now probe sync_ok m = Some r.
Proof.
  intros Hv. unfold checkSources.
  destruct (_ && _); [|by eexists].
  destruct (checkSourcesImpl_terminates now probe sync_ok m Hv) as [r Hr].
  by exists r.
Qed.

Lemma health_check_terminates_witness :
  exists r, checkSources at_1000 false true poor_duplex_manager = Some r.
Proof.
  apply (health_check_terminates at_1000 false true poor_duplex_manager).
  exact poor_duplex_pointers_valid.
Defined.

(** X11. The health check keeps the tables well formed: when no source is
    listed twice, at most two sources are active and the active, inactive
    and disabled collections share no source, the same holds after
    [checkSources], whether it returns or throws. *)
Theorem health_check_keeps_tables now probe sync_ok m r :
  tables_ok m ->
  checkSources now probe sync_ok m = Some r ->
  tables_ok (state_of r).
Proof.
  intros Hm. unfold checkSources. destruct (_ && _).
  - by apply checkSourcesImpl_tables_ok.
  - by intros [= <-].
Qed.

Lemma health_check_keeps_tables_witness :
  exists r,
    checkSources at_1000 false true poor_duplex_manager = Some r
    /\ tables_ok (state_of r).
Proof.
  eexists. split; [vm_compute; reflexivity|].
  apply (health_check_keeps_tables at_1000 false true poor_duplex_manager).
  - exact poor_duplex_tables_ok.
  - vm_compute. reflexivity.
Defined.

(** ** A request always finds a source *)

Lemma compareSources_length now a b m :
  (length (m_activeSources m) - 1
   <= length (m_activeSources (snd (compareSources now a b m))))%nat
  /\ ((length (m_activeSources m) < Nat.max a b + 1)%nat ->
      snd (compareSources now a b m) = m).
Proof.
  unfold compareSources.
  destruct (_ <? _)%nat eqn:E.
  - split; [simpl; lia|done].
  - apply Nat.ltb_ge in E. split; [|lia].
    destruct (m_activeSources m !! a) as [pa|]; [|simpl; lia].
    destruct (m_activeSources m !! b) as [pb|]; [|simpl; lia].
    destruct (_ || _); simpl; [|lia].
    rewrite length_delete; [lia|]. apply lookup_lt_is_Some_2. lia.
Qed.

Lemma swap_loop_nonempty now fuel best worst m m' :
  (1 <= length (m_activeSources m))%nat ->
  swap_loop fuel now best worst m = Some m' ->
  (1 <= length (m_activeSources m'))%nat.
Proof.
  revert best worst m. induction fuel as [|n IH]; intros best worst m Hm;
    simpl.
  - destruct best as [b|], worst as [w|]; try (by intros [= <-]).
    destruct (_ >? _); [done|]. by intros [= <-].
  - destruct best as [b|], worst as [w|]; try (by intros [= <-]).
    destruct (_ >? _); [|by intros [= <-]].
    apply IH. simpl. rewrite length_app. simpl. lia.
Qed.

Lemma check_two_sources_nonempty now probe m f m' :
  (2 <= length (m_activeSources m))%nat ->
  check_two_sources now probe m = Some (f, m') ->
  (1 <= length (m_activeSources m'))%nat.
Proof.
  intros Hm. unfold check_two_sources.
  pose proof (compareSources_length now 0 1 m) as [L1 _].
  destruct (compareSources now 0 1 m) as [f1 m1]. simpl in L1.
  pose proof (compareSources_length now 1 0 m1) as [L2 S2].
  destruct (compareSources now 1 0 m1) as [f2 m2]. simpl in L2, S2.
  assert (Hm2 : (1 <= length (m_activeSources m2))%nat).
  { destruct (decide (length (m_activeSources m1) < 2)%nat) as [Hlt|Hge].
    - rewrite S2 by (simpl; lia). lia.
    - lia. }
  set (best := min_element m2 _).
  destruct best as [b|].
  - destruct (Nat.eqb _ 1).
    + destruct (_ && _); intros [= _ <-]; simpl; rewrite length_app; simpl;
        lia.
    + destruct (swap_loop _ _ _ _ _) as [m3|] eqn:E; [|done].
      apply swap_loop_nonempty in E; [|done].
      destruct (_ && _); intros [= _ <-]; done.
  - destruct (_ && _); intros [= _ <-]; done.
Qed.

Lemma checkSources_nonempty now probe sync_ok m r :
  (1 <= length (m_activeSources m))%nat ->
  checkSources now probe sync_ok m = Some r ->
  (1 <= length (m_activeSources (state_of r)))%nat.
Proof.
  intros Hm. unfold checkSources. destruct (_ && _); [|by intros [= <-]].
  unfold checkSourcesImpl.
  assert (Hend : forall f m1, (1 <= length (m_activeSources m1))%nat ->
    (1 <= length (m_activeSources
                    (state_of (open_and_schedule now sync_ok f m1))))%nat).
  { intros f m1 H1.
    pose proof (open_and_schedule_tables now sync_ok f m1) as (Ha & _).
    simpl in Ha. by rewrite Ha. }
  destruct (_ <=? 1)%nat eqn:E.
  - intros [= <-]. by apply Hend.
  - apply Nat.leb_gt in E.
    destruct (check_two_sources now probe m) as [[f m1]|] eqn:E2; [|done].
    intros [= <-]. apply Hend.
    eapply check_two_sources_nonempty; [|exact E2]. lia.
Qed.



(** ** The answer to an open *)

Lemma has_id_spec m id l :
  has_id m id l = true <-> id ∈ (ID ∘ source_at m) <$> l.
Proof.
  unfold has_id. induction l as [|p l IH]; simpl.
  - split; [done|]. intros H. by apply elem_of_nil in H.
  - rewrite orb_true_iff, IH, elem_of_cons, String.eqb_eq. done.
Qed.

Lemma listed_ids_settle status_ok source obj m :
  source ∉ m_activeSources m ++ m_inactiveSources m ->
  listed_ids (settle_open status_ok source obj m) = listed_ids m.
Proof.
  intros Hf. unfold settle_open. destruct status_ok; [|done].
  unfold listed_ids. simpl. apply list_fmap_ext.
  intros i p Hp. simpl. unfold source_at. simpl.
  apply list_elem_of_lookup_2 in Hp.
  rewrite lookup_insert_ne; [done|]. by intros ->.
Qed.

Lemma handleOpen_admits source m :
  ID (source_at m source) ∉ listed_ids m ->
  handleOpen true source m
  = if (length (m_activeSources m) <? 2)%nat
    then set_active m (m_activeSources m ++ [source])
    else set_inactive m (m_inactiveSources m ++ [source]).
Proof.
  unfold listed_ids. rewrite fmap_app, elem_of_app, <- !has_id_spec.
  intros Hid. unfold handleOpen.
  destruct (has_id m _ (m_activeSources m)); [exfalso; auto|].
  destruct (has_id m _ (m_inactiveSources m)); [exfalso; auto|].
  done.
Qed.

(** X13. The callback of an open keeps the tables well formed: when the
    source built around the opened file is a new object,
    [HandleResponseWithHosts] (and [handleOpen], which it calls) leaves no
    source listed twice, at most two sources active, and the three
    collections without a common source.  This covers the branches that
    add the source: after a successful open whose id is not listed yet,
    the new source is the last active source when fewer than two sources
    were active, and the last inactive source otherwise. *)
Theorem callback_keeps_tables status_ok source obj m :
  tables_ok m -> fresh_source m source ->
  let m' := HandleResponseWithHosts status_ok source obj m in
  tables_ok m'
  /\ (status_ok = true ->
      m_ignore_response (m_open_handler m) = false ->
      ID obj ∉ listed_ids m ->
      if (length (m_activeSources m) <? 2)%nat
      then m_activeSources m' = m_activeSources m ++ [source]
           /\ m_inactiveSources m' = m_inactiveSources m
      else m_activeSources m' = m_activeSources m
           /\ m_inactiveSources m' = m_inactiveSources m ++ [source]).
Proof.
  intros Hm Hf. simpl. split.
  - unfold HandleResponseWithHosts.
    destruct (m_ignore_response _); [done|].
    apply handleOpen_tables_ok.
    + apply (tables_ok_same m); [..|done]; unfold settle_open;
        by destruct status_ok.
    + unfold fresh_source, settle_open in *. by destruct status_ok.
  - intros -> Hig Hid. unfold HandleResponseWithHosts. rewrite Hig.
    assert (Hnot : source ∉ m_activeSources m ++ m_inactiveSources m).
    { destruct Hf as (Fa & Fi & _). rewrite elem_of_app. by intros [|]. }
    rewrite handleOpen_admits.
    + change (m_activeSources (settle_open true source obj m))
        with (m_activeSources m).
      by destruct (_ <? 2)%nat.
    + rewrite (listed_ids_settle true source obj m Hnot).
      unfold source_at. simpl. by rewrite lookup_insert_eq.
Qed.

Lemma callback_keeps_tables_witness :
  (let m' := HandleResponseWithHosts true 3%nat replica_c simplex_manager in
   tables_ok m'
   /\ m_activeSources m' = [1%nat; 3%nat] /\ m_inactiveSources m' = [])
  /\ (let m' := HandleResponseWithHosts true 7%nat
                  (mkSource "d.example.org:1094" 0 never)
                  poor_duplex_manager in
      tables_ok m'
      /\ m_activeSources m' = [1%nat; 2%nat]
      /\ m_inactiveSources m' = [3%nat; 7%nat]).
Proof.
  split.
  - destruct (callback_keeps_tables true 3%nat replica_c simplex_manager)
      as [Ht Hpush].
    + exact simplex_tables_ok.
    + split; [|split]; simpl.
      * apply (bool_decide_unpack _). vm_compute. exact I.
      * apply not_elem_of_nil.
      * apply not_elem_of_empty.
    + split; [exact Ht|]. apply Hpush.
      * reflexivity.
      * reflexivity.
      * apply (bool_decide_unpack _). vm_compute. exact I.
  - destruct (callback_keeps_tables true 7%nat
                (mkSource "d.example.org:1094" 0 never) poor_duplex_manager)
      as [Ht Hpush].
    + exact poor_duplex_tables_ok.
    + split; [|split]; simpl.
      * apply (bool_decide_unpack _). vm_compute. exact I.
      * apply (bool_decide_unpack _). vm_compute. exact I.
      * apply not_elem_of_empty.
    + split; [exact Ht|]. apply Hpush.
      * reflexivity.
      * reflexivity.
      * apply (bool_decide_unpack _). vm_compute. exact I.
Defined.

Lemma handleOpen_listed_ids status_ok source m :
  NoDup (listed_ids m) ->
  NoDup (listed_ids (handleOpen status_ok source m)).
Proof.
  intros Hm. unfold handleOpen. destruct status_ok; [|done].
  destruct (has_id m _ (m_activeSources m)) eqn:Ea; [done|].
  destruct (has_id m _ (m_inactiveSources m)) eqn:Ei; [done|].
  assert (Hnew : ID (source_at m source) ∉ listed_ids m).
  { unfold listed_ids. rewrite fmap_app, elem_of_app.
    rewrite <- !has_id_spec, Ea, Ei. by intros [|]. }
  assert (Hperm : forall m',
    sources m' = sources m ->
    m_activeSources m' ++ m_inactiveSources m'
    ≡ₚ source :: m_activeSources m ++ m_inactiveSources m ->
    NoDup (listed_ids m')).
  { intros m' Hs Hp. unfold listed_ids, source_at in *. rewrite Hs, Hp.
    simpl. by apply NoDup_cons. }
  destruct (_ <? 2)%nat; apply Hperm; simpl; try done.
  - rewrite <- app_assoc. simpl. by rewrite <- Permutation_middle.
  - rewrite app_assoc. by rewrite <- Permutation_cons_append.
Qed.

(** X14. The callback of an open never lists an id twice: when the ids of
    the active and inactive sources are pairwise different and the new
    source is a new object, they are pairwise different after
    [HandleResponseWithHosts], whatever the id of the new source is. *)
Theorem callback_keeps_ids_distinct status_ok source obj m :
  NoDup (listed_ids m) ->
  source ∉ m_activeSources m ++ m_inactiveSources m ->
  NoDup (listed_ids (HandleResponseWithHosts status_ok source obj m)).
Proof.
  intros Hm Hf. unfold HandleResponseWithHosts.
  destruct (m_ignore_response _); [done|].
  apply handleOpen_listed_ids.
  unfold settle_open. destruct status_ok; [|done].
  unfold listed_ids in *. simpl.
  erewrite list_fmap_ext; [exact Hm|].
  intros i p Hp. simpl. unfold source_at. simpl.
  apply list_elem_of_lookup_2 in Hp.
  rewrite lookup_insert_ne; [done|]. by intros ->.
Qed.

Lemma callback_keeps_ids_distinct_witness :
  NoDup (listed_ids
           (HandleResponseWithHosts true 7%nat (mkSource host_a 0 never)
              poor_duplex_manager)).
Proof.
  apply (callback_keeps_ids_distinct true 7%nat (mkSource host_a 0 never)
           poor_duplex_manager).
  - apply (bool_decide_unpack _). vm_compute. exact I.
  - apply (bool_decide_unpack _). vm_compute. exact I.
Defined.

(** ** Recovery from a failed request *)

Lemma erase_failed_strings source_ptr m :
  m_disabledSourceStrings (erase_failed source_ptr m)
  = m_disabledSourceStrings m
  /\ sources (erase_failed source_ptr m) = sources m.
Proof.
  unfold erase_failed.
  destruct (m_activeSources m) as [|p0 [|p1 rest]]; [done|..];
    repeat (destruct (decide _)); done.
Qed.

Lemma requestFailure_begin_state now sync_ok source_ptr code m :
  NoDup (m_activeSources m) ->
  (length (m_activeSources m) <= 2)%nat ->
  code <> errInvalidResponse ->
  let st := requestFailure_begin now sync_ok source_ptr code m in
  let m' := step_state st in
  m_inactiveSources m' = m_inactiveSources m
  /\ m_disabledSources m' = {[source_ptr]} ∪ m_disabledSources m
  /\ m_disabledSourceStrings m'
     = {[ID (source_at m source_ptr)]} ∪ m_disabledSourceStrings m
  /\ sources m' = sources m
  /\ (source_ptr ∉ m_activeSources m')
  /\ (forall q, q ∈ m_activeSources m' -> q ∈ m_activeSources m)
  /\ match st with
     | Redispatched p _ => p ∈ m_activeSources m'
     | Thrown e _ => e = FileOpenError /\ m_activeSources m' = []
     | AwaitOpen _ _ => m_activeSources m' = []
     end.
Proof.
  intros Hnd Hlen Hcode. unfold requestFailure_begin.
  apply Z.eqb_neq in Hcode. rewrite Hcode.
  set (m0 := disable_source source_ptr m).
  destruct (erase_failed_spec source_ptr m0 Hnd Hlen)
    as (Ei & Ed & _ & _ & Hgone & Hsub).
  destruct (erase_failed_strings source_ptr m0) as [Es Eo].
  set (m1 := erase_failed source_ptr m0) in *.
  destruct (m_activeSources m1) as [|p rest] eqn:E.
  - pose proof (OpenHandler_open_tables sync_ok m1)
      as (Ha & Hi & Hd & Hs & Ho).
    destruct (OpenHandler_open sync_ok m1) as [fu m2|e m2] eqn:Eopen;
      simpl in *; rewrite ?Ha, ?Hi, ?Hd, ?Hs, ?Ho, ?Ei, ?Ed, ?Es, ?Eo, ?E;
      repeat split; try done; try apply not_elem_of_nil;
      try (intros q Hq; by apply not_elem_of_nil in Hq).
    revert Eopen. unfold OpenHandler_open.
    destruct (m_file _); [done|]. destruct sync_ok; [done|]. by intros [= <- _].
  - simpl. rewrite ?Ei, ?Ed, ?Es, ?Eo, E. repeat split; try done.
    by left.
Qed.

Lemma erase_failed_handler source_ptr m :
  m_open_handler (erase_failed source_ptr m) = m_open_handler m
  /\ m_name (erase_failed source_ptr m) = m_name m.
Proof.
  unfold erase_failed.
  destruct (m_activeSources m) as [|p0 [|p1 rest]]; [done|..];
    repeat (destruct (decide _)); done.
Qed.

Lemma requestFailure_begin_open now sync_ok source_ptr code m :
  code <> errInvalidResponse ->
  let st := requestFailure_begin now sync_ok source_ptr code m in
  let h := m_open_handler m in
  let h' := m_open_handler (step_state st) in
  let url := m_name m +:+ separator (m_name m)
             +:+ prepareOpaqueString (step_state st) in
  match st with
  | Redispatched _ _ => h' = h
  | Thrown _ _ =>
      sync_ok = false /\ m_file h = None
      /\ file_opens h' = file_opens h ++ [url]
  | AwaitOpen future _ =>
      m_lastSourceCheck (step_state st) = now
      /\ match m_file h with
         | None =>
             sync_ok = true /\ future = Some (next_state h)
             /\ file_opens h' = file_opens h ++ [url]
         | Some _ => future = m_shared_future h /\ h' = h
         end
  end.
Proof.
  intros Hcode. unfold requestFailure_begin.
  apply Z.eqb_neq in Hcode. rewrite Hcode.
  destruct (erase_failed_handler source_ptr (disable_source source_ptr m))
    as [Hh Hn].
  set (m1 := erase_failed source_ptr (disable_source source_ptr m)) in *.
  change (m_open_handler (disable_source source_ptr m))
    with (m_open_handler m) in Hh.
  change (m_name (disable_source source_ptr m)) with (m_name m) in Hn.
  destruct (m_activeSources m1) as [|p rest]; [|by simpl].
  unfold OpenHandler_open. rewrite Hh, Hn.
  destruct (m_file (m_open_handler m)) as [f|] eqn:Ef; simpl.
  - by rewrite ?Ef, ?Hh.
  - destruct sync_ok; simpl; rewrite ?Ef; done.
Qed.

(** X15. A failed request never goes back to the source that failed it.
    For a status other than [errInvalidResponse], and active sources that
    are at most two and listed once: by the time [requestFailure] hands the
    request on, waits or throws, the failed source and its id are in the
    disabled sets and the source is off the active list.  With a source
    left, the request goes to a source that was active and is not the
    failed one, and the open handler is not touched.  With none left,
    [OpenHandler::open] is called.  When the handler holds no attempt it
    issues one [File::Open], whose URL names the failed host among the
    hosts tried, and the call waits for the future of this attempt, or
    throws [FileOpenError] when the transport refuses the open.  When the
    handler holds an attempt (also one that was refused), nothing is issued
    and the call waits for the future of that attempt. *)
Theorem requestFailure_disables_failed now sync_ok source_ptr code m :
  NoDup (m_activeSources m) ->
  (length (m_activeSources m) <= 2)%nat ->
  code <> errInvalidResponse ->
  let st := requestFailure_begin now sync_ok source_ptr code m in
  let h := m_open_handler m in
  let h' := m_open_handler (step_state st) in
  let url := m_name m +:+ separator (m_name m)
             +:+ prepareOpaqueString (step_state st) in
  (source_ptr ∈ m_disabledSources (step_state st))
  /\ (ID (source_at m source_ptr) ∈ m_disabledSourceStrings (step_state st))
  /\ (source_ptr ∉ m_activeSources (step_state st))
  /\ match st with
     | Redispatched p _ =>
         p <> source_ptr /\ p ∈ m_activeSources m
         /\ p ∈ m_activeSources (step_state st)
         /\ h' = h
     | Thrown e _ =>
         e = FileOpenError /\ m_activeSources (step_state st) = []
         /\ sync_ok = false /\ m_file h = None
         /\ file_opens h' = file_opens h ++ [url]
     | AwaitOpen future _ =>
         m_activeSources (step_state st) = []
         /\ m_lastSourceCheck (step_state st) = now
         /\ match m_file h with
            | None =>
                sync_ok = true /\ future = Some (next_state h)
                /\ file_opens h' = file_opens h ++ [url]
            | Some _ => future = m_shared_future h /\ h' = h
            end
     end.
Proof.
  intros Hnd Hlen Hcode.
  destruct (requestFailure_begin_state now sync_ok source_ptr code m
              Hnd Hlen Hcode) as (Hi & Hd & Hs & Ho & Hgone & Hsub & Hst).
  pose proof (requestFailure_begin_open now sync_ok source_ptr code m Hcode)
    as Hopen.
  simpl. rewrite Hd, Hs.
  split; [apply elem_of_union; left; by apply elem_of_singleton|].
  split; [apply elem_of_union; left; by apply elem_of_singleton|].
  split; [done|].
  destruct (requestFailure_begin now sync_ok source_ptr code m)
    as [p m'|e m'|fu m']; simpl in *.
  - split; [by intros ->|]. split; [by apply Hsub|]. by split.
  - destruct Hst as [-> Hst]. by split.
  - by split.
Qed.

Lemma requestFailure_disables_failed_witness :
  let m := simplex_manager in
  let st := requestFailure_begin at_1000 true 1%nat errOperationExpired m in
  let h := m_open_handler m in
  let h' := m_open_handler (step_state st) in
  let url := m_name m +:+ separator (m_name m)
             +:+ prepareOpaqueString (step_state st) in
  (url = "root://redirector.example.org//store/file.root?tried=a.example.org"%string)
  /\ (1%nat ∈ m_disabledSources (step_state st))
  /\ (ID (source_at m 1%nat) ∈ m_disabledSourceStrings (step_state st))
  /\ (1%nat ∉ m_activeSources (step_state st))
  /\ match st with
     | Redispatched p _ =>
         p <> 1%nat /\ p ∈ m_activeSources m
         /\ p ∈ m_activeSources (step_state st)
         /\ h' = h
     | Thrown e _ =>
         e = FileOpenError /\ m_activeSources (step_state st) = []
         /\ true = false /\ m_file h = None
         /\ file_opens h' = file_opens h ++ [url]
     | AwaitOpen future _ =>
         m_activeSources (step_state st) = []
         /\ m_lastSourceCheck (step_state st) = at_1000
         /\ match m_file h with
            | None =>
                true = true /\ future = Some (next_state h)
                /\ file_opens h' = file_opens h ++ [url]
            | Some _ => future = m_shared_future h /\ h' = h
            end
     end.
Proof.
  split; [vm_compute; reflexivity|].
  apply (requestFailure_disables_failed at_1000 true 1%nat
           errOperationExpired simplex_manager).
  - apply (bool_decide_unpack _). vm_compute. exact I.
  - simpl. lia.
  - vm_compute. discriminate.
Defined.

Lemma handleOpen_handler status_ok source m :
  m_open_handler (handleOpen status_ok source m) = m_open_handler m
  /\ sources (handleOpen status_ok source m) = sources m
  /\ m_disabledSourceStrings (handleOpen status_ok source m)
     = m_disabledSourceStrings m.
Proof.
  unfold handleOpen. destruct status_ok; [|done].
  repeat (destruct (has_id _ _ _); [done|]).
  by destruct (_ <? _)%nat.
Qed.




(** X17. The order in which the callback of the recovery open and the
    failing thread take the manager's lock decides how often the new source
    is listed.  [requestFailure] waits with no active source.  When the
    callback's [handleOpen] comes first it makes the new source active, and
    [requestFailure], which pushes the source it got from the future without
    looking at the list, makes it active a second time.  When
    [requestFailure] comes first, [handleOpen] finds the id among the active
    sources and adds nothing. *)
Theorem recovery_open_order_matters source obj m :
  m_ignore_response (m_open_handler m) = false ->
  m_activeSources m = [] ->
  source ∉ m_inactiveSources m ->
  ID obj ∉ listed_ids m ->
  ID obj ∉ m_disabledSourceStrings m ->
  (exists m1,
     requestFailure_resume (WaitValue source)
       (HandleResponseWithHosts true source obj m) = Done source m1
     /\ m_activeSources m1 = [source; source])
  /\ (exists m2,
        requestFailure_resume (WaitValue source)
          (settle_open true source obj m) = Done source m2
        /\ m_activeSources (handleOpen true source m2) = [source]).
Proof.
  intros Hig Hact Hsrc Hid Hdis.
  set (m0 := settle_open true source obj m).
  assert (Hobj : forall m', sources m' = sources m0 ->
                            ID (source_at m' source) = ID obj).
  { intros m' Hs. unfold source_at. rewrite Hs. simpl.
    by rewrite lookup_insert_eq. }
  assert (Hobj' : forall l, ID (source_at (set_active m0 l) source) = ID obj).
  { intros l. by apply Hobj. }
  assert (Ha0 : m_activeSources m0 = []) by done.
  assert (Hina : has_id m0 (ID obj) (m_inactiveSources m0) = false).
  { apply not_true_is_false. rewrite has_id_spec. intros Hin. apply Hid.
    unfold listed_ids. rewrite Hact. simpl. simpl in Hin.
    erewrite list_fmap_ext; [exact Hin|].
    intros i p Hp. simpl. unfold source_at. simpl.
    apply list_elem_of_lookup_2 in Hp.
    rewrite lookup_insert_ne; [done|]. by intros ->. }
  split.
  - unfold HandleResponseWithHosts. rewrite Hig. fold m0.
    assert (Hopen : handleOpen true source m0
                    = set_active m0 (m_activeSources m0 ++ [source])).
    { unfold handleOpen. rewrite (Hobj m0 eq_refl), Ha0, Hina. done. }
    rewrite Hopen. unfold requestFailure_resume.
    rewrite Hobj'.
    destruct (decide _) as [Hin|_]; [done|].
    eexists. split; [reflexivity|]. simpl. by rewrite Hact.
  - unfold requestFailure_resume. rewrite (Hobj m0 eq_refl).
    destruct (decide _) as [Hin|_]; [done|].
    eexists. split; [reflexivity|].
    unfold handleOpen. rewrite Hobj'.
    simpl. rewrite Hact. simpl.
    rewrite Hobj'. by rewrite String.eqb_refl.
Qed.

Lemma recovery_open_order_matters_witness :
  let m := step_state (requestFailure_begin at_1000 true 1%nat
                         errOperationExpired simplex_manager) in
  (exists m1,
     requestFailure_resume (WaitValue 3%nat)
       (HandleResponseWithHosts true 3%nat replica_c m) = Done 3%nat m1
     /\ m_activeSources m1 = [3%nat; 3%nat])
  /\ (exists m2,
        requestFailure_resume (WaitValue 3%nat)
          (settle_open true 3%nat replica_c m) = Done 3%nat m2
        /\ m_activeSources (handleOpen true 3%nat m2) = [3%nat]).
Proof.
  apply (recovery_open_order_matters 3%nat replica_c).
  - reflexivity.
  - reflexivity.
  - apply not_elem_of_nil.
  - apply not_elem_of_nil.
  - apply (bool_decide_unpack _). vm_compute. exact I.
Defined.

(** ** The open handler *)

(** X18. An open that the transport refuses leaves the handler holding the
    file of the refused attempt: [open] throws [FileOpenError] with
    [m_file] set, and every later call of [open] returns the future of the
    refused attempt without asking the transport again. *)
Theorem refused_open_blocks_later_opens m :
  m_file (m_open_handler m) = None ->
  exists m1,
    OpenHandler_open false m = Raise FileOpenError m1
    /\ is_Some (m_file (m_open_handler m1))
    /\ forall sync_ok,
         OpenHandler_open sync_ok m1
         = Done (Some (next_state (m_open_handler m))) m1.
Proof.
  intros Hidle. unfold OpenHandler_open at 1. rewrite Hidle.
  eexists. split; [reflexivity|]. split; [by eexists|].
  intros sync_ok. reflexivity.
Qed.

Lemma refused_open_blocks_later_opens_witness :
  exists m1,
    OpenHandler_open false duplex_manager = Raise FileOpenError m1
    /\ is_Some (m_file (m_open_handler m1))
    /\ forall sync_ok,
         OpenHandler_open sync_ok m1
         = Done (Some (next_state (m_open_handler duplex_manager))) m1.
Proof.
  apply (refused_open_blocks_later_opens duplex_manager). reflexivity.
Defined.

(** X19. An open and its callback make a round trip.  The callback settles
    the promise behind the future that [open] returned, with the new source
    or with an exception, and gives the file up; the next [open] then
    starts a new attempt: it asks the transport once more and returns a
    future that is not the old one. *)
Theorem open_callback_round_trip m future m1 status_ok source obj :
  m_file (m_open_handler m) = None ->
  m_ignore_response (m_open_handler m) = false ->
  OpenHandler_open true m = Done future m1 ->
  let m2 := HandleResponseWithHosts status_ok source obj m1 in
  (exists p, future = Some p
             /\ settled (m_open_handler m2) !! p
                = Some (if status_ok then Some source else None))
  /\ m_file (m_open_handler m2) = None
  /\ exists future' m3,
       OpenHandler_open true m2 = Done future' m3
       /\ future' <> future
       /\ length (file_opens (m_open_handler m3))
          = S (length (file_opens (m_open_handler m1))).
Proof.
  intros Hidle Hig. unfold OpenHandler_open at 1. rewrite Hidle, Hig.
  intros [= <- <-].
  set (m2 := HandleResponseWithHosts _ _ _ _).
  assert (Hh : m_open_handler m2
    = mkOpenHandler None (next_state (m_open_handler m))
        (Some (next_state (m_open_handler m))) false
        (S (S (next_state (m_open_handler m))))
        (file_opens (m_open_handler m)
         ++ [m_name m +:+ separator (m_name m) +:+ prepareOpaqueString m])
        (<[next_state (m_open_handler m) :=
             if status_ok then Some source else None]>
           (settled (m_open_handler m)))).
  { unfold m2, HandleResponseWithHosts. simpl.
    destruct (handleOpen_handler status_ok source
      (settle_open status_ok source obj
         (set_handler m
            (mkOpenHandler (Some (S (next_state (m_open_handler m))))
               (next_state (m_open_handler m))
               (Some (next_state (m_open_handler m))) false
               (S (S (next_state (m_open_handler m))))
               (file_opens (m_open_handler m)
                ++ [m_name m +:+ separator (m_name m)
                    +:+ prepareOpaqueString m])
               (settled (m_open_handler m)))))) as [-> _].
    unfold settle_open. by destruct status_ok. }
  split; [|split].
  - eexists. split; [reflexivity|]. rewrite Hh. simpl.
    by rewrite lookup_insert_eq.
  - by rewrite Hh.
  - unfold OpenHandler_open. rewrite Hh. simpl.
    eexists _, _. split; [reflexivity|]. split.
    + intros [= H]. lia.
    + simpl. rewrite !length_app. simpl. lia.
Qed.

Lemma open_callback_round_trip_witness :
  exists future m1,
    OpenHandler_open true simplex_manager = Done future m1
    /\ let m2 := HandleResponseWithHosts true 3%nat replica_c m1 in
       (exists p, future = Some p
                  /\ settled (m_open_handler m2) !! p = Some (Some 3%nat))
       /\ m_file (m_open_handler m2) = None
       /\ exists future' m3,
            OpenHandler_open true m2 = Done future' m3
            /\ future' <> future
            /\ length (file_opens (m_open_handler m3))
               = S (length (file_opens (m_open_handler m1))).
Proof.
  eexists _, _. split; [reflexivity|].
  apply (open_callback_round_trip simplex_manager _ _ true 3%nat replica_c);
    reflexivity.
Defined.

(** ** The constructor *)

Lemma set_disabled_same m :
  set_disabled m (m_disabledSources m) (m_disabledSourceStrings m) = m.
Proof. by destruct m. Qed.

Lemma open_attempt_state transport idx m :
  exists ids,
    match open_attempt transport idx m with
    | Opened _ m' => m' = m /\ ids = m_disabledSourceStrings m
    | Failed m' => m' = set_disabled m (m_disabledSources m) ids
    | Retry m' => m' = set_disabled m (m_disabledSources m) ids
    end
    /\ (EmptyString ∉ m_disabledSourceStrings m -> EmptyString ∉ ids)
    /\ (size ids <= S (size (m_disabledSourceStrings m)))%nat.
Proof.
  unfold open_attempt. set (r := transport idx (new_filename m)).
  destruct (IsOK r).
  { exists (m_disabledSourceStrings m). split; [done|]. split; [done|lia]. }
  destruct (decide (DataServer r ∈ _)) as [Hin|Hnot].
  { exists (m_disabledSourceStrings m). rewrite set_disabled_same.
    split; [done|]. split; [done|lia]. }
  destruct (Nat.eqb (String.length (DataServer r)) 0) eqn:Hlen.
  - exists (m_disabledSourceStrings m). rewrite set_disabled_same.
    split; [by destruct (String.eqb _ _)|]. split; [done|lia].
  - exists ({[DataServer r]} ∪ m_disabledSourceStrings m).
    split; [by destruct (String.eqb _ _)|]. split.
    + intros Hne Hin. apply elem_of_union in Hin as [Hin|Hin]; [|done].
      apply elem_of_singleton in Hin. rewrite <- Hin in Hlen. done.
    + rewrite size_union, size_singleton; [lia|].
      intros x Hx Hx'. apply elem_of_singleton in Hx. by subst.
Qed.

Lemma open_loop_state transport n idx m k e :
  open_loop transport n idx m = (k, e) ->
  exists ids,
    end_state e = set_disabled m (m_disabledSources m) ids
    /\ (EmptyString ∉ m_disabledSourceStrings m -> EmptyString ∉ ids)
    /\ (size ids + idx + (if e is LoopOpened _ _ then 1 else 0)
        <= size (m_disabledSourceStrings m) + k)%nat.
Proof.
  revert idx m. induction n as [|n IH]; intros idx m; simpl.
  - intros [= <- <-]. exists (m_disabledSourceStrings m).
    rewrite set_disabled_same. split; [done|]. split; [done|lia].
  - destruct (open_attempt_state transport idx m) as (ids & Hm & He & Hs).
    destruct (open_attempt transport idx m) as [r m'|m'|m'].
    + destruct Hm as [-> ->]. intros [= <- <-].
      exists (m_disabledSourceStrings m). rewrite set_disabled_same.
      split; [done|]. split; [done|lia].
    + intros [= <- <-]. exists ids. split; [done|]. split; [done|lia].
    + intros E. apply IH in E as (ids' & Hm' & He' & Hs'). subst m'.
      exists ids'. split; [done|]. split; [auto|]. simpl in Hs'. lia.
Qed.

(** X20. A manager that the constructor returns has exactly one source,
    the one built around the opened file, active and nothing else listed;
    the last check is stamped with the clock read after the open and the
    next one is due 5 seconds later.  Between one and five opens were
    issued, every failed one added at most one id to the disabled ids, and
    the empty id is never among them. *)
Theorem constructor_success_state transport timeout ts source obj filename
    flags perms opens m :
  RequestManager_new transport timeout ts source obj filename flags perms
  = (opens, Done tt m) ->
  m_activeSources m = [source]
  /\ m_inactiveSources m = []
  /\ m_disabledSources m = ∅
  /\ m_lastSourceCheck m = ts
  /\ m_nextActiveSourceCheck m
     = add_seconds ts XRD_ADAPTOR_SHORT_OPEN_DELAY
  /\ m_name m = filename
  /\ m_file (m_open_handler m) = None
  /\ (1 <= opens <= 5)%nat
  /\ (size (m_disabledSourceStrings m) < opens)%nat
  /\ (EmptyString ∉ m_disabledSourceStrings m)
  /\ tables_ok m.
Proof.
  unfold RequestManager_new.
  pose proof (open_loop_opens transport retries 0
                (initial_manager timeout filename flags perms)) as Hk.
  destruct (open_loop _ _ _ _) as [k e] eqn:E. simpl in Hk.
  apply open_loop_state in E as (ids & Hm & He & Hs).
  destruct e as [r m'|m'|m']; [|done..].
  intros [= <- <-]. simpl in Hm. subst m'.
  assert (Hs0 : size (m_disabledSourceStrings
                        (initial_manager timeout filename flags perms))
                = 0%nat) by apply size_empty.
  rewrite Hs0 in Hs. unfold retries in Hk. simpl.
  do 7 (split; [done|]). split; [lia|]. split; [lia|]. split.
  - apply He, not_elem_of_empty.
  - split; simpl.
    + apply NoDup_singleton.
    + apply NoDup_nil_2.
    + lia.
    + intros p _. apply not_elem_of_nil.
    + intros p _. apply not_elem_of_empty.
    + intros p Hp. by apply not_elem_of_nil in Hp.
Qed.

Lemma constructor_success_state_witness :
  let transport := fun (idx : nat) (url : string) =>
    mkOpenReply (Nat.eqb idx 1) "s0.example.org:1094"
      "root://elsewhere.example.org//store/file.root" in
  exists opens m,
    RequestManager_new transport 60 at_1000 1%nat source_of_reply
      "root://redirector.example.org//store/file.root" 0 0
    = (opens, Done tt m)
    /\ m_activeSources m = [1%nat]
    /\ m_inactiveSources m = []
    /\ m_disabledSources m = ∅
    /\ m_lastSourceCheck m = at_1000
    /\ m_nextActiveSourceCheck m
       = add_seconds at_1000 XRD_ADAPTOR_SHORT_OPEN_DELAY
    /\ m_name m = "root://redirector.example.org//store/file.root"%string
    /\ m_file (m_open_handler m) = None
    /\ (1 <= opens <= 5)%nat
    /\ (size (m_disabledSourceStrings m) < opens)%nat
    /\ (EmptyString ∉ m_disabledSourceStrings m)
    /\ tables_ok m.
Proof.
  intros transport. eexists _, _. split; [vm_compute; reflexivity|].
  apply (constructor_success_state transport 60 at_1000 1%nat source_of_reply
           "root://redirector.example.org//store/file.root" 0 0).
  vm_compute. reflexivity.
Defined.

(** ** The exclusion string *)

Lemma index_colon_cons c s :
  String.index 0 ":" (String c s)
  = if Ascii.ascii_dec
         (Ascii.Ascii false true false true true true false false) c
    then Some 0%nat
    else S <$> String.index 0 ":" s.
Proof.
  change (String.index 0 ":" (String c s))
    with (if String.prefix ":" (String c s) then Some 0%nat
          else match String.index 0 ":" s with
               | Some n => Some (S n)
               | None => None
               end).
  change (String.prefix ":" (String c s))
    with (if Ascii.ascii_dec
               (Ascii.Ascii false true false true true true false false) c
          then String.prefix EmptyString s else false).
  destruct (Ascii.ascii_dec _ c) as [_|_].
  - by destruct s.
  - by destruct (String.index 0 ":" s).
Qed.

Lemma substring_0_0 s : String.substring 0 0 s = EmptyString.
Proof. by destruct s. Qed.

Lemma substring_no_colon n s :
  String.index 0 ":" s = Some n ->
  String.index 0 ":" (String.substring 0 n s) = None.
Proof.
  revert n. induction s as [|c s IH]; intros n; [done|].
  rewrite index_colon_cons. destruct (Ascii.ascii_dec _ c) as [_|Hc].
  - intros [= <-]. done.
  - destruct (String.index 0 ":" s) as [k|] eqn:E; [|done].
    intros [= <-]. change (String.substring 0 (S k) (String c s))
      with (String c (String.substring 0 k s)).
    rewrite index_colon_cons.
    destruct (Ascii.ascii_dec _ c) as [?|_]; [done|].
    by rewrite (IH k eq_refl).
Qed.

Lemma substring_append s t :
  String.substring 0 (String.length s) (s +:+ t) = s.
Proof.
  induction s as [|c s IH]; simpl; [apply substring_0_0|]. by rewrite IH.
Qed.

Lemma index_colon_append h rest :
  String.index 0 ":" h = None ->
  String.index 0 ":" (h +:+ ":" +:+ rest) = Some (String.length h).
Proof.
  induction h as [|c h IH].
  - intros _. simpl. by destruct rest.
  - rewrite index_colon_cons. destruct (Ascii.ascii_dec _ c) as [?|Hc];
      [done|].
    destruct (String.index 0 ":" h) eqn:E; [done|]. intros _.
    change ((String c h +:+ ":" +:+ rest))
      with (String c (h +:+ ":" +:+ rest)).
    rewrite index_colon_cons.
    destruct (Ascii.ascii_dec _ c) as [?|_]; [done|].
    by rewrite IH.
Qed.

(** X21. [host_of], the [id.substr(0, id.find(":"))] of
    [prepareOpaqueString], yields the host of a [host:port] id: what it
    returns holds no colon; an id without a colon is returned whole; and
    from a colon-free host followed by a colon and anything the host is
    returned. *)
Theorem host_of_strips_port :
  (forall id, String.index 0 ":" (host_of id) = None)
  /\ (forall id, String.index 0 ":" id = None -> host_of id = id)
  /\ (forall host rest,
        String.index 0 ":" host = None ->
        host_of (host +:+ ":" +:+ rest) = host).
Proof.
  split; [|split].
  - intros id. unfold host_of.
    destruct (String.index 0 ":" id) as [n|] eqn:E; [|done].
    by apply substring_no_colon.
  - intros id H. unfold host_of. by rewrite H.
  - intros host rest H. unfold host_of.
    rewrite (index_colon_append host rest H). apply substring_append.
Qed.

Lemma string_app_cons c (s t : string) :
  String c s +:+ t = String c (s +:+ t).
Proof. reflexivity. Qed.

Lemma string_app_assoc (s t u : string) : (s +:+ t) +:+ u = s +:+ t +:+ u.
Proof.
  induction s as [|c s IH]; [done|]. rewrite !string_app_cons. by f_equal.
Qed.

Lemma string_app_length (s t : string) :
  String.length (s +:+ t) = (String.length s + String.length t)%nat.
Proof.
  induction s as [|c s IH]; [done|]. rewrite string_app_cons. simpl.
  by f_equal.
Qed.

Lemma concat_trailing_commas (l : list string) :
  l <> [] ->
  String.concat EmptyString ((fun id => host_of id +:+ ",") <$> l)
  = String.concat "," (host_of <$> l) +:+ ",".
Proof.
  induction l as [|x [|y r] IH]; [done|done|]. intros _.
  change (String.concat EmptyString
            ((fun id => host_of id +:+ ",") <$> x :: y :: r))
    with ((host_of x +:+ ",")
          +:+ String.concat EmptyString
                ((fun id => host_of id +:+ ",") <$> y :: r)).
  change (String.concat "," (host_of <$> x :: y :: r))
    with (host_of x +:+ "," +:+ String.concat "," (host_of <$> y :: r)).
  rewrite IH by done. by rewrite !string_app_assoc.
Qed.

(** X22. [prepareOpaqueString] returns the empty string when the manager
    knows no source, and otherwise [tried=] followed by the hosts of the
    active sources, the inactive sources and the disabled ids, in this
    order, separated by commas: the comma it appends after every host is
    taken back after the last one. *)
Theorem prepareOpaqueString_joins_hosts m :
  prepareOpaqueString m
  = match known_ids m with
    | [] => EmptyString
    | _ => "tried=" +:+ String.concat "," (host_of <$> known_ids m)
    end.
Proof.
  unfold prepareOpaqueString. fold (known_ids m).
  destruct (known_ids m) as [|x l] eqn:E; [done|].
  rewrite <- E.
  assert (Hne : known_ids m <> []) by (by rewrite E).
  replace (Nat.eqb (length (known_ids m)) 0) with false
    by (by rewrite E).
  rewrite (concat_trailing_commas _ Hne).
  rewrite <- string_app_assoc.
  set (t := "tried=" +:+ String.concat "," (host_of <$> known_ids m)).
  rewrite string_app_length.
  replace (String.length t + String.length "," - 1)%nat
    with (String.length t) by (simpl; lia).
  apply substring_append.
Qed.




End ManagerMoreFacts.

Module Binary32Facts.
Import SpecFloat Split Dispatch.

(** ** Rounding in [float] *)

Lemma digits2_pos_bounds p :
  2 ^ (Z.pos (digits2_pos p) - 1) <= Z.pos p < 2 ^ Z.pos (digits2_pos p).
Proof.
  induction p as [p IH|p IH|]; simpl digits2_pos.
  - rewrite Pos2Z.inj_succ.
    replace (Z.succ (Z.pos (digits2_pos p)) - 1)
      with (Z.succ (Z.pos (digits2_pos p) - 1)) by lia.
    rewrite !Z.pow_succ_r by lia. lia.
  - rewrite Pos2Z.inj_succ.
    replace (Z.succ (Z.pos (digits2_pos p)) - 1)
      with (Z.succ (Z.pos (digits2_pos p) - 1)) by lia.
    rewrite !Z.pow_succ_r by lia. lia.
  - simpl. lia.
Qed.

Lemma Zdigits2_bounds m :
  0 < m -> 2 ^ (Zdigits2 m - 1) <= m < 2 ^ Zdigits2 m.
Proof.
  destruct m as [|p|p]; try lia. intros _. apply digits2_pos_bounds.
Qed.

Lemma Zdigits2_pos m : 0 < m -> 0 < Zdigits2 m.
Proof. destruct m; simpl; lia. Qed.

Lemma Zdigits2_le m k : 0 < m -> m < 2 ^ k -> Zdigits2 m <= k.
Proof.
  intros Hm Hk. pose proof (Zdigits2_bounds m Hm) as [Hl _].
  pose proof (Zdigits2_pos m Hm).
  destruct (Z_le_gt_dec (Zdigits2 m) k) as [|Hgt]; [done|].
  assert (2 ^ k <= 2 ^ (Zdigits2 m - 1)).
  { apply Z.pow_le_mono_r; lia. }
  lia.
Qed.

Lemma Zdigits2_ge m k : 0 < m -> 2 ^ (k - 1) <= m -> k <= Zdigits2 m.
Proof.
  intros Hm Hk. pose proof (Zdigits2_bounds m Hm) as [_ Hu].
  pose proof (Zdigits2_pos m Hm).
  destruct (Z_le_gt_dec k (Zdigits2 m)) as [|Hgt]; [done|].
  assert (2 ^ Zdigits2 m <= 2 ^ (k - 1)).
  { apply Z.pow_le_mono_r; lia. }
  lia.
Qed.

Lemma shr_1_m r : 0 <= shr_m r -> shr_m (shr_1 r) = shr_m r / 2.
Proof.
  destruct r as [m b s]. simpl. intros Hm.
  destruct m as [|[p|p|]|p]; simpl; try lia; try reflexivity.
  - apply Z.div_unique with 1; lia.
  - apply Z.div_unique with 0; lia.
Qed.

Lemma shr_1_nonneg r : 0 <= shr_m r -> 0 <= shr_m (shr_1 r).
Proof.
  intros H. rewrite shr_1_m by done. apply Z.div_pos; lia.
Qed.

Lemma pow2_xO p : 2 ^ Z.pos p~0 = 2 ^ Z.pos p * 2 ^ Z.pos p.
Proof. rewrite Pos2Z.inj_xO, <- Z.pow_add_r by lia. f_equal. lia. Qed.

Lemma pow2_xI p : 2 ^ Z.pos p~1 = 2 * (2 ^ Z.pos p * 2 ^ Z.pos p).
Proof.
  rewrite Pos2Z.inj_xI, <- Z.pow_add_r by lia.
  replace (2 * Z.pos p + 1) with (Z.succ (Z.pos p + Z.pos p)) by lia.
  by rewrite Z.pow_succ_r by lia.
Qed.

Lemma iter_pos_shr_m p : forall r,
  0 <= shr_m r -> shr_m (iter_pos shr_1 p r) = shr_m r / 2 ^ Z.pos p.
Proof.
  induction p as [p IH|p IH|]; intros r Hr; simpl iter_pos.
  - assert (H1 := shr_1_nonneg r Hr).
    assert (H2 : 0 <= shr_m (iter_pos shr_1 p (shr_1 r))).
    { rewrite IH by done. apply Z.div_pos; lia. }
    rewrite IH, IH, shr_1_m by done.
    rewrite !Z.div_div by lia. by rewrite pow2_xI.
  - assert (H2 : 0 <= shr_m (iter_pos shr_1 p r)).
    { rewrite IH by done. apply Z.div_pos; lia. }
    rewrite IH, IH by done.
    rewrite !Z.div_div by lia. by rewrite pow2_xO.
  - rewrite shr_1_m by done. done.
Qed.

Lemma round_nearest_even_bounds m l :
  m <= round_nearest_even m l <= m + 1.
Proof.
  destruct l as [|[]]; simpl; try lia. destruct (Z.even m); lia.
Qed.

Lemma shr_record_of_loc_m m l : shr_m (shr_record_of_loc m l) = m.
Proof. by destruct l as [|[]]. Qed.

Lemma fexp_normal k : -125 <= k -> fexp 24 128 k = k - 24.
Proof. intros Hk. unfold fexp, emin. lia. Qed.

Lemma shr_fexp_spec m e l :
  0 < m -> 24 <= Zdigits2 m -> -125 <= Zdigits2 m + e ->
  exists r,
    shr_fexp 24 128 m e l = (r, e + (Zdigits2 m - 24))
    /\ shr_m r = m / 2 ^ (Zdigits2 m - 24).
Proof.
  intros Hm Hd He. unfold shr_fexp. rewrite fexp_normal by done.
  replace (Zdigits2 m + e - 24 - e) with (Zdigits2 m - 24) by lia.
  destruct (Zdigits2 m - 24) as [|p|p] eqn:En; try lia; simpl shr.
  - eexists. split; [by rewrite Z.add_0_r|].
    rewrite shr_record_of_loc_m. by rewrite Z.div_1_r.
  - eexists. split; [done|].
    rewrite iter_pos_shr_m; rewrite shr_record_of_loc_m; [done|lia].
Qed.

Lemma pow2_split a b : 0 <= a -> 0 <= b -> 2 ^ (a + b) = 2 ^ a * 2 ^ b.
Proof. intros. by rewrite Z.pow_add_r. Qed.

(** Rounding a mantissa of at least 24 digits, in the range of the normal
    numbers: the result is a normal number within a factor [1 +- 2^-23] of
    every value between [mx * 2^ex] and [(mx + 1) * 2^ex]. *)
Lemma binary_round_aux_spec sx mx ex lx :
  0 < mx -> 24 <= Zdigits2 mx -> -125 <= Zdigits2 mx + ex <= 127 ->
  exists m e,
    binary_round_aux 24 128 sx mx ex lx = S754_finite sx m e
    /\ 2 ^ 23 <= Z.pos m < 2 ^ 24
    /\ (e = ex + Zdigits2 mx - 24 \/ e = ex + Zdigits2 mx - 23)
    /\ (2 ^ 23 - 1) * (mx + 1) <= 2 ^ 23 * (Z.pos m * 2 ^ (e - ex))
    /\ 2 ^ 23 * (Z.pos m * 2 ^ (e - ex)) <= (2 ^ 23 + 1) * mx.
Proof.
  intros Hm Hd He. unfold binary_round_aux.
  destruct (shr_fexp_spec mx ex lx Hm Hd) as (r & -> & Hr); [lia|].
  set (n := Zdigits2 mx - 24) in *.
  assert (Hn : 0 <= n) by (unfold n; lia).
  pose proof (Zdigits2_bounds mx Hm) as [Hlo Hhi].
  assert (Hpn : 0 < 2 ^ n) by (apply Z.pow_pos_nonneg; lia).
  replace (Zdigits2 mx - 1) with (23 + n) in Hlo by (unfold n; lia).
  replace (Zdigits2 mx) with (24 + n) in Hhi by (unfold n; lia).
  rewrite pow2_split in Hlo, Hhi by lia.
  set (m0 := shr_m r) in *.
  assert (Hdiv : m0 * 2 ^ n <= mx < (m0 + 1) * 2 ^ n).
  { rewrite Hr. pose proof (Z.div_mod mx (2 ^ n)).
    pose proof (Z.mod_pos_bound mx (2 ^ n)). lia. }
  assert (Hm0 : 2 ^ 23 <= m0 < 2 ^ 24) by nia.
  pose proof (round_nearest_even_bounds m0 (loc_of_shr_record r)) as Hrne.
  set (m1 := round_nearest_even m0 (loc_of_shr_record r)) in *.
  clearbody m1.
  destruct (Z_lt_ge_dec m1 (2 ^ 24)) as [Hlt|Hge].
  - assert (Hd1 : Zdigits2 m1 = 24).
    { apply Z.le_antisymm.
      - apply Zdigits2_le; lia.
      - apply Zdigits2_ge; [lia|]. change (24 - 1) with 23. lia. }
    unfold shr_fexp. rewrite Hd1, fexp_normal by lia.
    replace (24 + (ex + n) - 24 - (ex + n)) with 0 by lia. simpl shr.
    destruct m1 as [|m|m]; try lia. simpl shr_m.
    replace (ex + n <=? 128 - 24) with true
      by (symmetry; apply Z.leb_le; unfold n; lia).
    exists m, (ex + n). split; [done|]. split; [lia|].
    split; [left; unfold n; lia|].
    replace (ex + n - ex) with n by lia. nia.
  - assert (Hm1 : m1 = 2 ^ 24) by lia. subst m1.
    change (shr_fexp 24 128 (2 ^ 24) (ex + n) loc_Exact)
      with (shr (shr_record_of_loc (2 ^ 24) loc_Exact) (ex + n)
              (fexp 24 128 (25 + (ex + n)) - (ex + n))).
    rewrite fexp_normal by lia.
    replace (25 + (ex + n) - 24 - (ex + n)) with 1 by lia.
    change (shr (shr_record_of_loc (2 ^ 24) loc_Exact) (ex + n) 1)
      with (Build_shr_record (Z.pos (2 ^ 23)) false false, ex + n + 1).
    cbv beta iota delta [shr_m].
    replace (ex + n + 1 <=? 128 - 24) with true
      by (symmetry; apply Z.leb_le; unfold n; lia).
    exists (2 ^ 23)%positive, (ex + n + 1). split; [done|].
    split; [done|]. split; [right; unfold n; lia|].
    replace (ex + n + 1 - ex) with (n + 1) by lia.
    rewrite pow2_split by lia. change (2 ^ 1) with 2.
    change (Z.pos (2 ^ 23)) with (2 ^ 23). nia.
Qed.

Lemma unit_exp_val : unit_exp = 512.
Proof. reflexivity. Qed.

Lemma scaled_pos m e : 0 < m -> 0 <= e + unit_exp -> 0 < scaled m e.
Proof.
  intros Hm He. unfold scaled.
  apply Z.mul_pos_pos; [done|]. by apply Z.pow_pos_nonneg.
Qed.

Lemma scaled_shift m e k :
  0 <= k -> 0 <= e + unit_exp -> scaled m (e + k) = scaled m e * 2 ^ k.
Proof.
  intros Hk He. unfold scaled.
  replace (e + k + unit_exp) with (e + unit_exp + k) by lia.
  rewrite pow2_split by done. lia.
Qed.

Lemma scaled_mantissa m e k :
  0 <= k -> 0 <= e + unit_exp -> scaled (m * 2 ^ k) e = scaled m (e + k).
Proof. intros Hk He. rewrite scaled_shift by done. unfold scaled. lia. Qed.

(** [binary_round_aux_spec] in terms of [scaled]. *)
Lemma binary_round_aux_scaled sx mx ex lx :
  0 < mx -> 24 <= Zdigits2 mx -> -125 <= Zdigits2 mx + ex <= 127 ->
  0 <= ex + unit_exp ->
  exists m e,
    binary_round_aux 24 128 sx mx ex lx = S754_finite sx m e
    /\ 2 ^ 23 <= Z.pos m < 2 ^ 24
    /\ (e = ex + Zdigits2 mx - 24 \/ e = ex + Zdigits2 mx - 23)
    /\ (2 ^ 23 - 1) * scaled (mx + 1) ex <= 2 ^ 23 * scaled (Z.pos m) e
    /\ 2 ^ 23 * scaled (Z.pos m) e <= (2 ^ 23 + 1) * scaled mx ex.
Proof.
  intros Hm Hd He Hu.
  destruct (binary_round_aux_spec sx mx ex lx Hm Hd He)
    as (m & e & E & Hn & He' & Hlo & Hhi).
  exists m, e. split; [done|]. split; [done|]. split; [done|].
  assert (Hs : scaled (Z.pos m) e
               = Z.pos m * 2 ^ (e - ex) * 2 ^ (ex + unit_exp)).
  { unfold scaled. rewrite <- Z.mul_assoc, <- pow2_split by lia.
    f_equal. f_equal. lia. }
  rewrite Hs. unfold scaled.
  assert (0 < 2 ^ (ex + unit_exp)) by (by apply Z.pow_pos_nonneg).
  set (u := 2 ^ (ex + unit_exp)) in *. set (w := 2 ^ (e - ex)) in *.
  split; nia.
Qed.

Lemma Pos_iter_xO m k : Z.pos (Pos.iter xO m k) = Z.pos m * 2 ^ Z.pos k.
Proof.
  induction k as [|k IH] using Pos.peano_ind.
  - simpl. lia.
  - rewrite Pos.iter_succ, Pos2Z.inj_xO, IH, Pos2Z.inj_succ.
    rewrite Z.pow_succ_r by lia. lia.
Qed.

Lemma shl_align_fst m e e' :
  e' <= e -> Z.pos (fst (shl_align m e e')) = Z.pos m * 2 ^ (e - e').
Proof.
  intros He. unfold shl_align.
  destruct (e' - e) as [|p|p] eqn:Ed; try lia; simpl fst.
  - replace (e - e') with 0 by lia. lia.
  - rewrite Pos_iter_xO. f_equal. f_equal. lia.
Qed.

Lemma shl_align_snd m e e' : e' <= e -> snd (shl_align m e e') = e'.
Proof.
  intros He. unfold shl_align.
  destruct (e' - e) as [|p|p] eqn:Ed; try lia; simpl snd; lia.
Qed.

Lemma shl_align_ge m e e' : e <= e' -> shl_align m e e' = (m, e).
Proof.
  intros He. unfold shl_align.
  destruct (e' - e) as [|p|p] eqn:Ed; try lia; done.
Qed.

(** Rounding any positive mantissa in the range of the normal numbers. *)
Lemma binary_normalize_spec m e :
  let d := Z.pos (digits2_pos m) in
  -125 <= d + e <= 127 -> 0 <= e + unit_exp -> 0 <= d + e - 24 + unit_exp ->
  exists m' e',
    binary_normalize 24 128 (Z.pos m) e false = S754_finite false m' e'
    /\ 2 ^ 23 <= Z.pos m' < 2 ^ 24
    /\ (e' = d + e - 24 \/ e' = d + e - 23)
    /\ (2 ^ 23 - 1) * scaled (Z.pos m) e <= 2 ^ 23 * scaled (Z.pos m') e'
    /\ 2 ^ 23 * scaled (Z.pos m') e' <= (2 ^ 23 + 1) * scaled (Z.pos m) e.
Proof.
  intros d Hr Hu Hu'. unfold binary_normalize, binary_round.
  fold d. rewrite fexp_normal by lia.
  pose proof (digits2_pos_bounds m) as Hb. fold d in Hb.
  destruct (Z_lt_ge_dec d 24) as [Hlt|Hge].
  - pose proof (shl_align_fst m e (d + e - 24) ltac:(lia)) as Hf.
    pose proof (shl_align_snd m e (d + e - 24) ltac:(lia)) as Hs.
    destruct (shl_align m e (d + e - 24)) as [mz ez].
    simpl in Hf, Hs. subst ez.
    replace (e - (d + e - 24)) with (24 - d) in Hf by lia.
    assert (Hmz : 2 ^ 23 <= Z.pos mz < 2 ^ 24).
    { assert (0 < d) by (unfold d; lia).
      assert (E23 : 2 ^ 23 = 2 ^ (d - 1) * 2 ^ (24 - d)).
      { rewrite <- pow2_split by lia. f_equal. lia. }
      assert (E24 : 2 ^ 24 = 2 ^ d * 2 ^ (24 - d)).
      { rewrite <- pow2_split by lia. f_equal. lia. }
      assert (0 < 2 ^ (24 - d)) by (apply Z.pow_pos_nonneg; lia).
      rewrite Hf, E23, E24. nia. }
    assert (Hdz : Zdigits2 (Z.pos mz) = 24).
    { apply Z.le_antisymm.
      - apply Zdigits2_le; lia.
      - apply Zdigits2_ge; [lia|]. change (24 - 1) with 23. lia. }
    destruct (binary_round_aux_scaled false (Z.pos mz) (d + e - 24)
                loc_Exact) as (m' & e' & E & Hn & He' & Hlo & Hhi);
      [lia|lia|lia|lia|].
    exists m', e'. split; [done|]. split; [done|]. split; [lia|].
    assert (Hv : scaled (Z.pos mz) (d + e - 24) = scaled (Z.pos m) e).
    { rewrite Hf, scaled_mantissa by lia. f_equal. lia. }
    rewrite <- Hv. split; [|done].
    assert (scaled (Z.pos mz) (d + e - 24)
            <= scaled (Z.pos mz + 1) (d + e - 24)).
    { unfold scaled. apply Z.mul_le_mono_nonneg_r; [|lia].
      apply Z.pow_nonneg. lia. }
    lia.
  - rewrite shl_align_ge by lia.
    destruct (binary_round_aux_scaled false (Z.pos m) e loc_Exact)
      as (m' & e' & E & Hn & He' & Hlo & Hhi); [lia|simpl; lia|simpl; lia|lia|].
    exists m', e'. split; [done|]. split; [done|].
    split; [simpl in He'; lia|]. split; [|done].
    assert (scaled (Z.pos m) e <= scaled (Z.pos m + 1) e).
    { unfold scaled. apply Z.mul_le_mono_nonneg_r; [|lia].
      apply Z.pow_nonneg. lia. }
    lia.
Qed.

Lemma normal_digits m :
  2 ^ 23 <= Z.pos m < 2 ^ 24 -> digits2_pos m = 24%positive.
Proof.
  intros Hm. assert (Zdigits2 (Z.pos m) = 24) as Hd.
  { apply Z.le_antisymm.
    - apply Zdigits2_le; lia.
    - apply Zdigits2_ge; [lia|]. change (24 - 1) with 23. lia. }
  simpl in Hd. by injection Hd.
Qed.

Lemma float_of_Z_zero : float_of_Z 0 = S754_zero false.
Proof. reflexivity. Qed.

Lemma float_of_Z_normal q :
  0 < q < 2 ^ 32 -> normal (-23) 9 (float_of_Z q).
Proof.
  intros Hq. destruct q as [|p|p]; try lia. unfold float_of_Z.
  pose proof unit_exp_val as Hu.
  assert (Hd : 1 <= Z.pos (digits2_pos p) <= 32).
  { split; [lia|]. apply (Zdigits2_le (Z.pos p)); lia. }
  destruct (binary_normalize_spec p 0)
    as (m & e & E & Hn & He & _); [lia|lia|lia|].
  exists m, e. split; [done|]. split; [done|]. lia.
Qed.

(** The sum of two positive normal numbers. *)
Lemma float_add_spec lo hi x y :
  -100 <= lo -> hi <= 100 -> normal lo hi x -> normal lo hi y ->
  normal lo (hi + 2) (float_add x y)
  /\ (2 ^ 23 - 1) * (float_value x + float_value y)
     <= 2 ^ 23 * float_value (float_add x y)
  /\ 2 ^ 23 * float_value (float_add x y)
     <= (2 ^ 23 + 1) * (float_value x + float_value y).
Proof.
  intros Hlo Hhi (mx & ex & -> & Hmx & Hex) (my & ey & -> & Hmy & Hey).
  pose proof unit_exp_val as Hu.
  unfold float_add, SFadd, cond_Zopp.
  set (ez := Z.min ex ey).
  pose proof (shl_align_fst mx ex ez ltac:(lia)) as Ha.
  pose proof (shl_align_fst my ey ez ltac:(lia)) as Hb.
  set (a := fst (shl_align mx ex ez)) in *.
  set (b := fst (shl_align my ey ez)) in *. clearbody a b.
  change (Z.pos a + Z.pos b) with (Z.pos (a + b)).
  assert (Hpx : 0 < 2 ^ (ex - ez)) by (apply Z.pow_pos_nonneg; lia).
  assert (Hpy : 0 < 2 ^ (ey - ez)) by (apply Z.pow_pos_nonneg; lia).
  set (top := Z.max ex ey).
  assert (Hsum : 2 ^ (24 + (top - ez) - 1) <= Z.pos (a + b)
                 < 2 ^ (25 + (top - ez))).
  { rewrite Pos2Z.inj_add, Ha, Hb.
    replace (24 + (top - ez) - 1) with (23 + (top - ez)) by lia.
    rewrite !pow2_split by lia.
    assert (Hcase : (top - ez = ex - ez /\ ey - ez = 0)
                    \/ (top - ez = ey - ez /\ ex - ez = 0)) by lia.
    change (2 ^ 25) with (2 * 2 ^ 24).
    destruct Hcase as [[-> E0]|[-> E0]]; rewrite E0 in *;
      change (2 ^ 0) with 1 in *; nia. }
  assert (Hd : 24 + (top - ez) <= Z.pos (digits2_pos (a + b))
               <= 25 + (top - ez)).
  { split.
    - apply (Zdigits2_ge (Z.pos (a + b))); lia.
    - apply (Zdigits2_le (Z.pos (a + b))); lia. }
  destruct (binary_normalize_spec (a + b) ez)
    as (m & e & E & Hn & He & Hl & Hh); [lia|lia|lia|].
  rewrite E.
  assert (Hv : scaled (Z.pos (a + b)) ez
               = scaled (Z.pos mx) ex + scaled (Z.pos my) ey).
  { rewrite Pos2Z.inj_add, Ha, Hb.
    replace ex with (ez + (ex - ez)) at 2 by lia.
    replace ey with (ez + (ey - ez)) at 2 by lia.
    rewrite !scaled_shift by lia. unfold scaled. lia. }
  simpl float_value. rewrite <- Hv.
  split; [|done]. exists m, e. split; [done|]. split; [done|]. lia.
Qed.

Lemma div_eucl_eq a b : Z.div_eucl a b = (a / b, a mod b).
Proof. unfold Z.div, Z.modulo. by destruct (Z.div_eucl a b). Qed.

(** The quotient of two positive normal numbers; [z * y] is compared with
    [x], both in units of [2^-(2 * unit_exp)]. *)
Lemma float_div_spec lo hi lo' hi' x y :
  -50 <= lo -> hi <= 50 -> -50 <= lo' -> hi' <= 50 ->
  normal lo hi x -> normal lo' hi' y ->
  normal (lo - hi' - 24) (hi - lo' - 22) (float_div x y)
  /\ (2 ^ 23 - 1) * (float_value x * 2 ^ unit_exp)
     <= 2 ^ 23 * (float_value (float_div x y) * float_value y)
  /\ 2 ^ 23 * (float_value (float_div x y) * float_value y)
     <= (2 ^ 23 + 1) * (float_value x * 2 ^ unit_exp).
Proof.
  intros Hlo Hhi Hlo' Hhi' (mx & ex & -> & Hmx & Hex)
    (my & ey & -> & Hmy & Hey).
  pose proof unit_exp_val as Hu.
  unfold float_div, SFdiv, SFdiv_core_binary, Zdigits2.
  rewrite (normal_digits mx Hmx), (normal_digits my Hmy).
  rewrite fexp_normal by lia.
  replace (Z.min (24 + ex - (24 + ey) - 24) (ex - ey))
    with (ex - ey - 24) by lia.
  replace (ex - ey - (ex - ey - 24)) with 24 by lia.
  rewrite Z.shiftl_mul_pow2 by lia. rewrite div_eucl_eq.
  set (q := Z.pos mx * 2 ^ 24 / Z.pos my).
  assert (Hq : q * Z.pos my <= Z.pos mx * 2 ^ 24 < (q + 1) * Z.pos my).
  { pose proof (Z.div_mod (Z.pos mx * 2 ^ 24) (Z.pos my)).
    pose proof (Z.mod_pos_bound (Z.pos mx * 2 ^ 24) (Z.pos my)).
    fold q in H. lia. }
  assert (Hqr : 2 ^ 23 <= q < 2 ^ 25).
  { change (2 ^ 25) with (2 * 2 ^ 24). nia. }
  assert (Hd : 24 <= Zdigits2 q <= 25).
  { split.
    - apply Zdigits2_ge; [lia|]. change (24 - 1) with 23. lia.
    - apply Zdigits2_le; lia. }
  destruct (binary_round_aux_scaled (xorb false false) q (ex - ey - 24)
              (new_location (Z.pos my) (Z.pos mx * 2 ^ 24 mod Z.pos my)))
    as (m & e & E & Hn & He & Hl & Hh); [lia|lia|lia|lia|].
  rewrite E. simpl xorb. simpl float_value.
  split; [exists m, e; split; [done|]; split; [done|]; lia|].
  assert (Hsx : scaled (Z.pos mx) ex * 2 ^ unit_exp
                = Z.pos mx * 2 ^ 24
                  * (2 ^ (ex - ey - 24 + unit_exp) * 2 ^ (ey + unit_exp))).
  { unfold scaled. rewrite <- !pow2_split by lia.
    rewrite <- !Z.mul_assoc. f_equal. rewrite <- !pow2_split by lia.
    f_equal. lia. }
  assert (Hsq : forall k, scaled k (ex - ey - 24) * scaled (Z.pos my) ey
                = k * Z.pos my
                  * (2 ^ (ex - ey - 24 + unit_exp) * 2 ^ (ey + unit_exp))).
  { intros k. unfold scaled. lia. }
  assert (Hpos : 0 < 2 ^ (ex - ey - 24 + unit_exp) * 2 ^ (ey + unit_exp)).
  { apply Z.mul_pos_pos; apply Z.pow_pos_nonneg; lia. }
  set (w := 2 ^ (ex - ey - 24 + unit_exp) * 2 ^ (ey + unit_exp)) in *.
  assert (Hy : 0 < scaled (Z.pos my) ey) by (apply scaled_pos; lia).
  rewrite Hsx. split.
  - apply Z.le_trans
      with ((2 ^ 23 - 1) * (scaled (q + 1) (ex - ey - 24)
                            * scaled (Z.pos my) ey)).
    + rewrite Hsq. nia.
    + rewrite Z.mul_assoc, (Z.mul_assoc (2 ^ 23)).
      apply Z.mul_le_mono_nonneg_r; lia.
  - apply Z.le_trans
      with ((2 ^ 23 + 1) * (scaled q (ex - ey - 24)
                            * scaled (Z.pos my) ey)).
    + rewrite Z.mul_assoc, (Z.mul_assoc (2 ^ 23 + 1)).
      apply Z.mul_le_mono_nonneg_r; lia.
    + rewrite Hsq. nia.
Qed.

(** The product of two positive normal numbers; [z] is compared with
    [x * y], both in units of [2^-(2 * unit_exp)]. *)
Lemma float_mul_spec lo hi lo' hi' x y :
  -60 <= lo -> hi <= 30 -> -60 <= lo' -> hi' <= 30 ->
  normal lo hi x -> normal lo' hi' y ->
  normal (lo + lo' + 23) (hi + hi' + 25) (float_mul x y)
  /\ (2 ^ 23 - 1) * (float_value x * float_value y)
     <= 2 ^ 23 * (float_value (float_mul x y) * 2 ^ unit_exp)
  /\ 2 ^ 23 * (float_value (float_mul x y) * 2 ^ unit_exp)
     <= (2 ^ 23 + 1) * (float_value x * float_value y).
Proof.
  intros Hlo Hhi Hlo' Hhi' (mx & ex & -> & Hmx & Hex)
    (my & ey & -> & Hmy & Hey).
  pose proof unit_exp_val as Hu.
  unfold float_mul, SFmul.
  assert (Hp : 2 ^ 46 <= Z.pos (mx * my) < 2 ^ 48).
  { rewrite Pos2Z.inj_mul. change (2 ^ 46) with (2 ^ 23 * 2 ^ 23).
    change (2 ^ 48) with (2 ^ 24 * 2 ^ 24). nia. }
  assert (Hd : 47 <= Zdigits2 (Z.pos (mx * my)) <= 48).
  { split.
    - apply Zdigits2_ge; [lia|]. change (47 - 1) with 46. lia.
    - apply Zdigits2_le; lia. }
  destruct (binary_round_aux_scaled (xorb false false) (Z.pos (mx * my))
              (ex + ey) loc_Exact)
    as (m & e & E & Hn & He & Hl & Hh); [lia|lia|lia|lia|].
  rewrite E. simpl xorb. simpl float_value.
  split; [exists m, e; split; [done|]; split; [done|]; lia|].
  assert (Hv : scaled (Z.pos mx) ex * scaled (Z.pos my) ey
               = scaled (Z.pos (mx * my)) (ex + ey) * 2 ^ unit_exp).
  { assert (Ep : 2 ^ (ex + ey + unit_exp) * 2 ^ unit_exp
                 = 2 ^ (ex + unit_exp) * 2 ^ (ey + unit_exp)).
    { rewrite <- !pow2_split by lia. f_equal. lia. }
    unfold scaled. rewrite Pos2Z.inj_mul.
    transitivity (Z.pos mx * Z.pos my
                  * (2 ^ (ex + unit_exp) * 2 ^ (ey + unit_exp))); [ring|].
    rewrite <- Ep. ring. }
  rewrite Hv.
  assert (Hup : 0 < 2 ^ unit_exp) by (apply Z.pow_pos_nonneg; lia).
  assert (scaled (Z.pos (mx * my)) (ex + ey)
          <= scaled (Z.pos (mx * my) + 1) (ex + ey)).
  { unfold scaled. apply Z.mul_le_mono_nonneg_r; [|lia].
    apply Z.pow_nonneg. lia. }
  rewrite !Z.mul_assoc. split; apply Z.mul_le_mono_nonneg_r; lia.
Qed.

Lemma truncate_bounds m e :
  0 <= e + unit_exp ->
  truncate m e * 2 ^ unit_exp <= scaled (Z.pos m) e
  < (truncate m e + 1) * 2 ^ unit_exp.
Proof.
  intros He. pose proof unit_exp_val as Hu. unfold truncate.
  destruct (0 <=? e) eqn:Ee.
  - apply Z.leb_le in Ee. unfold scaled. rewrite pow2_split by lia.
    assert (0 < 2 ^ unit_exp) by (apply Z.pow_pos_nonneg; lia).
    assert (0 < 2 ^ e) by (apply Z.pow_pos_nonneg; lia). nia.
  - apply Z.leb_gt in Ee.
    assert (Hp : 0 < 2 ^ (- e)) by (apply Z.pow_pos_nonneg; lia).
    pose proof (Z.div_mod (Z.pos m) (2 ^ (- e)) ltac:(lia)) as Hdm.
    pose proof (Z.mod_pos_bound (Z.pos m) (2 ^ (- e)) Hp) as Hmb.
    assert (Hun : 2 ^ unit_exp = 2 ^ (- e) * 2 ^ (e + unit_exp)).
    { rewrite <- pow2_split by lia. f_equal. lia. }
    assert (0 < 2 ^ (e + unit_exp)) by (apply Z.pow_pos_nonneg; lia).
    unfold scaled. rewrite Hun.
    set (t := Z.pos m / 2 ^ (- e)) in *. nia.
Qed.

Lemma float_max_chunk :
  float_of_Z XRD_CL_MAX_CHUNK = S754_finite false (2 ^ 23) (-4).
Proof. reflexivity. Qed.

(** One budget of [splitClientRequest]: the quotient of a quality [n] by a
    sum [s] that is not below it, up to rounding, is at most
    [XRD_CL_MAX_CHUNK]; it is not zero when [n] is at least about half of
    [s]. *)
Lemma budget_spec n s :
  n = S754_zero false \/ normal (-23) 9 n ->
  normal (-23) 11 s ->
  (2 ^ 23 - 1) * float_value n <= 2 ^ 23 * float_value s ->
  exists c,
    IOSize_of_float
      (float_mul (float_of_Z XRD_CL_MAX_CHUNK) (float_div n s)) = Some c
    /\ 0 <= c <= XRD_CL_MAX_CHUNK
    /\ (2 ^ 23 * float_value s <= 2 * (2 ^ 23 + 1) * float_value n ->
        0 < c).
Proof.
  intros Hn Hs Hle. pose proof unit_exp_val as Hu.
  assert (HS : 0 < float_value s).
  { destruct Hs as (ms & es & -> & Hms & Hes). simpl.
    apply scaled_pos; lia. }
  destruct Hn as [->|Hn].
  - destruct Hs as (ms & es & -> & Hms & Hes).
    exists 0. split; [done|]. split; [by vm_compute|].
    simpl float_value in *. lia.
  - destruct (float_div_spec (-23) 9 (-23) 11 n s) as (Hd & Hdl & Hdh);
      try done.
    set (d := float_div n s) in *. clearbody d.
    assert (Hc : normal (-4) (-4) (float_of_Z XRD_CL_MAX_CHUNK)).
    { rewrite float_max_chunk. exists (2 ^ 23)%positive, (-4).
      split; [done|]. split; [by vm_compute|lia]. }
    destruct (float_mul_spec (-4) (-4) (-23 - 11 - 24) (9 - -23 - 22)
                (float_of_Z XRD_CL_MAX_CHUNK) d)
      as (Hm & Hml & Hmh); try done.
    assert (HP : float_value (float_of_Z XRD_CL_MAX_CHUNK)
                 = 2 ^ 19 * 2 ^ unit_exp).
    { rewrite float_max_chunk. simpl. unfold scaled.
      replace (-4 + unit_exp) with (unit_exp + -4) by lia.
      rewrite Hu. reflexivity. }
    rewrite HP in Hml, Hmh.
    set (c := float_mul (float_of_Z XRD_CL_MAX_CHUNK) d) in *. clearbody c.
    assert (HN : 0 < float_value n).
    { destruct Hn as (mn & en & -> & Hmn & Hen). simpl.
      apply scaled_pos; lia. }
    assert (HD : 0 < float_value d).
    { destruct Hd as (md & ed & -> & Hmd & Hed). simpl.
      apply scaled_pos; lia. }
    destruct Hm as (mc & ec & -> & Hmc & Hec).
    simpl float_value in Hml, Hmh.
    pose proof (truncate_bounds mc ec ltac:(lia)) as [Htl Hth].
    assert (Hup : 0 < 2 ^ unit_exp) by (apply Z.pow_pos_nonneg; lia).
    set (u := 2 ^ unit_exp) in *.
    set (VC := scaled (Z.pos mc) ec) in *.
    set (VD := float_value d) in *. set (VN := float_value n) in *.
    set (VS := float_value s) in *.
    set (t := truncate mc ec) in *.
    change (2 ^ 23) with 8388608 in *. change (2 ^ 19) with 524288 in *.
    assert (Hdu : 8388607 * VD <= 8388609 * u).
    { apply (Z.mul_le_mono_pos_r _ _ (8388608 * VS)); [lia|]. nia. }
    assert (Hcu : 8388608 * VC <= 8388609 * (524288 * VD)).
    { apply (Z.mul_le_mono_pos_r _ _ u); [lia|]. nia. }
    assert (Ht : 0 <= t <= 524288) by nia.
    simpl IOSize_of_float. fold t.
    replace (t <? 2 ^ 64) with true
      by (symmetry; apply Z.ltb_lt;
          change (2 ^ 64) with 18446744073709551616; lia).
    exists t. split; [done|]. split; [unfold XRD_CL_MAX_CHUNK; lia|].
    intros Hhalf.
    assert (Hdl' : 8388607 * u <= 2 * 8388609 * VD).
    { apply (Z.mul_le_mono_pos_r _ _ (8388608 * VN)); [lia|]. nia. }
    assert (Hcl : 8388607 * (524288 * VD) <= 8388608 * VC).
    { apply (Z.mul_le_mono_pos_r _ _ u); [lia|]. nia. }
    nia.
Qed.

Lemma float_of_Z_cases q :
  0 <= q < 2 ^ 32 ->
  (q = 0 /\ float_of_Z q = S754_zero false)
  \/ (0 < q /\ normal (-23) 9 (float_of_Z q)).
Proof.
  intros Hq. destruct (Z.eq_dec q 0) as [->|Hne].
  - by left.
  - right. split; [lia|]. apply float_of_Z_normal. lia.
Qed.

Lemma normal_value_pos lo hi f :
  - unit_exp <= lo -> normal lo hi f -> 0 < float_value f.
Proof.
  intros Hlo (m & e & -> & Hm & He). simpl. apply scaled_pos; lia.
Qed.

Lemma normal_weaken lo hi lo' hi' f :
  lo' <= lo -> hi <= hi' -> normal lo hi f -> normal lo' hi' f.
Proof.
  intros Hlo Hhi (m & e & -> & Hm & He).
  exists m, e. split; [done|]. split; [done|]. lia.
Qed.

(** The sum of the two qualities, as [splitClientRequest] forms it. *)
Lemma quality_sum_spec q1 q2 :
  0 <= q1 < 2 ^ 32 -> 0 <= q2 < 2 ^ 32 -> 0 < q1 + q2 ->
  let a := float_of_Z q1 in
  let b := float_of_Z q2 in
  let s := float_add a b in
  normal (-23) 11 s
  /\ (2 ^ 23 - 1) * (float_value a + float_value b) <= 2 ^ 23 * float_value s
  /\ 2 ^ 23 * float_value s <= (2 ^ 23 + 1) * (float_value a + float_value b).
Proof.
  intros H1 H2 Hs. simpl. pose proof unit_exp_val as Hu.
  destruct (float_of_Z_cases q1 H1) as [[-> Ea]|[Hq1 Ha]];
    destruct (float_of_Z_cases q2 H2) as [[-> Eb]|[Hq2 Hb]]; try lia.
  - rewrite float_of_Z_zero.
    pose proof (normal_value_pos (-23) 9 _ ltac:(lia) Hb) as Hp.
    destruct Hb as (m & e & Eb & Hm & He). rewrite Eb in *.
    split; [|simpl float_value in *; lia].
    exists m, e. split; [done|]. split; [done|]. lia.
  - rewrite float_of_Z_zero.
    pose proof (normal_value_pos (-23) 9 _ ltac:(lia) Ha) as Hp.
    destruct Ha as (m & e & Ea & Hm & He). rewrite Ea in *.
    split; [|simpl float_value in *; lia].
    exists m, e. split; [done|]. split; [done|]. lia.
  - destruct (float_add_spec (-23) 9 _ _ ltac:(lia) ltac:(lia) Ha Hb)
      as (Hn & Hl & Hh).
    split; [|done]. by apply (normal_weaken (-23) (9 + 2)).
Qed.

Lemma float_value_nonneg f : 0 <= float_value f.
Proof.
  destruct f as [| | |[] m e]; simpl; try lia.
  unfold scaled. apply Z.mul_nonneg_nonneg; [lia|]. apply Z.pow_nonneg. lia.
Qed.

(** For qualities that an [unsigned] can hold and that are not both zero,
    both budgets of [splitClientRequest] are defined, lie between 0 and
    [XRD_CL_MAX_CHUNK], and one of them is positive. *)
Lemma split_budgets_in_range q1 q2 :
  0 <= q1 < 2 ^ 32 -> 0 <= q2 < 2 ^ 32 -> 0 < q1 + q2 ->
  exists chunk1 chunk2,
    split_budgets q1 q2 = Some (chunk1, chunk2)
    /\ 0 <= chunk1 <= XRD_CL_MAX_CHUNK
    /\ 0 <= chunk2 <= XRD_CL_MAX_CHUNK
    /\ (0 < chunk1 \/ 0 < chunk2).
Proof.
  intros H1 H2 Hs. unfold split_budgets.
  destruct (quality_sum_spec q1 q2 H1 H2 Hs) as (Hn & Hl & Hh).
  simpl in Hn, Hl, Hh.
  pose proof (float_value_nonneg (float_of_Z q1)) as HA.
  pose proof (float_value_nonneg (float_of_Z q2)) as HB.
  assert (Ha : float_of_Z q1 = S754_zero false
               \/ normal (-23) 9 (float_of_Z q1)).
  { destruct (float_of_Z_cases q1 H1) as [[_ E]|[_ E]]; auto. }
  assert (Hb : float_of_Z q2 = S754_zero false
               \/ normal (-23) 9 (float_of_Z q2)).
  { destruct (float_of_Z_cases q2 H2) as [[_ E]|[_ E]]; auto. }
  destruct (budget_spec (float_of_Z q2) _ Hb Hn) as (c1 & -> & Hc1 & Hp1);
    [lia|].
  destruct (budget_spec (float_of_Z q1) _ Ha Hn) as (c2 & -> & Hc2 & Hp2);
    [lia|].
  exists c1, c2. split; [done|]. split; [done|]. split; [done|].
  destruct (Z_le_gt_dec (float_value (float_of_Z q1))
              (float_value (float_of_Z q2))).
  - left. apply Hp1. lia.
  - right. apply Hp2. lia.
Qed.

End Binary32Facts.
Module DispatchFacts.
Import Split SplitFacts SplitMore SplitMoreFacts.
Import Manager ManagerFacts ManagerMore ManagerMoreFacts.
Import Dispatch Binary32Facts.

(** ** [handle] for a scatter list *)

Lemma handle_split_bytes chunk1 chunk2 iolist r1 r2 :
  sizes_ok iolist ->
  Z.of_nat (length iolist) < 2 ^ 64 ->
  0 <= chunk1 <= XRD_CL_MAX_CHUNK ->
  0 <= chunk2 <= XRD_CL_MAX_CHUNK ->
  0 < chunk1 \/ 0 < chunk2 ->
  handle_split chunk1 chunk2 iolist = Returned (r1, r2) ->
  total_size r1 + total_size r2 = total_size iolist.
Proof.
  intros Hok Hlen H1 H2 Hp.
  destruct (split_lists_bytes chunk1 chunk2 iolist Hok Hlen H1 H2 Hp)
    as (s1 & s2 & E & Hb).
  unfold handle_split, splitClientRequest.
  destruct (Nat.eqb (length iolist) 0) eqn:Hz.
  - apply Nat.eqb_eq, length_zero_iff_nil in Hz. subst.
    by intros [= <- <-].
  - rewrite E. destruct (validateList s1); [|done].
    destruct (validateList s2); [|done].
    destruct (_ =? _); [|done]. by intros [= <- <-].
Qed.

Lemma handle_split_cover chunk1 chunk2 iolist r1 r2 :
  Forall in_range iolist ->
  Z.of_nat (length iolist) < 2 ^ 64 ->
  0 <= chunk1 <= XRD_CL_MAX_CHUNK ->
  0 <= chunk2 <= XRD_CL_MAX_CHUNK ->
  handle_split chunk1 chunk2 iolist = Returned (r1, r2) ->
  forall x, (cover r1 x + cover r2 x)%nat = cover iolist x.
Proof.
  intros Hin Hlen H1 H2.
  unfold handle_split, splitClientRequest, split_lists.
  destruct (Nat.eqb (length iolist) 0) eqn:Hz.
  { apply Nat.eqb_eq, length_zero_iff_nil in Hz. subst.
    by intros [= <- <-]. }
  destruct (split_loop _ _ _ _) as [s'|] eqn:El; [|done].
  destruct (validateList _); [|done]. destruct (validateList _); [|done].
  destruct (_ =? _); [|done]. intros [= <- <-].
  assert (Hok : sizes_ok iolist).
  { eapply Forall_impl; [exact Hin|]. by intros b (Hb & _). }
  apply (split_loop_cover (cover iolist)) in El as [[Hs' _ _ _ Hcov] Hc];
    [|done|done|].
  - intros x. specialize (Hcov x). rewrite !cover_sort.
    destruct (decide (s_front s' < length (tmp_iolist s'))%nat) as [Hlt|Hge].
    + apply (split_cond_true s' Hs') in Hlt. congruence.
    + rewrite drop_ge in Hcov by lia. simpl in Hcov. lia.
  - split; simpl; try done.
    + split; simpl; auto; try lia; by apply Forall_nil.
    + intros x. rewrite drop_0. lia.
Qed.

Lemma send_to_spec m i req s :
  send_to m i req = Some s ->
  m_activeSources m !! i = Some (fst s) /\ snd s = req.
Proof.
  unfold send_to. destruct (m_activeSources m !! i); [|done].
  by intros [= <-].
Qed.

(** With two active sources of good qualities, the split that [handle]
    runs is the split of the earlier sections for budgets within bounds. *)
Lemma splitClientRequest_on_budgets m iolist :
  qualities_ok m ->
  (2 <= length (m_activeSources m))%nat ->
  iolist <> [] ->
  exists chunk1 chunk2,
    0 <= chunk1 <= XRD_CL_MAX_CHUNK
    /\ 0 <= chunk2 <= XRD_CL_MAX_CHUNK
    /\ (0 < chunk1 \/ 0 < chunk2)
    /\ splitClientRequest_on m iolist
       = match handle_split chunk1 chunk2 iolist with
         | Returned (req1, req2) => SplitReturned req1 req2
         | AssertionFailed => SplitAborted
         | Diverged => SplitDiverged
         end.
Proof.
  intros Hq Hlen Hne. unfold splitClientRequest_on.
  destruct iolist as [|io rest]; [done|]. simpl length. simpl Nat.eqb.
  destruct (m_activeSources m) as [|s1 [|s2 l]] eqn:Ea;
    simpl in Hlen; try lia.
  destruct (Hq s1 s2) as (Hq1 & Hq2 & Hs); [by rewrite Ea..|].
  destruct (split_budgets_in_range _ _ Hq1 Hq2 Hs)
    as (chunk1 & chunk2 & E & H1 & H2 & Hp).
  exists chunk1, chunk2. do 3 (split; [done|]).
  change ((s1 :: s2 :: l) !! 0%nat) with (Some s1).
  change ((s1 :: s2 :: l) !! 1%nat) with (Some s2).
  cbv beta iota. by rewrite E.
Qed.

Lemma split_on_empty m : splitClientRequest_on m [] = SplitReturned [] [].
Proof. reflexivity. Qed.

(** What a split that returns hands back, for good qualities. *)
Lemma splitClientRequest_on_returned m iolist req1 req2 :
  Forall in_range iolist ->
  Z.of_nat (length iolist) < 2 ^ 64 ->
  qualities_ok m ->
  (2 <= length (m_activeSources m))%nat ->
  splitClientRequest_on m iolist = SplitReturned req1 req2 ->
  total_size req1 + total_size req2 = total_size iolist
  /\ forall x, (cover req1 x + cover req2 x)%nat = cover iolist x.
Proof.
  intros Hin Hlen Hq Ha.
  destruct iolist as [|io rest].
  { rewrite split_on_empty. by intros [= <- <-]. }
  destruct (splitClientRequest_on_budgets m (io :: rest) Hq Ha)
    as (chunk1 & chunk2 & H1 & H2 & Hp & ->); [done|].
  destruct (handle_split chunk1 chunk2 (io :: rest)) as [[r1 r2]| |] eqn:E;
    [|done..].
  intros [= <- <-]. split.
  - apply (handle_split_bytes chunk1 chunk2); try done.
    eapply Forall_impl; [exact Hin|]. by intros b (Hb & _).
  - by apply (handle_split_cover chunk1 chunk2).
Qed.

(** X24. [handle] for a scatter list hands exactly the bytes of the request
    to active sources.  For a request within the offset bound and a manager
    whose first two active sources, when it has two, have qualities that an
    [unsigned] holds and that are not both zero: when [handle] returns, the
    fragments it handed out ask for every byte of the file exactly as often
    as the request does, so they also hold as many bytes as the request;
    there are at most two requests, each went to a source that is active
    when the call returns, and two requests never go to the same place of
    [m_activeSources]. *)
Theorem handle_iolist_sends_every_byte now probe sync_ok iolist m sent m' :
  Forall in_range iolist ->
  Z.of_nat (length iolist) < 2 ^ 64 ->
  qualities_ok m ->
  handle_iolist now probe sync_ok iolist m = Some (Dispatched sent m') ->
  (forall x, sent_cover sent x = cover iolist x)
  /\ sent_bytes sent = total_size iolist
  /\ Forall (fun s => fst s ∈ m_activeSources m') sent
  /\ (length sent <= 2)%nat
  /\ (NoDup (m_activeSources m') -> NoDup (fst <$> sent)).
Proof.
  intros Hin Hlen Hq. unfold handle_iolist.
  assert (Hone : forall m1 d,
    match send_to m1 0 iolist with
    | Some s => Some (Dispatched [s] m1)
    | None => Some DispatchOutOfRange
    end = Some d ->
    d = Dispatched sent m' ->
    (forall x, sent_cover sent x = cover iolist x)
    /\ sent_bytes sent = total_size iolist
    /\ Forall (fun s => fst s ∈ m_activeSources m') sent
    /\ (length sent <= 2)%nat
    /\ (NoDup (m_activeSources m') -> NoDup (fst <$> sent))).
  { intros m1 d. destruct (send_to m1 0 iolist) as [s|] eqn:Es;
      intros [= <-]; [|done]. intros [= <- <-].
    apply send_to_spec in Es as [Hl Hs].
    split; [intros x; simpl; rewrite Hs; lia|].
    split; [simpl; rewrite Hs; lia|]. split.
    - apply Forall_singleton. by eapply list_elem_of_lookup_2.
    - split; [simpl; lia|]. intros _. simpl. apply NoDup_singleton. }
  destruct (Nat.eqb (length (m_activeSources m)) 0) eqn:E0; [done|].
  destruct (Nat.eqb (length (m_activeSources m)) 1) eqn:E1.
  { destruct (checkSources now probe sync_ok m) as [[t m1|e m1]|];
      [|done..].
    intros E. by eapply Hone. }
  apply Nat.eqb_neq in E0, E1.
  destruct (splitClientRequest_on m iolist) as [r1 r2| | | |] eqn:Esplit;
    [|done..].
  destruct (splitClientRequest_on_returned m iolist r1 r2 Hin Hlen Hq
              ltac:(lia) Esplit) as [Hb Hcov].
  destruct (checkSources now probe sync_ok m) as [[t m1|e m1]|]; [|done..].
  destruct (Nat.eqb (length (m_activeSources m1)) 1).
  { intros E. by eapply Hone. }
  unfold send_parts.
  destruct (negb (Nat.eqb (length r1) 0)) eqn:En1;
    destruct (negb (Nat.eqb (length r2) 0)) eqn:En2;
    try (apply negb_false_iff, Nat.eqb_eq, length_zero_iff_nil in En1;
         subst r1);
    try (apply negb_false_iff, Nat.eqb_eq, length_zero_iff_nil in En2;
         subst r2);
    try (destruct (send_to m1 0 r1) as [s1|] eqn:Es1; [|done];
         apply send_to_spec in Es1 as [Hl1 Hs1]);
    try (destruct (send_to m1 1 r2) as [s2|] eqn:Es2; [|done];
         apply send_to_spec in Es2 as [Hl2 Hs2]);
    simpl; intros [= <- <-];
    (split; [intros x; specialize (Hcov x); simpl in *;
             rewrite ?Hs1, ?Hs2; lia|]);
    simpl in *; rewrite ?Hs1, ?Hs2.
  - split; [lia|]. split.
    + repeat constructor; by eapply list_elem_of_lookup_2.
    + split; [lia|]. intros Hnd. apply NoDup_cons. split.
      * intros Hin'. apply list_elem_of_singleton in Hin'.
        rewrite Hin' in Hl1.
        pose proof (NoDup_lookup _ _ _ _ Hnd Hl1 Hl2). done.
      * apply NoDup_singleton.
  - split; [lia|]. split.
    + repeat constructor; by eapply list_elem_of_lookup_2.
    + split; [lia|]. intros _. apply NoDup_singleton.
  - split; [lia|]. split.
    + repeat constructor; by eapply list_elem_of_lookup_2.
    + split; [lia|]. intros _. apply NoDup_singleton.
  - split; [lia|]. split; [constructor|].
    split; [lia|]. intros _. apply NoDup_nil_2.
Qed.

Lemma duplex_qualities_ok : qualities_ok duplex_manager.
Proof.
  intros s1 s2 [= <-] [= <-]. vm_compute.
  repeat split; (discriminate || reflexivity).
Defined.

Lemma handle_iolist_sends_every_byte_witness :
  split_budgets 50 60 = Some (285975, 238312)
  /\ exists sent m',
    handle_iolist at_1000 false true s5_input duplex_manager
    = Some (Dispatched sent m')
    /\ sent = [(1%nat, [mkIOPosBuffer 0 4096 285975;
                       mkIOPosBuffer 319487 1118783 90113]);
               (2%nat, [mkIOPosBuffer 285975 1085271 33512;
                       mkIOPosBuffer 409600 2004096 204800])]
    /\ (forall x, sent_cover sent x = cover s5_input x)
    /\ sent_bytes sent = total_size s5_input
    /\ Forall (fun s => fst s ∈ m_activeSources m') sent
    /\ (length sent <= 2)%nat
    /\ (NoDup (m_activeSources m') -> NoDup (fst <$> sent)).
Proof.
  split; [vm_compute; reflexivity|].
  eexists _, _. split; [vm_compute; reflexivity|].
  split; [reflexivity|].
  apply (handle_iolist_sends_every_byte at_1000 false true s5_input
           duplex_manager).
  - repeat constructor; vm_compute; done.
  - simpl. lia.
  - exact duplex_qualities_ok.
  - vm_compute. reflexivity.
Defined.

Lemma checkSources_throws_open now probe sync_ok m e m1 :
  checkSources now probe sync_ok m = Some (Raise e m1) -> e = FileOpenError.
Proof.
  unfold checkSources.
  destruct (_ && _); [|done]. unfold checkSourcesImpl.
  destruct (if (_ <=? 1)%nat then _ else _) as [[f m2]|]; [|done].
  unfold open_and_schedule. destruct f; [|done].
  unfold OpenHandler_open. destruct (m_file _); [done|].
  destruct sync_ok; [done|]. by intros [= <- _].
Qed.

(** X25. [handle] for a scatter list completes on every request whose
    fragments lie within the offset bound and do not overlap, for a manager
    with an active source whose listed pointers point to objects and whose
    first two active sources, when it has two, have qualities that an
    [unsigned] holds and that are not both zero: the budgets are defined
    and within bounds, no assertion fails, neither in [handle] nor in
    [splitClientRequest] and [validateList], no loop runs forever, and
    [m_activeSources] is never indexed past its end, although the health
    check that runs between the split and the sends may have demoted a
    source.  The call hands the request out or leaves with the exception of
    a refused open.  The condition on the qualities is needed: when the
    first two active sources both have quality zero and the request is not
    empty, [q1 + q2] is zero, the quotients are NaN, and the conversion to
    [IOSize] is undefined. *)
Theorem handle_iolist_completes now probe sync_ok iolist m :
  request_ok iolist ->
  pointers_valid m ->
  (1 <= length (m_activeSources m))%nat ->
  (qualities_ok m ->
   (forall s1 s2 l,
      m_activeSources m = s1 :: s2 :: l ->
      exists chunk1 chunk2,
        split_budgets (getQuality m s1) (getQuality m s2)
        = Some (chunk1, chunk2)
        /\ 0 <= chunk1 <= XRD_CL_MAX_CHUNK
        /\ 0 <= chunk2 <= XRD_CL_MAX_CHUNK
        /\ (0 < chunk1 \/ 0 < chunk2))
   /\ ((exists sent m',
         handle_iolist now probe sync_ok iolist m
         = Some (Dispatched sent m'))
       \/ (exists m',
             handle_iolist now probe sync_ok iolist m
             = Some (DispatchThrew FileOpenError m'))))
  /\ (forall s1 s2 l,
        m_activeSources m = s1 :: s2 :: l ->
        getQuality m s1 = 0 -> getQuality m s2 = 0 -> iolist <> [] ->
        split_budgets (getQuality m s1) (getQuality m s2) = None
        /\ handle_iolist now probe sync_ok iolist m = Some DispatchUndefined).
Proof.
  intros Hreq Hv Hlen. split.
  - intros Hq. split.
    { intros s1 s2 l Ea.
      destruct (Hq s1 s2) as (Hq1 & Hq2 & Hs); [by rewrite Ea..|].
      by apply split_budgets_in_range. }
    unfold handle_iolist.
    destruct (checkSources_returns now probe sync_ok m Hv) as [r Hr].
    pose proof (checkSources_nonempty now probe sync_ok m r Hlen Hr) as Hne.
    assert (Hone : forall m1,
      (1 <= length (m_activeSources m1))%nat ->
      exists s, send_to m1 0 iolist = Some s).
    { intros m1 Hm1. unfold send_to.
      destruct (m_activeSources m1) as [|p l]; [simpl in Hm1; lia|].
      by eexists. }
    destruct (Nat.eqb (length (m_activeSources m)) 0) eqn:E0.
    { apply Nat.eqb_eq in E0. lia. }
    destruct (Nat.eqb (length (m_activeSources m)) 1) eqn:E1.
    { rewrite Hr. destruct r as [t m1|e m1]; simpl in Hne.
      - destruct (Hone m1 Hne) as [s ->]. left. by eexists _, _.
      - rewrite (checkSources_throws_open _ _ _ _ _ _ Hr).
        right. by eexists. }
    apply Nat.eqb_neq in E0, E1.
    assert (Hs : exists r1 r2,
      splitClientRequest_on m iolist = SplitReturned r1 r2).
    { destruct iolist as [|io rest]; [by eexists _, _|].
      destruct (splitClientRequest_on_budgets m (io :: rest) Hq)
        as (chunk1 & chunk2 & H1 & H2 & Hp & ->); [lia|done|].
      destruct (splitClientRequest_returns chunk1 chunk2 (io :: rest)
                  Hreq H1 H2 Hp) as (r1 & r2 & ->).
      by eexists _, _. }
    destruct Hs as (r1 & r2 & ->).
    rewrite Hr. destruct r as [t m1|e m1]; simpl in Hne.
    + destruct (Nat.eqb (length (m_activeSources m1)) 1) eqn:E1'.
      * destruct (Hone m1 Hne) as [s ->]. left. by eexists _, _.
      * apply Nat.eqb_neq in E1'. left. unfold send_parts, send_to.
        destruct (m_activeSources m1) as [|p0 [|p1 l]]; simpl in *;
          [lia|lia|].
        destruct (negb _), (negb _); simpl; by eexists _, _.
    + rewrite (checkSources_throws_open _ _ _ _ _ _ Hr).
      right. by eexists.
  - intros s1 s2 l Ea E1 E2 Hne. rewrite E1, E2.
    split; [reflexivity|].
    unfold handle_iolist, splitClientRequest_on. rewrite Ea. simpl.
    rewrite E1, E2.
    destruct iolist as [|io rest]; [done|]. reflexivity.
Qed.

Lemma duplex_pointers_valid : pointers_valid duplex_manager.
Proof.
  intros p Hp. simpl in Hp.
  repeat (apply elem_of_cons in Hp as [->|Hp]; [by eexists|]).
  by apply elem_of_nil in Hp.
Defined.

Lemma handle_iolist_completes_witness :
  (split_budgets 50 60 = Some (285975, 238312)
   /\ ((exists sent m',
          handle_iolist at_1000 false true s5_input duplex_manager
          = Some (Dispatched sent m'))
       \/ (exists m',
             handle_iolist at_1000 false true s5_input duplex_manager
             = Some (DispatchThrew FileOpenError m'))))
  /\ (split_budgets 0 0 = None
      /\ handle_iolist at_1000 false true s5_input unrated_duplex_manager
         = Some DispatchUndefined).
Proof.
  split.
  - split; [reflexivity|].
    apply (handle_iolist_completes at_1000 false true s5_input
             duplex_manager).
    + exact s5_request_ok.
    + exact duplex_pointers_valid.
    + simpl. lia.
    + exact duplex_qualities_ok.
  - assert (Hv : pointers_valid unrated_duplex_manager).
    { intros p Hp. simpl in Hp.
      repeat (apply elem_of_cons in Hp as [->|Hp]; [by eexists|]).
      by apply elem_of_nil in Hp. }
    assert (Hlen : (1 <= length (m_activeSources unrated_duplex_manager))%nat)
      by (simpl; lia).
    destruct (handle_iolist_completes at_1000 false true s5_input
                unrated_duplex_manager s5_request_ok Hv Hlen) as [_ H].
    apply (H 1%nat 2%nat []); [reflexivity..|discriminate].
Defined.
End DispatchFacts.

